(** * LinkGameEngine: the letter link game engine of h5-game

    A shallow embedding of [src/components/link-game/LinkGameEngine.ts].

    Numbers of the source are integers ([Z]); the grid [pictures] is a list
    of rows of cells, read and written by index; strings are [string] with
    the ASCII case conversions.  The fields of the engine object are the
    fields of the records [Board] (the part the map code works on) and
    [Engine] (the session).  [Math.random] is a tape of outcomes that the
    code consumes from the head.  The observer callbacks are a log of
    events. *)

From Stdlib Require Import ZArith Ascii String.
From stdpp Require Import prelude strings sorting.

Local Open Scope Z_scope.

(** ** Strings *)

Definition lowerAscii (c : ascii) : ascii :=
  let n := N_of_ascii c in
  if ((65 <=? n) && (n <=? 90))%N then ascii_of_N (n + 32) else c.

Definition upperAscii (c : ascii) : ascii :=
  let n := N_of_ascii c in
  if ((97 <=? n) && (n <=? 122))%N then ascii_of_N (n - 32) else c.

Fixpoint mapString (f : ascii → ascii) (s : string) : string :=
  match s with
  | EmptyString => EmptyString
  | String c s' => String (f c) (mapString f s')
  end.

(** [String.prototype.toLowerCase] and [toUpperCase] on ASCII strings. *)
Definition toLowerCase (s : string) : string := mapString lowerAscii s.
Definition toUpperCase (s : string) : string := mapString upperAscii s.

(** The test written three times in the source:
    [a.toLowerCase() === b.toLowerCase() && a !== b]. *)
Definition isMatch (a b : string) : bool :=
  String.eqb (toLowerCase a) (toLowerCase b) && negb (String.eqb a b).

Definition allLetters : string := "abcdefghijklmnopqrstuvwxyz".

(** [allLetters[k]] as a one character string. *)
Definition letterAt (k : nat) : string := substring k 1 allLetters.

(** [letter.toUpperCase().charCodeAt(0) - 65]; the source never calls it on
    the empty string, where JavaScript yields NaN. *)
Definition letterType (letter : string) : Z :=
  match toUpperCase letter with
  | String c _ => Z.of_N (N_of_ascii c) - 65
  | EmptyString => 0
  end.

(** ** The grid *)

Record CellInfo := mkCell {
  isEmpty : bool;
  type : Z;
  pic : string;
  index : option Z
}.

Record ClickInfo := mkClick {
  row : Z;
  col : Z;
  clickIndex : Z
}.

Abbreviation Point := (Z * Z)%type.

Abbreviation Grid := (list (list CellInfo)).

(** A position [{ row, col }] of the play area. *)
Abbreviation Position := (Z * Z)%type.

Definition emptyCell : CellInfo :=
  {| isEmpty := true; type := 0; pic := ""; index := None |}.

(** [pictures[r][c]]; [None] where JavaScript reads [undefined]. *)
Definition getCell (g : Grid) (r c : Z) : option CellInfo :=
  if (r <? 0) || (c <? 0) then None
  else match g !! Z.to_nat r with
       | Some cells => cells !! Z.to_nat c
       | None => None
       end.

(** [pictures[r][c].isEmpty].  Outside the grid the source raises a
    TypeError; the code only reads inside the grid when the coordinates it is
    given are inside, and the model reads an absent cell as occupied. *)
Definition cellIsEmpty (g : Grid) (r c : Z) : bool :=
  match getCell g r c with
  | Some cell => isEmpty cell
  | None => false
  end.

(** [pictures[r][c] = f(pictures[r][c])] for a cell inside the grid. *)
Definition updCell (g : Grid) (r c : Z) (f : CellInfo → CellInfo) : Grid :=
  if (r <? 0) || (c <? 0) then g
  else match g !! Z.to_nat r with
       | Some cells =>
           match cells !! Z.to_nat c with
           | Some cell => <[Z.to_nat r := <[Z.to_nat c := f cell]> cells]> g
           | None => g
           end
       | None => g
       end.

Definition setCell (g : Grid) (r c : Z) (cell : CellInfo) : Grid :=
  updCell g r c (λ _, cell).

Definition markEmpty (cell : CellInfo) : CellInfo :=
  {| isEmpty := true; type := type cell; pic := pic cell; index := index cell |}.

(** ** Connectivity: [isRowEmpty], [isColEmpty], [canCleanup] *)

Definition isRowEmpty (g : Grid) (x1 y1 x2 y2 : Z) : bool :=
  if negb (y1 =? y2) then false
  else
    let minX := if x1 >? x2 then x2 else x1 in
    let maxX := if x1 >? x2 then x1 else x2 in
    forallb (λ i, cellIsEmpty g y1 i) (seqZ (minX + 1) (maxX - minX - 1)).

Definition isColEmpty (g : Grid) (x1 y1 x2 y2 : Z) : bool :=
  if negb (x1 =? x2) then false
  else
    let minY := if y1 >? y2 then y2 else y1 in
    let maxY := if y1 >? y2 then y1 else y2 in
    forallb (λ i, cellIsEmpty g i x1) (seqZ (minY + 1) (maxY - minY - 1)).

(** What one pass through the body of a [while] loop of [canCleanup] does. *)
Inductive LoopCtl (A : Type) : Type :=
  | Continue
  | Break
  | Return (a : A).
Global Arguments Continue {A}.
Global Arguments Break {A}.
Global Arguments Return {A} a.

(** [while (cond(i)) { body(i); i = next(i) }], where the body may [break] or
    [return]; the result is [Some] when the body returned.  Each loop of
    [canCleanup] moves [i] one cell towards an edge of the grid and is run
    with as many passes as there are cells on the way. *)
Fixpoint whileLoop {A : Type} (fuel : nat) (cond : Z → bool)
    (body : Z → LoopCtl A) (next : Z → Z) (i : Z) : option A :=
  match fuel with
  | O => None
  | S fuel' =>
      if cond i then
        match body i with
        | Return a => Some a
        | Break => None
        | Continue => whileLoop fuel' cond body next (next i)
        end
      else None
  end.

Definition orElse {A : Type} (a b : option A) : option A :=
  match a with
  | Some x => Some x
  | None => b
  end.

Section Connectivity.

Variables (cols rows : Z) (g : Grid).
Variables (x1 y1 x2 y2 : Z).

(** Same column, two turns: the detour column [x1 + d * i], [i = 1, 2, ...]. *)
Definition detourCol (d : Z) : option (list Point) :=
  whileLoop (Z.to_nat (if d >? 0 then cols - x1 else x1 + 1))
    (λ i, (if d >? 0 then x1 + i <? cols else x1 - i >=? 0)
          && cellIsEmpty g y1 (x1 + d * i))
    (λ i, if negb (cellIsEmpty g y2 (x2 + d * i)) then Break
          else if isColEmpty g (x1 + d * i) y1 (x1 + d * i) y2
               then Return [(x1, y1); (x1 + d * i, y1); (x1 + d * i, y2); (x2, y2)]
               else Continue)
    Z.succ 1.

(** Same row, two turns: the detour row [y1 + d * i]. *)
Definition detourRow (d : Z) : option (list Point) :=
  whileLoop (Z.to_nat (if d >? 0 then rows - y1 else y1 + 1))
    (λ i, (if d >? 0 then y1 + i <? rows else y1 - i >=? 0)
          && cellIsEmpty g (y1 + d * i) x1)
    (λ i, if negb (cellIsEmpty g (y2 + d * i) x2) then Break
          else if isRowEmpty g x1 (y1 + d * i) x2 (y1 + d * i)
               then Return [(x1, y1); (x1, y1 + d * i); (x2, y1 + d * i); (x2, y2)]
               else Continue)
    Z.succ 1.

(** Different row and column, two turns through column [i]:
    [i = x1; while (++i < cols)] for [d = 1], [while (--i >= 0)] for [d = -1]. *)
Definition turnCol (d : Z) : option (list Point) :=
  whileLoop (Z.to_nat (if d >? 0 then cols - x1 else x1 + 1))
    (λ i, if d >? 0 then i <? cols else i >=? 0)
    (λ i, if negb (cellIsEmpty g y1 i) then Break
          else if isColEmpty g i y1 i y2 && isRowEmpty g i y2 x2 y2
                  && cellIsEmpty g y2 i
               then Return [(x1, y1); (i, y1); (i, y2); (x2, y2)]
               else Continue)
    (λ i, i + d) (x1 + d).

(** The same through row [i]. *)
Definition turnRow (d : Z) : option (list Point) :=
  whileLoop (Z.to_nat (if d >? 0 then rows - y1 else y1 + 1))
    (λ i, if d >? 0 then i <? rows else i >=? 0)
    (λ i, if negb (cellIsEmpty g i x1) then Break
          else if isRowEmpty g x1 i x2 i && isColEmpty g x2 i x2 y2
                  && cellIsEmpty g i x2
               then Return [(x1, y1); (x1, i); (x2, i); (x2, y2)]
               else Continue)
    (λ i, i + d) (y1 + d).

Definition sameColumn : option (list Point) :=
  if x1 =? x2 then
    if Z.abs (y1 - y2) =? 1 then Some [(x1, y1); (x2, y2)]
    else if isColEmpty g x1 y1 x2 y2 then Some [(x1, y1); (x2, y2)]
    else orElse (detourCol 1) (detourCol (-1))
  else None.

Definition sameRow : option (list Point) :=
  if y1 =? y2 then
    if Z.abs (x1 - x2) =? 1 then Some [(x1, y1); (x2, y2)]
    else if isRowEmpty g x1 y1 x2 y2 then Some [(x1, y1); (x2, y2)]
    else orElse (detourRow 1) (detourRow (-1))
  else None.

Definition oneTurn : option (list Point) :=
  if isRowEmpty g x1 y1 x2 y1 && cellIsEmpty g y1 x2 && isColEmpty g x2 y1 x2 y2
  then Some [(x1, y1); (x2, y1); (x2, y2)]
  else if isColEmpty g x1 y1 x1 y2 && cellIsEmpty g y2 x1 && isRowEmpty g x1 y2 x2 y2
  then Some [(x1, y1); (x1, y2); (x2, y2)]
  else None.

Definition twoTurns : option (list Point) :=
  if negb (x1 =? x2) && negb (y1 =? y2) then
    orElse (turnCol 1) (orElse (turnCol (-1)) (orElse (turnRow 1) (turnRow (-1))))
  else None.

(** [canCleanup(x1, y1, x2, y2)] on the grid [g]: [Some points] when the
    source returns true with [this.points = points], [None] when it returns
    false (with [this.points = []]). *)
Definition canCleanup : option (list Point) :=
  orElse sameColumn (orElse sameRow (orElse oneTurn twoTurns)).

End Connectivity.

(** ** The solvability check: [isSolvable], [backtrackSolve]

    [backtrackSolve] works on [testMap], a copy of the grid made cell by cell,
    and points [this.pictures] at it while it asks [canCleanup].  The two
    grid objects and the reference are kept apart here, so that what the
    search leaves in [this.pictures] is something to prove. *)

Inductive GridRef : Type :=
  | LiveGrid
  | TestMap.

Record SolverHeap := mkHeap {
  liveGrid : Grid;
  testMap : Grid;
  thisPictures : GridRef;
  thisPoints : list Point
}.

(** The grid [this.pictures] refers to. *)
Definition deref (h : SolverHeap) : Grid :=
  match thisPictures h with
  | LiveGrid => liveGrid h
  | TestMap => testMap h
  end.

Definition setThisPictures (r : GridRef) (h : SolverHeap) : SolverHeap :=
  {| liveGrid := liveGrid h; testMap := testMap h; thisPictures := r;
     thisPoints := thisPoints h |}.

Definition setTestMap (t : Grid) (h : SolverHeap) : SolverHeap :=
  {| liveGrid := liveGrid h; testMap := t; thisPictures := thisPictures h;
     thisPoints := thisPoints h |}.

Definition setThisPoints (p : list Point) (h : SolverHeap) : SolverHeap :=
  {| liveGrid := liveGrid h; testMap := testMap h; thisPictures := thisPictures h;
     thisPoints := p |}.

(** An entry [{ row, col, pic }] of the array [cells]. *)
Record SolverCell := mkSolverCell {
  sRow : Z;
  sCol : Z;
  sPic : string
}.

(** The index pairs [(i, j)], [i < j < n], in the order of the two [for] loops. *)
Definition indexPairs (n : nat) : list (nat * nat) :=
  flat_map (λ i, map (λ j, (i, j)) (seq (S i) (n - S i))) (seq 0 n).

(** [cells.filter((_, index) => keep(index))], counting from [k]. *)
Fixpoint filterIndex {A : Type} (keep : nat → bool) (k : nat) (l : list A) : list A :=
  match l with
  | [] => []
  | x :: l' => if keep k then x :: filterIndex keep (S k) l' else filterIndex keep (S k) l'
  end.

Definition restoreCell (g : Grid) (r c : Z) (saved : option CellInfo) : Grid :=
  match saved with
  | Some cell => setCell g r c cell
  | None => g
  end.

(** The body of the inner [for] loop at the index pair [ij]: the result is
    true when the source returns true from there. *)
Definition tryPair (recurse : SolverHeap → list SolverCell → bool * SolverHeap)
    (cols rows : Z) (cells : list SolverCell) (h : SolverHeap) (ij : nat * nat)
    : bool * SolverHeap :=
  match cells !! ij.1, cells !! ij.2 with
  | Some cell1, Some cell2 =>
      if isMatch (sPic cell1) (sPic cell2) then
        let originalPictures := thisPictures h in
        let h1 := setThisPictures TestMap h in
        let path := canCleanup cols rows (deref h1)
                      (sCol cell1) (sRow cell1) (sCol cell2) (sRow cell2) in
        let h2 := setThisPoints (default [] path) h1 in
        if path is Some _ then
          let cell1Original := getCell (testMap h2) (sRow cell1) (sCol cell1) in
          let cell2Original := getCell (testMap h2) (sRow cell2) (sCol cell2) in
          let h3 := setTestMap
                      (updCell (updCell (testMap h2) (sRow cell1) (sCol cell1) markEmpty)
                         (sRow cell2) (sCol cell2) markEmpty) h2 in
          let newCells :=
            filterIndex (λ k, negb (k =? ij.1)%nat && negb (k =? ij.2)%nat) 0 cells in
          let '(ok, h4) := recurse h3 newCells in
          if ok then (true, setThisPictures originalPictures h4)
          else
            let h5 := setTestMap
                        (restoreCell
                           (restoreCell (testMap h4) (sRow cell1) (sCol cell1) cell1Original)
                           (sRow cell2) (sCol cell2) cell2Original) h4 in
            (false, setThisPictures originalPictures h5)
        else (false, setThisPictures originalPictures h2)
      else (false, h)
  | _, _ => (false, h)
  end.

(** The two [for] loops: stop at the first pair from which the source returns. *)
Fixpoint firstPair (step : SolverHeap → nat * nat → bool * SolverHeap)
    (pairs : list (nat * nat)) (h : SolverHeap) : bool * SolverHeap :=
  match pairs with
  | [] => (false, h)
  | ij :: pairs' =>
      let '(ok, h') := step h ij in
      if ok then (true, h') else firstPair step pairs' h'
  end.

(** [backtrackSolve(testMap, cells)].  Every recursive call has two cells
    less, so [fuel = cells.length] is never used up. *)
Fixpoint backtrackSolve (fuel : nat) (cols rows : Z) (h : SolverHeap)
    (cells : list SolverCell) : bool * SolverHeap :=
  match cells with
  | [] => (true, h)
  | _ :: _ =>
      match fuel with
      | O => (false, h)
      | S fuel' =>
          firstPair (tryPair (backtrackSolve fuel' cols rows) cols rows cells)
            (indexPairs (length cells)) h
      end
  end.

(** The positions of the play area, row by row. *)
Definition getAllValidPositions (cols rows : Z) : list Position :=
  flat_map (λ i, map (λ j, (i, j)) (seqZ 1 (cols - 2))) (seqZ 1 (rows - 2)).

(** The occupied positions of the play area, row by row. *)
Definition occupiedPositions (cols rows : Z) (g : Grid) : list Position :=
  filter (λ p, cellIsEmpty g p.1 p.2 = false) (getAllValidPositions cols rows).

Definition solverCells (cols rows : Z) (g : Grid) : list SolverCell :=
  map (λ p, {| sRow := p.1; sCol := p.2;
               sPic := from_option pic "" (getCell g p.1 p.2) |})
    (occupiedPositions cols rows g).

(** [isSolvable()] on a heap where [this.pictures] is the live grid: the
    result, and the grid [this.pictures] refers to afterwards with the points
    left by the last [canCleanup]. *)
Definition isSolvableHeap (cols rows : Z) (g : Grid) (pts : list Point)
    : bool * SolverHeap :=
  let copy := map (λ cells, map (λ cell, cell) cells) g in
  let cells := solverCells cols rows copy in
  backtrackSolve (length cells) cols rows
    {| liveGrid := g; testMap := copy; thisPictures := LiveGrid; thisPoints := pts |}
    cells.

(** ** The state monad of the engine *)

Definition M (S A : Type) : Type := S → option (A * S).

Global Instance M_ret {S : Type} : MRet (M S) :=
  λ A a s, Some (a, s).

Global Instance M_bind {S : Type} : MBind (M S) :=
  λ A B k m s, match m s with
               | Some (a, s') => k a s'
               | None => None
               end.

(** The source raises (a TypeError), or the loop needs more outcomes of
    [Math.random] than the tape holds. *)
Definition throw {S A : Type} : M S A := λ _, None.

Definition gets {S A : Type} (f : S → A) : M S A := λ s, Some (f s, s).

Definition modify {S : Type} (f : S → S) : M S unit := λ s, Some (tt, f s).

Definition when {S : Type} (b : bool) (m : M S unit) : M S unit :=
  if b then m else mret tt.

(** ** Events: what the engine hands to its callbacks *)

Inductive GameOverType : Type :=
  | Normal
  | StepsExceeded
  | TimeExceeded.

(** The arrow functions that [checkMatch] passes to [drawLine]. *)
Inductive Callback : Type :=
  | MatchSuccess (preRow preCol curRow curCol preIndex curIndex : Z)
  | MatchRejected
  | Noop.

(** A cell with its letter, as given to [onShakeEffect] and [onHint]. *)
Abbreviation LetterCell := (Z * Z * string)%type.

Inductive Event : Type :=
  | ScoreUpdate (score : Z)
  | TimeUpdate (time : Z)
  | SelectedCellChange (cellInfo : option ClickInfo)
  | GameOver (kind : GameOverType) (score : Z)
  | MapUpdate (pictures : Grid) (rows cols : Z)
  | DrawLine (points : list Point) (onSuccess onError : Callback)
  | AnimationStart (cells : list Position)
  | ShakeEffect (cells : list LetterCell)
  | StepUpdate (steps : Z)
  | TargetLetterEliminated
  | Hint (cells : list LetterCell)
  | Console (message : string)
  | Toast (message : string).

(** ** The board: the fields the map code reads and writes *)

Record Board := mkBoard {
  pictures : Grid;
  points : list Point;
  random : list nat;
  log : list Event
}.

Definition setPictures (g : Grid) (b : Board) : Board :=
  {| pictures := g; points := points b; random := random b; log := log b |}.

Definition setPoints (p : list Point) (b : Board) : Board :=
  {| pictures := pictures b; points := p; random := random b; log := log b |}.

Definition setRandom (t : list nat) (b : Board) : Board :=
  {| pictures := pictures b; points := points b; random := t; log := log b |}.

Definition addLog (ev : Event) (b : Board) : Board :=
  {| pictures := pictures b; points := points b; random := random b;
     log := log b ++ [ev] |}.

Definition emit (ev : Event) : M Board unit := modify (addLog ev).

(** The next outcome of [Math.random], already scaled and floored by the
    caller with [mod]. *)
Definition draw : M Board nat :=
  λ b, match random b with
       | [] => None
       | d :: tape => Some (d, setRandom tape b)
       end.

(** [array.sort(() => Math.random() - 0.5)]: some rearrangement of the
    array that the outcomes of [Math.random] decide; here each outcome picks
    the next element among the remaining ones. *)
Fixpoint shuffle {A : Type} (fuel : nat) (l : list A) : M Board (list A) :=
  match fuel with
  | O => mret []
  | S fuel' =>
      match l with
      | [] => mret []
      | _ :: _ =>
          d ← draw;
          let k := (d mod length l)%nat in
          match l !! k with
          | Some x => rest ← shuffle fuel' (delete k l); mret (x :: rest)
          | None => mret []
          end
      end
  end.

Record CharacterInfo := mkCharacter {
  chType : Z;
  chPic : string;
  chIndex : Z
}.

Section MapCode.

Variables (cols rows : Z) (targetLetter : string).

Definition getEdgeScore (r c : Z) : Z :=
  10 - Z.min (Z.min (r - 1) (rows - 2 - r)) (Z.min (c - 1) (cols - 2 - c)).

(** [positions.sort((a, b) => getEdgeScore(b) - getEdgeScore(a))]: the sort
    is stable, higher scores first. *)
Fixpoint insertByEdge (p : Position) (l : list Position) : list Position :=
  match l with
  | [] => [p]
  | q :: l' =>
      if getEdgeScore q.1 q.2 <=? getEdgeScore p.1 p.2 then p :: q :: l'
      else q :: insertByEdge p l'
  end.

Definition sortByEdge (l : list Position) : list Position :=
  foldr insertByEdge [] l.

Definition initializeEmptyMap : M Board unit :=
  modify (setPictures (replicate (Z.to_nat rows) (replicate (Z.to_nat cols) emptyCell))).

(** The [while] loop of [generateLetterPairs]; it ends when the tape ends
    before enough fresh letters came up. *)
Fixpoint drawLetters (wanted : Z) (letters used : list string) (tape : list nat)
    : option (list string * list nat) :=
  if Z.of_nat (length letters) <? wanted then
    match tape with
    | [] => None
    | d :: tape' =>
        let randomLetter := letterAt (d mod 26) in
        if bool_decide (randomLetter ∈ used)
        then drawLetters wanted letters used tape'
        else drawLetters wanted (letters ++ [randomLetter; toUpperCase randomLetter])
               (used ++ [randomLetter]) tape'
    end
  else Some (letters, tape).

Definition generateLetterPairs : M Board (list string) :=
  λ b,
    let totalCells := (rows - 2) * (cols - 2) in
    let pairsNeeded := totalCells / 2 in
    let hasTarget := negb (String.eqb targetLetter "") in
    let letters :=
      if hasTarget then [toLowerCase targetLetter; toUpperCase targetLetter] else [] in
    let usedLetters := if hasTarget then [toLowerCase targetLetter] else [] in
    match drawLetters (pairsNeeded * 2) letters usedLetters (random b) with
    | Some (letters', tape) => Some (letters', setRandom tape b)
    | None => None
    end.

(** [letterMap[key].push(x)], the keys in the order they were first used. *)
Fixpoint pushGroup {A : Type} (key : string) (x : A) (m : list (string * list A))
    : list (string * list A) :=
  match m with
  | [] => [(key, [x])]
  | (k, group) :: m' =>
      if String.eqb k key then (k, group ++ [x]) :: m'
      else (k, group) :: pushGroup key x m'
  end.

(** The object [letterMap] built by [forEach], and the groups of length two
    among [Object.values(letterMap)]. *)
Definition groupPairs {A : Type} (key : A → string) (l : list A) : list (A * A) :=
  flat_map (λ entry, match entry.2 with
                     | [a; b] => [(a, b)]
                     | _ => []
                     end)
    (foldl (λ m x, pushGroup (key x) x m) [] l).

Definition groupIntoLetterPairs (letters : list string) : list (string * string) :=
  groupPairs toLowerCase letters.

(** [placeLetter(position, letter)]; reading [position.row] of [undefined]
    raises. *)
Definition placeLetter (position : option Position) (letter : string) : M Board unit :=
  match position with
  | None => throw
  | Some p =>
      d ← draw;
      modify (λ b, setPictures
                     (setCell (pictures b) p.1 p.2
                        {| isEmpty := false; type := letterType letter; pic := letter;
                           index := Some (Z.of_nat (d mod 1000)) |}) b)
  end.

(** The [for] loop of [generateMapWithEdgePriority], from pair number [i]. *)
Fixpoint placePairs (positions : list Position) (i : nat)
    (letterPairs : list (string * string)) : M Board unit :=
  match letterPairs with
  | [] => mret tt
  | letterPair :: rest =>
      if (i * 2 <? length positions)%nat then
        placeLetter (positions !! (i * 2)%nat) letterPair.1;;
        placeLetter (positions !! (i * 2 + 1)%nat) letterPair.2;;
        placePairs positions (S i) rest
      else mret tt
  end.

Definition generateMapWithEdgePriority : M Board unit :=
  letters ← generateLetterPairs;
  let positions := sortByEdge (getAllValidPositions cols rows) in
  placePairs positions 0 (groupIntoLetterPairs letters).

(** The two [for] loops of [generateMapTraditional]: the cells of the play
    area row by row, as long as letters are left. *)
Fixpoint fillRowMajor (positions : list Position) (letters : list string) : M Board unit :=
  match positions, letters with
  | p :: positions', letter :: letters' =>
      placeLetter (Some p) letter;; fillRowMajor positions' letters'
  | _, _ => mret tt
  end.

Definition generateMapTraditional : M Board unit :=
  letters ← generateLetterPairs;
  shuffled ← shuffle (length letters) letters;
  fillRowMajor (getAllValidPositions cols rows) shuffled.

(** The cells [(i, j)] visited by [for (j = 1; j < bound; j += 2)] in every
    row [i] of the play area. *)
Definition everyOtherColumn (bound : Z) : list Position :=
  flat_map (λ i, map (λ k, (i, 1 + 2 * k)) (seqZ 0 (bound / 2))) (seqZ 1 (rows - 2)).

Fixpoint placeTemplate (slots : list Position) (letterPairs : list (string * string))
    : M Board unit :=
  match slots, letterPairs with
  | p :: slots', letterPair :: rest =>
      placeLetter (Some (p.1, p.2)) letterPair.1;;
      placeLetter (Some (p.1, p.2 + 1)) letterPair.2;;
      placeTemplate slots' rest
  | _, _ => mret tt
  end.

Definition generateSolvableTemplate : M Board unit :=
  initializeEmptyMap;;
  letters ← generateLetterPairs;
  placeTemplate (everyOtherColumn (cols - 3)) (groupIntoLetterPairs letters).

Definition isSolvable : M Board bool :=
  λ b,
    let '(ok, h) := isSolvableHeap cols rows (pictures b) (points b) in
    Some (ok, setPoints (thisPoints h) (setPictures (deref h) b)).

(** The [do ... while] loop of [generateRandomMap], entered with [attempts]
    and at most [budget] passes to go. *)
Fixpoint generateRandomMapLoop (budget : nat) (attempts : Z) : M Board Z :=
  match budget with
  | O => mret attempts
  | S budget' =>
      initializeEmptyMap;;
      (if attempts <? 15 then generateMapWithEdgePriority else generateMapTraditional);;
      let attempts' := attempts + 1 in
      solvable ← isSolvable;
      if negb solvable && (attempts' <? 30)
      then generateRandomMapLoop budget' attempts'
      else mret attempts'
  end.

Definition generateRandomMap : M Board unit :=
  attempts ← generateRandomMapLoop 30 0;
  when (attempts >=? 30)
    (emit (Console "smart map generation failed, using the solvable template");;
     generateSolvableTemplate).

Fixpoint createMapLoop (budget : nat) (attempts : Z) : M Board Z :=
  match budget with
  | O => mret attempts
  | S budget' =>
      generateRandomMap;;
      let attempts' := attempts + 1 in
      solvable ← isSolvable;
      if negb solvable && (attempts' <? 100)
      then createMapLoop budget' attempts'
      else mret attempts'
  end.

Definition createMap : M Board unit :=
  attempts ← createMapLoop 100 0;
  when (attempts >=? 100)
    (emit (Console "cannot generate a solvable map, using the current map")).

End MapCode.

Section Reshuffle.

Variables (cols rows : Z) (targetLetter : string).

(** [{ type, pic, index: index || 0 }] of the cell at [p]. *)
Definition characterAt (g : Grid) (p : Position) : CharacterInfo :=
  match getCell g p.1 p.2 with
  | Some cell =>
      {| chType := type cell; chPic := pic cell; chIndex := default 0 (index cell) |}
  | None => {| chType := 0; chPic := ""; chIndex := 0 |}
  end.

(** The array [characters] collected by the reshuffles, row by row. *)
Definition collectCharacters (g : Grid) : list CharacterInfo :=
  map (characterAt g) (occupiedPositions cols rows g).

(** The three assignments [.type = ], [.pic = ], [.index = ] to the cell at [p]. *)
Definition assignCharacter (p : Position) (ch : CharacterInfo) (g : Grid) : Grid :=
  updCell g p.1 p.2
    (λ cell, {| isEmpty := isEmpty cell; type := chType ch; pic := chPic ch;
                index := Some (chIndex ch) |}).

(** [for (i = 0; i < positions.length && i < characters.length; i++)]. *)
Fixpoint assignAll (positions : list Position) (characters : list CharacterInfo)
    (g : Grid) : Grid :=
  match positions, characters with
  | p :: positions', ch :: characters' =>
      assignAll positions' characters' (assignCharacter p ch g)
  | _, _ => g
  end.

Definition smartDisorderEdgeFirst : M Board unit :=
  g ← gets pictures;
  let characters := collectCharacters g in
  let positions := sortByEdge cols rows (occupiedPositions cols rows g) in
  shuffled ← shuffle (length characters) characters;
  modify (λ b, setPictures (assignAll positions shuffled (pictures b)) b).

(** The [forEach] over the groups in [smartDisorderSpread], from [charIndex]. *)
Fixpoint spreadGroups (positions : list Position)
    (groups : list (CharacterInfo * CharacterInfo)) (charIndex : nat) : M Board unit :=
  match groups with
  | [] => mret tt
  | group :: rest =>
      let n := length positions in
      match positions !! (charIndex mod n)%nat,
            positions !! ((charIndex + n / 2) mod n)%nat with
      | Some pos1, Some pos2 =>
          modify (λ b, setPictures (assignCharacter pos1 group.1 (pictures b)) b);;
          modify (λ b, setPictures (assignCharacter pos2 group.2 (pictures b)) b);;
          spreadGroups positions rest (charIndex + 2)
      | _, _ => throw
      end
  end.

Definition smartDisorderSpread : M Board unit :=
  g ← gets pictures;
  let characters := collectCharacters g in
  let positions := occupiedPositions cols rows g in
  spreadGroups positions (groupPairs (λ ch, toLowerCase (chPic ch)) characters) 0.

Definition randomDisorder : M Board unit :=
  g ← gets pictures;
  let characters := collectCharacters g in
  shuffled ← shuffle (length characters) characters;
  modify (λ b, setPictures
                 (assignAll (occupiedPositions cols rows (pictures b)) shuffled (pictures b))
                 b).

(** The two [for] loops of [generateLinearLayout] over the cells
    [(i, 1), (i, 3), ...]; [pictures[i][j + 1]?.isEmpty] of an absent cell
    is [undefined], which [!] turns into true. *)
Fixpoint linearLoop (slots : list Position) (pairs : list (CharacterInfo * CharacterInfo))
    (g : Grid) : Grid :=
  match slots, pairs with
  | p :: slots', pr :: pairs' =>
      if negb (cellIsEmpty g p.1 p.2) && negb (cellIsEmpty g p.1 (p.2 + 1)) then
        let g1 := assignCharacter p pr.1 g in
        let g2 := if p.2 + 1 <? cols - 1 then assignCharacter (p.1, p.2 + 1) pr.2 g1
                  else g1 in
        linearLoop slots' pairs' g2
      else linearLoop slots' pairs g
  | _, _ => g
  end.

Definition generateLinearLayout : M Board unit :=
  emit (Console "using the simple linear layout");;
  g ← gets pictures;
  let characters := collectCharacters g in
  let pairs := groupPairs (λ ch, toLowerCase (chPic ch)) characters in
  modify (λ b, setPictures
                 (linearLoop (everyOtherColumn rows (cols - 1)) pairs (pictures b)) b).

Definition forceGenerateSolvableLayout : M Board unit :=
  emit (Console "forcing a solvable layout");;
  emit (Toast "the map cannot be solved, forcing a solvable layout");;
  generateRandomMap cols rows targetLetter;;
  solvable ← isSolvable cols rows;
  when (negb solvable) generateLinearLayout.

Definition renderMap : M Board unit :=
  g ← gets pictures;
  emit (MapUpdate g rows cols).

(** The [do ... while] loop of [disorder]. *)
Fixpoint disorderLoop (budget : nat) (attempts : Z) : M Board Z :=
  match budget with
  | O => mret attempts
  | S budget' =>
      (if attempts <? 50 then smartDisorderEdgeFirst
       else if attempts <? 100 then smartDisorderSpread
       else randomDisorder);;
      let attempts' := attempts + 1 in
      solvable ← isSolvable cols rows;
      if negb solvable && (attempts' <? 200)
      then disorderLoop budget' attempts'
      else mret attempts'
  end.

Definition disorder : M Board unit :=
  attempts ← disorderLoop 200 0;
  when (attempts >=? 200)
    (emit (Console "cannot find a solvable reshuffle, using the current layout");;
     forceGenerateSolvableLayout);;
  renderMap.

(** [getActualLetterCount()]. *)
Definition getActualLetterCount (g : Grid) : Z :=
  Z.of_nat (length (occupiedPositions cols rows g)).

(** The pairs pushed by [getAvailableMatches], each with the points that
    [canCleanup] left for it. *)
Definition matchOfPair (g : Grid) (cells : list Position) (ij : nat * nat)
    : option (option (Position * Position) * list Point) :=
  match cells !! ij.1, cells !! ij.2 with
  | Some cell1, Some cell2 =>
      let pic1 := from_option pic "" (getCell g cell1.1 cell1.2) in
      let pic2 := from_option pic "" (getCell g cell2.1 cell2.2) in
      if isMatch pic1 pic2 then
        match canCleanup cols rows g cell1.2 cell1.1 cell2.2 cell2.1 with
        | Some pts => Some (Some (cell1, cell2), pts)
        | None => Some (None, [])
        end
      else None
  | _, _ => None
  end.

(** [getAvailableMatches()]: the matches, and what the calls of [canCleanup]
    leave in [this.points]. *)
Definition getAvailableMatches : M Board (list (Position * Position)) :=
  λ b,
    let g := pictures b in
    let cells := occupiedPositions cols rows g in
    let results := omap (matchOfPair g cells) (indexPairs (length cells)) in
    Some (omap fst results,
          setPoints (from_option snd (points b) (last results)) b).

End Reshuffle.

(** ** The engine object

    [timer] tells whether [this.timer] holds an interval handle, and
    [timerRunning] whether that interval has not been cleared; [onDrawLine]
    tells whether the callback of that name is set.  [board] holds
    [pictures] and [points], with the tape and the log. *)

Record Engine := mkEngine {
  score : Z;
  steps : Z;
  cols : Z;
  rows : Z;
  configInitialTime : Z;
  leftDisorderTime : Z;
  autoDisorderEnabled : bool;
  isAnimating : bool;
  selectedCell : option ClickInfo;
  count : Z;
  remain : Z;
  preClickInfo : option ClickInfo;
  leftTime : Z;
  timer : bool;
  timerRunning : bool;
  targetLetter : string;
  onDrawLine : bool;
  board : Board
}.

Definition setScore (v : Z) (e : Engine) : Engine :=
  {| score := v; steps := steps e; cols := cols e; rows := rows e;
     configInitialTime := configInitialTime e;
     leftDisorderTime := leftDisorderTime e;
     autoDisorderEnabled := autoDisorderEnabled e; isAnimating := isAnimating e;
     selectedCell := selectedCell e; count := count e; remain := remain e;
     preClickInfo := preClickInfo e; leftTime := leftTime e; timer := timer e;
     timerRunning := timerRunning e; targetLetter := targetLetter e;
     onDrawLine := onDrawLine e; board := board e |}.

Definition setSteps (v : Z) (e : Engine) : Engine :=
  {| score := score e; steps := v; cols := cols e; rows := rows e;
     configInitialTime := configInitialTime e;
     leftDisorderTime := leftDisorderTime e;
     autoDisorderEnabled := autoDisorderEnabled e; isAnimating := isAnimating e;
     selectedCell := selectedCell e; count := count e; remain := remain e;
     preClickInfo := preClickInfo e; leftTime := leftTime e; timer := timer e;
     timerRunning := timerRunning e; targetLetter := targetLetter e;
     onDrawLine := onDrawLine e; board := board e |}.

Definition setLeftDisorderTime (v : Z) (e : Engine) : Engine :=
  {| score := score e; steps := steps e; cols := cols e; rows := rows e;
     configInitialTime := configInitialTime e; leftDisorderTime := v;
     autoDisorderEnabled := autoDisorderEnabled e; isAnimating := isAnimating e;
     selectedCell := selectedCell e; count := count e; remain := remain e;
     preClickInfo := preClickInfo e; leftTime := leftTime e; timer := timer e;
     timerRunning := timerRunning e; targetLetter := targetLetter e;
     onDrawLine := onDrawLine e; board := board e |}.

Definition setIsAnimating (v : bool) (e : Engine) : Engine :=
  {| score := score e; steps := steps e; cols := cols e; rows := rows e;
     configInitialTime := configInitialTime e;
     leftDisorderTime := leftDisorderTime e;
     autoDisorderEnabled := autoDisorderEnabled e; isAnimating := v;
     selectedCell := selectedCell e; count := count e; remain := remain e;
     preClickInfo := preClickInfo e; leftTime := leftTime e; timer := timer e;
     timerRunning := timerRunning e; targetLetter := targetLetter e;
     onDrawLine := onDrawLine e; board := board e |}.

Definition setSelected (v : option ClickInfo) (e : Engine) : Engine :=
  {| score := score e; steps := steps e; cols := cols e; rows := rows e;
     configInitialTime := configInitialTime e;
     leftDisorderTime := leftDisorderTime e;
     autoDisorderEnabled := autoDisorderEnabled e; isAnimating := isAnimating e;
     selectedCell := v; count := count e; remain := remain e;
     preClickInfo := preClickInfo e; leftTime := leftTime e; timer := timer e;
     timerRunning := timerRunning e; targetLetter := targetLetter e;
     onDrawLine := onDrawLine e; board := board e |}.

Definition setCount (v : Z) (e : Engine) : Engine :=
  {| score := score e; steps := steps e; cols := cols e; rows := rows e;
     configInitialTime := configInitialTime e;
     leftDisorderTime := leftDisorderTime e;
     autoDisorderEnabled := autoDisorderEnabled e; isAnimating := isAnimating e;
     selectedCell := selectedCell e; count := v; remain := remain e;
     preClickInfo := preClickInfo e; leftTime := leftTime e; timer := timer e;
     timerRunning := timerRunning e; targetLetter := targetLetter e;
     onDrawLine := onDrawLine e; board := board e |}.

Definition setRemain (v : Z) (e : Engine) : Engine :=
  {| score := score e; steps := steps e; cols := cols e; rows := rows e;
     configInitialTime := configInitialTime e;
     leftDisorderTime := leftDisorderTime e;
     autoDisorderEnabled := autoDisorderEnabled e; isAnimating := isAnimating e;
     selectedCell := selectedCell e; count := count e; remain := v;
     preClickInfo := preClickInfo e; leftTime := leftTime e; timer := timer e;
     timerRunning := timerRunning e; targetLetter := targetLetter e;
     onDrawLine := onDrawLine e; board := board e |}.

Definition setPreClickInfo (v : option ClickInfo) (e : Engine) : Engine :=
  {| score := score e; steps := steps e; cols := cols e; rows := rows e;
     configInitialTime := configInitialTime e;
     leftDisorderTime := leftDisorderTime e;
     autoDisorderEnabled := autoDisorderEnabled e; isAnimating := isAnimating e;
     selectedCell := selectedCell e; count := count e; remain := remain e;
     preClickInfo := v; leftTime := leftTime e; timer := timer e;
     timerRunning := timerRunning e; targetLetter := targetLetter e;
     onDrawLine := onDrawLine e; board := board e |}.

Definition setLeftTime (v : Z) (e : Engine) : Engine :=
  {| score := score e; steps := steps e; cols := cols e; rows := rows e;
     configInitialTime := configInitialTime e;
     leftDisorderTime := leftDisorderTime e;
     autoDisorderEnabled := autoDisorderEnabled e; isAnimating := isAnimating e;
     selectedCell := selectedCell e; count := count e; remain := remain e;
     preClickInfo := preClickInfo e; leftTime := v; timer := timer e;
     timerRunning := timerRunning e; targetLetter := targetLetter e;
     onDrawLine := onDrawLine e; board := board e |}.

Definition setTimer (v : bool) (e : Engine) : Engine :=
  {| score := score e; steps := steps e; cols := cols e; rows := rows e;
     configInitialTime := configInitialTime e;
     leftDisorderTime := leftDisorderTime e;
     autoDisorderEnabled := autoDisorderEnabled e; isAnimating := isAnimating e;
     selectedCell := selectedCell e; count := count e; remain := remain e;
     preClickInfo := preClickInfo e; leftTime := leftTime e; timer := v;
     timerRunning := timerRunning e; targetLetter := targetLetter e;
     onDrawLine := onDrawLine e; board := board e |}.

Definition setTimerRunning (v : bool) (e : Engine) : Engine :=
  {| score := score e; steps := steps e; cols := cols e; rows := rows e;
     configInitialTime := configInitialTime e;
     leftDisorderTime := leftDisorderTime e;
     autoDisorderEnabled := autoDisorderEnabled e; isAnimating := isAnimating e;
     selectedCell := selectedCell e; count := count e; remain := remain e;
     preClickInfo := preClickInfo e; leftTime := leftTime e; timer := timer e;
     timerRunning := v; targetLetter := targetLetter e; onDrawLine := onDrawLine e;
     board := board e |}.

Definition setTarget (v : string) (e : Engine) : Engine :=
  {| score := score e; steps := steps e; cols := cols e; rows := rows e;
     configInitialTime := configInitialTime e;
     leftDisorderTime := leftDisorderTime e;
     autoDisorderEnabled := autoDisorderEnabled e; isAnimating := isAnimating e;
     selectedCell := selectedCell e; count := count e; remain := remain e;
     preClickInfo := preClickInfo e; leftTime := leftTime e; timer := timer e;
     timerRunning := timerRunning e; targetLetter := v; onDrawLine := onDrawLine e;
     board := board e |}.

Definition setOnDrawLine (v : bool) (e : Engine) : Engine :=
  {| score := score e; steps := steps e; cols := cols e; rows := rows e;
     configInitialTime := configInitialTime e;
     leftDisorderTime := leftDisorderTime e;
     autoDisorderEnabled := autoDisorderEnabled e; isAnimating := isAnimating e;
     selectedCell := selectedCell e; count := count e; remain := remain e;
     preClickInfo := preClickInfo e; leftTime := leftTime e; timer := timer e;
     timerRunning := timerRunning e; targetLetter := targetLetter e; onDrawLine := v;
     board := board e |}.

Definition setBoard (v : Board) (e : Engine) : Engine :=
  {| score := score e; steps := steps e; cols := cols e; rows := rows e;
     configInitialTime := configInitialTime e;
     leftDisorderTime := leftDisorderTime e;
     autoDisorderEnabled := autoDisorderEnabled e; isAnimating := isAnimating e;
     selectedCell := selectedCell e; count := count e; remain := remain e;
     preClickInfo := preClickInfo e; leftTime := leftTime e; timer := timer e;
     timerRunning := timerRunning e; targetLetter := targetLetter e;
     onDrawLine := onDrawLine e; board := v |}.

(** [new LinkGameEngine(config)]: [config.cols || 10] and the like, with the
    tape of [Math.random] the session will see. *)
Definition orDefault (v : option Z) (d : Z) : Z :=
  match v with
  | Some n => if n =? 0 then d else n
  | None => d
  end.

Definition newEngine (configCols configRows configTime : option Z) (tape : list nat)
    : Engine :=
  {| score := 0; steps := 0; cols := orDefault configCols 10;
     rows := orDefault configRows 8; configInitialTime := orDefault configTime 1000;
     leftDisorderTime := 5; autoDisorderEnabled := true; isAnimating := false;
     selectedCell := None; count := 0; remain := 0; preClickInfo := None; leftTime := 0;
     timer := false; timerRunning := false; targetLetter := "A"; onDrawLine := false;
     board := {| pictures := []; points := []; random := tape; log := [] |} |}.

(** A method of the board run on the engine's board. *)
Definition onBoard {A : Type} (m : M Board A) : M Engine A :=
  λ e, match m (board e) with
       | Some (a, b) => Some (a, setBoard b e)
       | None => None
       end.

Definition notify (ev : Event) : M Engine unit := onBoard (emit ev).

Definition setTargetLetter (letter : string) : M Engine unit :=
  modify (setTarget (toUpperCase letter)).

Definition setSelectedCell (cellInfo : option ClickInfo) : M Engine unit :=
  modify (setSelected cellInfo);;
  notify (SelectedCellChange cellInfo).

Definition updateScore : M Engine unit :=
  s ← gets score;
  notify (ScoreUpdate s).

(** [clearInterval(this.timer)] when a handle is there. *)
Definition clearTimer : M Engine unit :=
  t ← gets timer;
  when t (modify (setTimerRunning false)).

Definition gameOver (kind : GameOverType) : M Engine unit :=
  clearTimer;;
  s ← gets score;
  notify (GameOver kind s).

Definition updateCountDown : M Engine unit :=
  modify (λ e, setLeftTime (leftTime e - 1) e);;
  t ← gets leftTime;
  notify (TimeUpdate t);;
  when (t <=? 0) (gameOver TimeExceeded).

Definition init : M Engine unit :=
  modify (λ e, setCount ((rows e - 2) * (cols e - 2)) e);;
  modify (setRemain 0);;
  onBoard (modify (setPictures []));;
  modify (setPreClickInfo None);;
  modify (λ e, setLeftTime (configInitialTime e) e);;
  onBoard (modify (setPoints []));;
  modify (setIsAnimating false);;
  setSelectedCell None;;
  clearTimer;;
  modify (setTimer true);;
  modify (setTimerRunning true);;
  e ← gets id;
  onBoard (createMap (cols e) (rows e) (targetLetter e));;
  onBoard (disorder (cols e) (rows e) (targetLetter e));;
  g ← gets (λ e, pictures (board e));
  modify (setRemain (getActualLetterCount (cols e) (rows e) g));;
  updateScore.

Definition reset : M Engine unit := init.

Definition startGame : M Engine unit := init.

Definition restartGame : M Engine unit :=
  modify (setScore 0);;
  modify (setSteps 0);;
  modify (setLeftDisorderTime 5);;
  setSelectedCell None;;
  reset;;
  s ← gets score;
  notify (ScoreUpdate s);;
  n ← gets steps;
  notify (StepUpdate n).

Definition handleDisorder : M Engine bool :=
  e ← gets id;
  if leftDisorderTime e >? 0 then
    modify (setLeftDisorderTime (leftDisorderTime e - 1));;
    onBoard (disorder (cols e) (rows e) (targetLetter e));;
    mret true
  else mret false.

Definition checkCurrentDeadlock : M Engine bool :=
  e ← gets id;
  availablePairs ← onBoard (getAvailableMatches (cols e) (rows e));
  mret ((length availablePairs =? 0)%nat && (remain e >? 0)).

Definition letterCell (g : Grid) (p : Position) : LetterCell :=
  (p.1, p.2, from_option pic "" (getCell g p.1 p.2)).

Definition showHint : M Engine unit :=
  e ← gets id;
  availableMatches ← onBoard (getAvailableMatches (cols e) (rows e));
  match availableMatches with
  | hintMatch :: _ =>
      let g := pictures (board e) in
      notify (Hint [letterCell g hintMatch.1; letterCell g hintMatch.2])
  | [] => mret tt
  end.

Definition clearHint : M Engine unit := notify (Hint []).

Definition autoDisorder : M Engine bool :=
  e ← gets id;
  if negb (autoDisorderEnabled e) || (leftDisorderTime e <=? 0) then mret false
  else
    notify (Console "deadlock detected, reshuffling");;
    notify (Toast "deadlock detected, reshuffling");;
    modify (setLeftDisorderTime (leftDisorderTime e - 1));;
    onBoard (disorder (cols e) (rows e) (targetLetter e));;
    mret true.

Definition updateSteps : M Engine unit :=
  modify (λ e, setSteps (steps e + 1) e);;
  n ← gets steps;
  notify (StepUpdate n);;
  deadlock ← checkCurrentDeadlock;
  when deadlock
    (reshuffled ← autoDisorder;
     when (negb reshuffled) (notify (Console "deadlock, please reshuffle")));;
  e ← gets id;
  when ((steps e =? 5) && (remain e >? 0)) showHint;;
  when (steps e >=? 6)
    (if remain e >? 0 then gameOver StepsExceeded else gameOver Normal).

Definition addShakeEffect (cells : list LetterCell) : M Engine unit :=
  notify (ShakeEffect cells).

(** [pictures[r][c]] read for one of its fields: raises outside the grid. *)
Definition readCell (r c : Z) : M Engine CellInfo :=
  λ e, match getCell (pictures (board e)) r c with
       | Some cell => Some (cell, e)
       | None => None
       end.

Definition updateStatus (preRow preCol curRow curCol preIndex curIndex : Z)
    : M Engine unit :=
  pre ← readCell preRow preCol;
  cur ← readCell curRow curCol;
  e ← gets id;
  when (String.eqb (toUpperCase (pic pre)) (targetLetter e)
        || String.eqb (toUpperCase (pic cur)) (targetLetter e))
    (notify TargetLetterEliminated);;
  onBoard (modify (λ b, setPictures (updCell (pictures b) preRow preCol markEmpty) b));;
  onBoard (modify (λ b, setPictures (updCell (pictures b) curRow curCol markEmpty) b));;
  when (remain e <=? 0) (gameOver Normal).

(** Calling one of the arrow functions given to [drawLine]. *)
Definition invoke (cb : Callback) : M Engine unit :=
  match cb with
  | MatchSuccess preRow preCol curRow curCol preIndex curIndex =>
      updateStatus preRow preCol curRow curCol preIndex curIndex;;
      e ← gets id;
      onBoard (renderMap (cols e) (rows e));;
      updateScore;;
      updateSteps;;
      modify (setIsAnimating false)
  | MatchRejected =>
      modify (setPreClickInfo None);;
      setSelectedCell None;;
      modify (setIsAnimating false);;
      updateSteps;;
      addShakeEffect []
  | Noop => mret tt
  end.

(** [drawLine(points, onSuccess, onError)]: a set [onDrawLine] receives the
    points and the two functions, to call one of them later; without it
    [onSuccess] is called on the spot. *)
Definition drawLine (pts : list Point) (onSuccess onError : Callback) : M Engine unit :=
  setSelectedCell None;;
  e ← gets id;
  if onDrawLine e then notify (DrawLine pts onSuccess onError)
  else invoke onSuccess.

Definition sameCell (selected : option ClickInfo) (r c : Z) : bool :=
  match selected with
  | Some s => (row s =? r) && (col s =? c)
  | None => false
  end.

(** [canCleanup] as a method: it leaves the points in [this.points]. *)
Definition canCleanupM (x1 y1 x2 y2 : Z) : M Engine bool :=
  e ← gets id;
  let path := canCleanup (cols e) (rows e) (pictures (board e)) x1 y1 x2 y2 in
  onBoard (modify (setPoints (default [] path)));;
  mret (bool_decide (is_Some path)).

Definition checkMatch (curClickInfo : ClickInfo) : M Engine unit :=
  let curRow := row curClickInfo in
  let curCol := col curClickInfo in
  let curIndex := clickIndex curClickInfo in
  cur ← readCell curRow curCol;
  if isEmpty cur then mret tt
  else
    e ← gets id;
    if sameCell (selectedCell e) curRow curCol then
      setSelectedCell None;;
      modify (setPreClickInfo None)
    else
      match preClickInfo e with
      | None =>
          modify (setPreClickInfo (Some (mkClick curRow curCol curIndex)));;
          setSelectedCell (Some curClickInfo)
      | Some (mkClick preRow preCol preIndex) =>
          pre ← readCell preRow preCol;
          if isMatch (pic pre) (pic cur) then
            connected ← canCleanupM preCol preRow curCol curRow;
            if (connected : bool) then
              modify (λ e, setScore (score e + 100) e);;
              modify (λ e, setRemain (remain e - 2) e);;
              modify (setIsAnimating true);;
              notify (AnimationStart [(preRow, preCol); (curRow, curCol)]);;
              pts ← gets (λ e, points (board e));
              drawLine pts
                (MatchSuccess preRow preCol curRow curCol preIndex curIndex) Noop;;
              modify (setPreClickInfo None);;
              setSelectedCell None
            else
              modify (setIsAnimating true);;
              addShakeEffect [(preRow, preCol, pic pre); (curRow, curCol, pic cur)];;
              drawLine [] Noop MatchRejected
          else
            modify (setPreClickInfo (Some (mkClick curRow curCol curIndex)));;
            setSelectedCell (Some curClickInfo)
      end.

Definition handleCellClick (r c i : Z) : M Engine unit :=
  e ← gets id;
  if remain e <=? 0 then mret tt
  else if isAnimating e then mret tt
  else clearHint;; checkMatch (mkClick r c i).

Definition destroy : M Engine unit := clearTimer.

(** A tick of the interval set by [init]: nothing once it is cleared. *)
Definition tick : M Engine unit :=
  running ← gets timerRunning;
  when running updateCountDown.

(** What the host can do with a session. *)
Inductive Action : Type :=
  | Click (r c i : Z)
  | Acknowledge (cb : Callback)
  | Tick
  | Reshuffle
  | Start
  | Restart
  | SetTarget (letter : string)
  | Destroy.

Definition perform (a : Action) : M Engine unit :=
  match a with
  | Click r c i => handleCellClick r c i
  | Acknowledge cb => invoke cb
  | Tick => tick
  | Reshuffle => handleDisorder;; mret tt
  | Start => startGame
  | Restart => restartGame
  | SetTarget letter => setTargetLetter letter
  | Destroy => destroy
  end.

(** The session after the actions, when none of them raises. *)
Fixpoint performAll (actions : list Action) (e : Engine) : option Engine :=
  match actions with
  | [] => Some e
  | a :: actions' =>
      match perform a e with
      | Some (_, e') => performAll actions' e'
      | None => None
      end
  end.

(** * The vocabulary of the properties *)

(** A path with two turns whose middle part runs down column [i]. *)
Definition viaColumn (cols : Z) (g : Grid) (x1 y1 x2 y2 i : Z) : Prop :=
  0 ≤ i < cols ∧ i ≠ x1
  ∧ (∀ k, Z.min x1 i ≤ k ≤ Z.max x1 i → k ≠ x1 → cellIsEmpty g y1 k = true)
  ∧ isColEmpty g i y1 i y2 = true
  ∧ isRowEmpty g i y2 x2 y2 = true
  ∧ cellIsEmpty g y2 i = true.

(** A path with two turns whose middle part runs along row [i]. *)
Definition viaRow (rows : Z) (g : Grid) (x1 y1 x2 y2 i : Z) : Prop :=
  0 ≤ i < rows ∧ i ≠ y1
  ∧ (∀ k, Z.min y1 i ≤ k ≤ Z.max y1 i → k ≠ y1 → cellIsEmpty g k x1 = true)
  ∧ isRowEmpty g x1 i x2 i = true
  ∧ isColEmpty g x2 i x2 y2 = true
  ∧ cellIsEmpty g i x2 = true.

(** The live grid and the reference [this.pictures] are as before. *)
Definition sameFrame (h h' : SolverHeap) : Prop :=
  liveGrid h' = liveGrid h ∧ thisPictures h' = thisPictures h.

(** Two heaps with the same test map. *)
Definition sameTest (h h' : SolverHeap) : Prop := testMap h = testMap h'.

(** Two runs of the search with the same verdict and the same test map. *)
Definition agree (r r' : bool * SolverHeap) : Prop :=
  r.1 = r'.1 ∧ sameTest r.2 r'.2.

(** The verdict of [isSolvable] on a grid. *)
Definition solvable (cols rows : Z) (g : Grid) : bool :=
  (isSolvableHeap cols rows g []).1.

(** [index !== i && index !== j]. *)
Definition dropTwo (i j : nat) : nat → bool :=
  λ k, negb (k =? i)%nat && negb (k =? j)%nat.

(** The cells of [pairs], each pair as two neighbours in a row. *)
Definition neighbours (c1 c2 : SolverCell) : Prop :=
  isMatch (sPic c1) (sPic c2) = true ∧ sRow c2 = sRow c1 ∧ sCol c2 = sCol c1 + 1.

(** The two components of every pair, in order. *)
Definition unpair {A} (l : list (A * A)) : list A :=
  flat_map (λ p, [p.1; p.2]) l.

(** The target letter is none, or a letter: one character whose two cases
    differ. *)
Definition pairable (targetLetter : string) : Prop :=
  targetLetter = ""
  ∨ (String.length targetLetter = 1%nat
     ∧ toLowerCase targetLetter ≠ toUpperCase targetLetter).

(** The key of a pair in [letterMap]. *)
Definition pairKey (p : string * string) : string := toLowerCase p.1.

(** An inventory of pairs: the two letters of a pair differ in case only,
    and no letter is used for two pairs. *)
Definition inventory (ps : list (string * string)) : Prop :=
  Forall (λ p, isMatch p.1 p.2 = true) ps ∧ NoDup (map pairKey ps).

(** A grid of [rows] rows of [cols] cells. *)
Definition gridShape (cols rows : Z) (g : Grid) : Prop :=
  length g = Z.to_nat rows ∧ Forall (λ cells, length cells = Z.to_nat cols) g.

(** The cell is in the first or last row or column. *)
Definition onBorder (cols rows y x : Z) : Prop :=
  y = 0 ∨ y = rows - 1 ∨ x = 0 ∨ x = cols - 1.

(** The position is in the play area. *)
Definition inPlay (cols rows : Z) (p : Position) : Prop :=
  1 ≤ p.1 ≤ rows - 2 ∧ 1 ≤ p.2 ≤ cols - 2.

(** Every cell of the border is there and is the empty cell that
    [initializeEmptyMap] put there. *)
Definition borderEmpty (cols rows : Z) (g : Grid) : Prop :=
  ∀ y x, 0 ≤ y < rows → 0 ≤ x < cols → onBorder cols rows y x →
         getCell g y x = Some emptyCell.

(** The grid has its shape and an empty border. *)
Definition gridOK (cols rows : Z) (g : Grid) : Prop :=
  gridShape cols rows g ∧ borderEmpty cols rows g.

(** The grid of the board has its shape and an empty border. *)
Definition boardOK (cols rows : Z) (b : Board) : Prop :=
  gridOK cols rows (pictures b).

(** The grid that [initializeEmptyMap] builds. *)
Definition emptyMap (cols rows : Z) : Grid :=
  replicate (Z.to_nat rows) (replicate (Z.to_nat cols) emptyCell).

(** From a state in [P], a run of [m] that returns ends in [Q]. *)
Definition hoare {S A : Type} (P : S → Prop) (m : M S A) (Q : A → S → Prop) : Prop :=
  ∀ s a s', P s → m s = Some (a, s') → Q a s'.

(** [m] keeps [I]; [m] makes [I] from any state. *)
Definition keeps {S A : Type} (I : S → Prop) (m : M S A) : Prop :=
  hoare I m (λ _, I).

Definition makes {S A : Type} (I : S → Prop) (m : M S A) : Prop :=
  hoare (λ _, True) m (λ _, I).

(** A method of the board that leaves the grid alone. *)
Definition keepsPictures {A : Type} (m : M Board A) : Prop :=
  ∀ b a b', m b = Some (a, b') → pictures b' = pictures b.

(** The configuration stays, and the grid is in order. *)
Definition engineOK (c r : Z) (e : Engine) : Prop :=
  cols e = c ∧ rows e = r ∧ gridOK c r (pictures (board e)).

(** The configuration is [c] columns and [r] rows. *)
Definition configured (c r : Z) (e : Engine) : Prop := cols e = c ∧ rows e = r.

(** [m] does not change what [π] reads of the engine. *)
Definition frames {X A : Type} (π : Engine → X) (m : M Engine A) : Prop :=
  ∀ e a e', m e = Some (a, e') → π e' = π e.

(** The grid of the session. *)
Definition grid (e : Engine) : Grid := pictures (board e).

(** The state in which a click is the second click of a pair: a grid of
    [rows] rows of [cols] cells, the game running and idle, a first pick and
    an occupied cell under the click. *)
Record SecondClick (e : Engine) (r c : Z) (pre cur : CellInfo) (first : ClickInfo)
    : Prop := {
  click_shape : gridShape (cols e) (rows e) (pictures (board e));
  click_playing : 0 < remain e;
  click_idle : isAnimating e = false;
  click_first : preClickInfo e = Some first;
  click_other : sameCell (selectedCell e) r c = false;
  click_cur : getCell (pictures (board e)) r c = Some cur;
  click_occupied : isEmpty cur = false;
  click_pre : getCell (pictures (board e)) (row first) (col first) = Some pre
}.

(** The grid after the cells of [ws] are written, in order. *)
Definition writeAll (ws : list (Position * CellInfo)) (g : Grid) : Grid :=
  foldl (λ g w, setCell g w.1.1 w.1.2 w.2) g ws.

(** Reading order: row by row, left to right. *)
Definition posLt (p q : Position) : Prop := p.1 < q.1 ∨ (p.1 = q.1 ∧ p.2 < q.2).

(** The letter written by [w]. *)
Abbreviation picOf := (λ w : Position * CellInfo, pic w.2).

(** [w] writes an occupied cell. *)
Definition occupiedCell (w : Position * CellInfo) : Prop := isEmpty w.2 = false.

(** The letter at [p]. *)
Definition picAt (g : Grid) (p : Position) : string :=
  from_option pic "" (getCell g p.1 p.2).

(** The occupied cells whose letter is the case-opposite of the letter at [p]. *)
Definition partners (cols rows : Z) (g : Grid) (p : Position) : list Position :=
  filter (λ q, isMatch (picAt g p) (picAt g q) = true) (occupiedPositions cols rows g).

(** Every occupied cell has exactly one partner. *)
Definition pairConserved (cols rows : Z) (g : Grid) : Prop :=
  Forall (λ p, length (partners cols rows g p) = 1%nat) (occupiedPositions cols rows g).

(** The two cells that the template fills from the slot [p]. *)
Definition slotPair (p : Position) : Position * Position := (p, (p.1, p.2 + 1)).

(** Reading order of slots, two columns apart in a row. *)
Definition slotLt (p q : Position) : Prop := p.1 < q.1 ∨ (p.1 = q.1 ∧ p.2 + 1 < q.2).

(** The entry of [cells] for [w]. *)
Definition solverCellOf (w : Position * CellInfo) : SolverCell :=
  {| sRow := w.1.1; sCol := w.1.2; sPic := pic w.2 |}.


(** The same cells are empty in [g'] as in [g]. *)
Definition sameCells (g g' : Grid) : Prop :=
  ∀ y x, cellIsEmpty g' y x = cellIsEmpty g y x.

(** A reshuffle of the grid [g] can use up its 200 attempts: [disorder] then
    builds a new map. *)
Definition reshuffleExhausted (cols rows : Z) (g : Grid) : Prop :=
  ∃ b attempts b', pictures b = g
                   ∧ disorderLoop cols rows 200 0 b = Some (attempts, b')
                   ∧ 200 ≤ attempts.

(** The size of the grid, which no method changes. *)
Definition config (e : Engine) : Z * Z := (cols e, rows e).

(** ** Sessions to run

    Outcomes of [Math.random] for the sessions below. *)
Definition demoTape : list nat := map (λ k, (k * 7 + 3) mod 53)%nat (seq 0 400).

(** The game page: four columns by three rows of letters, 120 seconds, and
    a listener on [onDrawLine]. *)
Definition demoEngine : Engine :=
  setOnDrawLine true (newEngine (Some 6) (Some 5) (Some 120) demoTape).

(** The session after [startGame]: the grid reads
    [k A a D], [r f d F], [Y K y R]. *)
Definition demoStarted : Engine :=
  Eval vm_compute in from_option id demoEngine (performAll [Start] demoEngine).

(** Its grid. *)
Definition demoGrid : Grid := Eval vm_compute in pictures (board demoStarted).

(** The cell at row [r], column [c]. *)
Definition cellAt (g : Grid) (r c : Z) : CellInfo := default emptyCell (getCell g r c).

(** The board of the new engine, and after [createMap] and
    [generateRandomMap]. *)
Definition demoBoard : Board := board demoEngine.

Definition demoGenerated : Board :=
  Eval vm_compute in from_option snd demoBoard (createMap 6 5 "A" demoBoard).


(** A play area of two cells and one second on the clock, no listener. *)
Definition shortEngine : Engine := newEngine (Some 4) (Some 3) (Some 1) demoTape.

(** The kinds of the game-over reports among the events. *)
Definition gameOverReports (events : list Event) : list GameOverType :=
  omap (λ ev, match ev with GameOver kind _ => Some kind | _ => None end) events.

(** The clicks on the cells [(row, col, index)] of the list. *)
Definition clicks (cells : list (Z * Z * Z)) : list Action :=
  map (λ k, Click k.1.1 k.1.2 k.2) cells.

(** After the first pick of [A] at (1, 2), and of [k] at (1, 1). *)
Definition demoPickedA : Engine :=
  Eval vm_compute in from_option id demoStarted (performAll [Click 1 2 0] demoStarted).

Definition demoPickedK : Engine :=
  Eval vm_compute in from_option id demoStarted (performAll [Click 1 1 0] demoStarted).

(** The same with no listener on [onDrawLine]. *)
Definition deafPickedK : Engine := setOnDrawLine false demoPickedK.

(** After the second click on [a] at (1, 3), and after the acknowledgment. *)
Definition demoMatched : Engine :=
  Eval vm_compute in from_option id demoPickedA (performAll [Click 1 3 0] demoPickedA).

Definition demoCleared : Engine :=
  Eval vm_compute in
    from_option id demoMatched
      (performAll [Acknowledge (MatchSuccess 1 2 1 3 0 0)] demoMatched).

(** After a reshuffle by the player. *)
Definition demoUsed : Engine :=
  Eval vm_compute in from_option id demoCleared (performAll [Reshuffle] demoCleared).

(** The short game after its start and one tick; then after two clicks. *)
Definition shortOver : Engine :=
  Eval vm_compute in from_option id shortEngine (performAll [Start; Tick] shortEngine).

(** [startGame] and [restartGame] after play. *)
Definition demoStartedAgain : Engine :=
  Eval vm_compute in from_option id demoUsed (performAll [Start] demoUsed).

Definition demoRestarted : Engine :=
  Eval vm_compute in from_option id demoUsed (performAll [Restart] demoUsed).

(** After the second click on [K] at (3, 2), which [k] cannot reach. *)
Definition deafRejected : Engine :=
  Eval vm_compute in from_option id deafPickedK (performAll [Click 3 2 0] deafPickedK).

Definition shortDone : Engine :=
  Eval vm_compute in
    from_option id shortOver (performAll [Click 1 1 0; Click 1 2 0] shortOver).

(** The cells strictly between [p] and [q] are empty, and the two lie on one
    row or one column: the test the source makes with [isRowEmpty] and
    [isColEmpty]. *)
Definition segmentClear (g : Grid) (p q : Point) : bool :=
  isRowEmpty g p.1 p.2 q.1 q.2 || isColEmpty g p.1 p.2 q.1 q.2.

Fixpoint segmentsClear (g : Grid) (pts : list Point) : bool :=
  match pts with
  | [] => true
  | p :: rest =>
      match rest with
      | [] => true
      | q :: _ => segmentClear g p q && segmentsClear g rest
      end
  end.

(** The points of a path but its two ends. *)
Definition corners (pts : list Point) : list Point := removelast (tail pts).

(** A path from [a] to [b] with at most two corners, through empty cells. *)
Definition linkPath (g : Grid) (a b : Point) (pts : list Point) : Prop :=
  head pts = Some a ∧ last pts = Some b
  ∧ (2 ≤ length pts ≤ 4)%nat
  ∧ segmentsClear g pts = true
  ∧ forallb (λ c, cellIsEmpty g c.2 c.1) (corners pts) = true.



(** The grid after the two cells at [p] and [q] have been cleared, as
    [updateStatus] and the search of [backtrackSolve] do it. *)
Definition clearPair (g : Grid) (p q : Position) : Grid :=
  updCell (updCell g p.1 p.2 markEmpty) q.1 q.2 markEmpty.

(** A move of the game on [g]: two occupied cells of the play area with
    matching letters that [canCleanup] links. *)
Definition legalMove (cols rows : Z) (g : Grid) (p q : Position) : Prop :=
  p ∈ occupiedPositions cols rows g ∧ q ∈ occupiedPositions cols rows g
  ∧ isMatch (picAt g p) (picAt g q) = true
  ∧ is_Some (canCleanup cols rows g p.2 p.1 q.2 q.1).

(** The board can be cleared: some sequence of moves of the game leaves the
    play area empty. *)
Inductive clearable (cols rows : Z) : Grid → Prop :=
  | clearable_done g :
      occupiedPositions cols rows g = [] → clearable cols rows g
  | clearable_step g p q :
      legalMove cols rows g p q →
      clearable cols rows (clearPair g p q) →
      clearable cols rows g.

(** The pair of cells number [i] and [j] is a move after which the board
    can be cleared. *)
Definition goodPair (cols rows : Z) (T : Grid) (ij : nat * nat) : Prop :=
  ∃ p q, occupiedPositions cols rows T !! ij.1 = Some p
         ∧ occupiedPositions cols rows T !! ij.2 = Some q
         ∧ isMatch (picAt T p) (picAt T q) = true
         ∧ is_Some (canCleanup cols rows T p.2 p.1 q.2 q.1)
         ∧ clearable cols rows (clearPair T p q).

(** The search from the heap [h] is right about its test map, and puts the
    test map back when it fails. *)
Definition searched (cols rows : Z) (fuel : nat) (h : SolverHeap) : Prop :=
  let r := backtrackSolve fuel cols rows h (solverCells cols rows (testMap h)) in
  (r.1 = true ↔ clearable cols rows (testMap h))
  ∧ (r.1 = false → testMap r.2 = testMap h).

(** The letters on the board, in reading order. *)
Definition lettersOf (cols rows : Z) (g : Grid) : list string :=
  map (picAt g) (occupiedPositions cols rows g).



(** The credits for a reshuffle are between zero and five. *)
Definition creditsOK (e : Engine) : Prop := 0 ≤ leftDisorderTime e ≤ 5.

(** The score and the letters left, weighed against each other. *)
Definition scoreOK (v : Z) (e : Engine) : Prop := score e + 50 * remain e = v.

(** The time left is within the time of the configuration, and the interval
    runs only while time is left. *)
Definition timeOK (e : Engine) : Prop :=
  0 ≤ leftTime e ≤ configInitialTime e
  ∧ 0 < configInitialTime e
  ∧ (timerRunning e = true → timer e = true ∧ 0 < leftTime e).

(** The engine after the listeners were handed [events], one by one. *)
Definition heard (events : list Event) (e : Engine) : Engine :=
  setBoard (foldl (λ b ev, addLog ev b) (board e) events) e.

(** Every letter of the list has exactly one case-opposite in the list. *)
Definition paired (letters : list string) : Prop :=
  Forall (λ a, length (filter (λ b, isMatch a b = true) letters) = 1%nat) letters.

(** The game-over reports handed out so far are [R]. *)
Definition reported (R : list GameOverType) (b : Board) : Prop :=
  gameOverReports (log b) = R.

(** An event that is no game-over report. *)
Definition quietEvent (ev : Event) : Prop :=
  match ev with
  | GameOver _ _ => False
  | _ => True
  end.

(** The reports so far, with the counters that decide the next ones. *)
Definition tally (R : list GameOverType) (n r s : Z) (e : Engine) : Prop :=
  reported R (board e) ∧ steps e = n ∧ remain e = r ∧ score e = s.

(** What [updateSteps] reports when it counts step [n + 1] with [r] letters
    left. *)
Definition stepReport (n r : Z) : list GameOverType :=
  if 5 <=? n then [if 0 <? r then StepsExceeded else Normal] else [].

(** What the acknowledgement [cb] reports at step [n + 1] with [r] letters
    left: the end of a cleared board, then the end by the count of steps. *)
Definition ackReports (cb : Callback) (n r : Z) : list GameOverType :=
  match cb with
  | MatchSuccess _ _ _ _ _ _ => (if r <=? 0 then [Normal] else []) ++ stepReport n r
  | MatchRejected => stepReport n r
  | Noop => []
  end.

(** Both cases of the letter [t] are on the board. *)
Definition targetOn (cols rows : Z) (t : string) (g : Grid) : Prop :=
  toLowerCase t ∈ lettersOf cols rows g ∧ toUpperCase t ∈ lettersOf cols rows g.

(** The interval runs only when its handle is kept. *)
Definition ticking (e : Engine) : Prop := timerRunning e = true → timer e = true.

(** The generated board after its check, and the started board after a
    reshuffle from the border inwards. *)
Definition demoChecked : Board :=
  Eval vm_compute in from_option snd demoGenerated (isSolvable 6 5 demoGenerated).

Definition demoShuffled : Board :=
  Eval vm_compute in
    from_option snd (board demoStarted) (smartDisorderEdgeFirst 6 5 (board demoStarted)).


Definition shortStarted : Engine :=
  Eval vm_compute in from_option id shortEngine (performAll [Start] shortEngine).

(** * Connectivity *)

(** *** Loops *)

Lemma is_Some_orElse {A} (a b : option A) :
  is_Some (orElse a b) ↔ is_Some a ∨ is_Some b.
Proof.
  destruct a; simpl; split; eauto.
  - intros [[? [=]]|]; done.
Qed.

Lemma whileLoop_Some {A} fuel cond body next i (a : A) :
  whileLoop fuel cond body next i = Some a ↔
  ∃ n, (n < fuel)%nat
       ∧ (∀ k, (k < n)%nat →
               cond (Nat.iter k next i) = true ∧ body (Nat.iter k next i) = Continue)
       ∧ cond (Nat.iter n next i) = true
       ∧ body (Nat.iter n next i) = Return a.
Proof.
  revert i. induction fuel as [|fuel IH]; intros i; simpl.
  { split; [done | intros (n & ? & _); lia]. }
  split.
  - destruct (cond i) eqn:Hc; [|done].
    destruct (body i) eqn:Hb; [|done|].
    + intros (n & Hn & Hk & Hc' & Hb')%IH. exists (S n).
      rewrite Nat.iter_succ_r. split_and!; [lia| |done..].
      intros [|k] Hlt; [done|]. rewrite Nat.iter_succ_r. apply Hk. lia.
    + intros [= ->]. exists 0%nat. split_and!; [lia| |done..]. intros; lia.
  - intros (n & Hn & Hk & Hc & Hb). destruct n as [|n].
    + cbn in Hc, Hb. by rewrite Hc, Hb.
    + destruct (Hk 0%nat) as [Hc0 Hb0]; [lia|]. cbn in Hc0, Hb0. rewrite Hc0, Hb0.
      apply IH. exists n. rewrite !Nat.iter_succ_r in *. split_and!; [lia| |done..].
      intros k Hlt. specialize (Hk (S k)). rewrite Nat.iter_succ_r in Hk. apply Hk. lia.
Qed.

Lemma iter_add d s k : Nat.iter k (λ i, i + d) s = s + d * Z.of_nat k.
Proof. induction k as [|k IH]; [simpl; lia|]. rewrite Nat.iter_succ, IH. lia. Qed.

Lemma iter_succ s k : Nat.iter k Z.succ s = s + Z.of_nat k.
Proof. induction k as [|k IH]; [simpl; lia|]. rewrite Nat.iter_succ, IH. lia. Qed.

(** *** Runs of empty cells *)

Lemma forallb_seqZ (f : Z → bool) m n :
  forallb f (seqZ m n) = true ↔ ∀ k, m ≤ k < m + n → f k = true.
Proof.
  rewrite <-Is_true_true, forallb_True, Forall_seqZ.
  by setoid_rewrite Is_true_true.
Qed.

Lemma isRowEmpty_spec g x1 y1 x2 y2 :
  isRowEmpty g x1 y1 x2 y2 = true ↔
  y1 = y2 ∧ ∀ k, Z.min x1 x2 < k < Z.max x1 x2 → cellIsEmpty g y1 k = true.
Proof.
  unfold isRowEmpty. destruct (Z.eqb_spec y1 y2) as [->|]; simpl.
  2: { split; [done | intros [? _]; done]. }
  rewrite forallb_seqZ, Z.gtb_ltb.
  destruct (Z.ltb_spec x2 x1); split.
  all: try (intros H0; split; [done|]; intros k Hk; apply H0; lia).
  all: intros [_ H0] k Hk; apply H0; lia.
Qed.

Lemma isColEmpty_spec g x1 y1 x2 y2 :
  isColEmpty g x1 y1 x2 y2 = true ↔
  x1 = x2 ∧ ∀ k, Z.min y1 y2 < k < Z.max y1 y2 → cellIsEmpty g k x1 = true.
Proof.
  unfold isColEmpty. destruct (Z.eqb_spec x1 x2) as [->|]; simpl.
  2: { split; [done | intros [? _]; done]. }
  rewrite forallb_seqZ, Z.gtb_ltb.
  destruct (Z.ltb_spec y2 y1); split.
  all: try (intros H0; split; [done|]; intros k Hk; apply H0; lia).
  all: intros [_ H0] k Hk; apply H0; lia.
Qed.

Lemma isRowEmpty_sym g x1 y1 x2 y2 : isRowEmpty g x1 y1 x2 y2 = isRowEmpty g x2 y2 x1 y1.
Proof.
  apply eq_true_iff_eq. rewrite !isRowEmpty_spec. rewrite (Z.min_comm x2), (Z.max_comm x2).
  split; intros [-> ?]; done.
Qed.

Lemma isColEmpty_sym g x1 y1 x2 y2 : isColEmpty g x1 y1 x2 y2 = isColEmpty g x2 y2 x1 y1.
Proof.
  apply eq_true_iff_eq. rewrite !isColEmpty_spec. rewrite (Z.min_comm y2), (Z.max_comm y2).
  split; intros [-> ?]; done.
Qed.

(** A loop that walks while [R] holds, gives up on a cell that is not [E]
    and returns at the first cell that is [C]: it returns exactly when some
    cell that is [C] can be walked to. *)
Lemma whileLoop_scan {A} fuel (R E C : Z → bool) (ret : Z → A) next i :
  is_Some (whileLoop fuel R
             (λ j, if negb (E j) then Break
                   else if C j then Return (ret j) else Continue) next i) ↔
  ∃ n, (n < fuel)%nat
       ∧ (∀ k, (k ≤ n)%nat →
               R (Nat.iter k next i) = true ∧ E (Nat.iter k next i) = true)
       ∧ C (Nat.iter n next i) = true.
Proof.
  revert i. induction fuel as [|fuel IH]; intros i; simpl.
  { split; [by intros [? [=]] | intros (n & ? & _); lia]. }
  split.
  - destruct (R i) eqn:HR; [|by intros [? [=]]].
    destruct (E i) eqn:HE; simpl; [|by intros [? [=]]].
    destruct (C i) eqn:HC.
    + intros _. exists 0%nat. split_and!; [lia| |done].
      intros k Hk. by replace k with 0%nat by lia.
    + intros (n & Hn & Hk & Hc)%IH. exists (S n).
      rewrite Nat.iter_succ_r. split_and!; [lia| |done].
      intros [|k] Hlt; [done|]. rewrite Nat.iter_succ_r. apply Hk. lia.
  - intros (n & Hn & Hk & Hc).
    destruct (Hk 0%nat) as [HR HE]; [lia|]. cbn in HR, HE. rewrite HR, HE. simpl.
    destruct (C i) eqn:HC; [done|].
    destruct n as [|n]; [cbn in Hc; congruence|].
    apply IH. exists n. rewrite Nat.iter_succ_r in Hc. split_and!; [lia| |done].
    intros k Hlt. specialize (Hk (S k)). rewrite Nat.iter_succ_r in Hk. apply Hk. lia.
Qed.

(** *** The parts of [canCleanup] are symmetric *)

Lemma detourCol_sym cols g x y1 y2 d :
  is_Some (detourCol cols g x y1 x y2 d) ↔ is_Some (detourCol cols g x y2 x y1 d).
Proof.
  unfold detourCol.
  rewrite (whileLoop_scan _ _ (λ i, cellIsEmpty g y2 (x + d * i))
             (λ i, isColEmpty g (x + d * i) y1 (x + d * i) y2)).
  rewrite (whileLoop_scan _ _ (λ i, cellIsEmpty g y1 (x + d * i))
             (λ i, isColEmpty g (x + d * i) y2 (x + d * i) y1)).
  apply exist_proper; intros n. rewrite (isColEmpty_sym g _ y2 _ y1).
  apply and_iff_compat_l, and_iff_compat_r.
  apply forall_proper; intros k. apply forall_proper; intros _.
  rewrite !andb_true_iff. tauto.
Qed.

Lemma detourRow_sym rows g x1 x2 y d :
  is_Some (detourRow rows g x1 y x2 y d) ↔ is_Some (detourRow rows g x2 y x1 y d).
Proof.
  unfold detourRow.
  rewrite (whileLoop_scan _ _ (λ i, cellIsEmpty g (y + d * i) x2)
             (λ i, isRowEmpty g x1 (y + d * i) x2 (y + d * i))).
  rewrite (whileLoop_scan _ _ (λ i, cellIsEmpty g (y + d * i) x1)
             (λ i, isRowEmpty g x2 (y + d * i) x1 (y + d * i))).
  apply exist_proper; intros n. rewrite (isRowEmpty_sym g x2 _ x1 _).
  apply and_iff_compat_l, and_iff_compat_r.
  apply forall_proper; intros k. apply forall_proper; intros _.
  rewrite !andb_true_iff. tauto.
Qed.

Lemma sameColumn_sym cols g x1 y1 x2 y2 :
  is_Some (sameColumn cols g x1 y1 x2 y2) ↔ is_Some (sameColumn cols g x2 y2 x1 y1).
Proof.
  unfold sameColumn. rewrite (Z.eqb_sym x2 x1).
  destruct (Z.eqb_spec x1 x2) as [->|]; [|done].
  replace (Z.abs (y2 - y1)) with (Z.abs (y1 - y2)) by lia.
  destruct (Z.abs (y1 - y2) =? 1); [split; eauto|].
  rewrite (isColEmpty_sym g x2 y2 x2 y1).
  destruct (isColEmpty g x2 y1 x2 y2); [split; eauto|].
  rewrite !is_Some_orElse, !(detourCol_sym cols g x2 y1 y2). done.
Qed.

Lemma sameRow_sym rows g x1 y1 x2 y2 :
  is_Some (sameRow rows g x1 y1 x2 y2) ↔ is_Some (sameRow rows g x2 y2 x1 y1).
Proof.
  unfold sameRow. rewrite (Z.eqb_sym y2 y1).
  destruct (Z.eqb_spec y1 y2) as [->|]; [|done].
  replace (Z.abs (x2 - x1)) with (Z.abs (x1 - x2)) by lia.
  destruct (Z.abs (x1 - x2) =? 1); [split; eauto|].
  rewrite (isRowEmpty_sym g x2 y2 x1 y2).
  destruct (isRowEmpty g x1 y2 x2 y2); [split; eauto|].
  rewrite !is_Some_orElse, !(detourRow_sym rows g x1 x2 y2). done.
Qed.

Lemma oneTurn_sym g x1 y1 x2 y2 :
  is_Some (oneTurn g x1 y1 x2 y2) ↔ is_Some (oneTurn g x2 y2 x1 y1).
Proof.
  unfold oneTurn.
  rewrite (isRowEmpty_sym g x2 y2 x1 y2), (isColEmpty_sym g x1 y2 x1 y1).
  rewrite (isColEmpty_sym g x2 y2 x2 y1), (isRowEmpty_sym g x2 y1 x1 y1).
  destruct (isRowEmpty g x1 y1 x2 y1), (cellIsEmpty g y1 x2), (isColEmpty g x2 y1 x2 y2),
    (isColEmpty g x1 y1 x1 y2), (cellIsEmpty g y2 x1), (isRowEmpty g x1 y2 x2 y2);
    simpl; split; eauto.
Qed.

Lemma turnCol_spec cols g x1 y1 x2 y2 :
  0 ≤ x1 < cols →
  is_Some (turnCol cols g x1 y1 x2 y2 1) ∨ is_Some (turnCol cols g x1 y1 x2 y2 (-1)) ↔
  ∃ i, viaColumn cols g x1 y1 x2 y2 i.
Proof.
  intros Hx. unfold turnCol, viaColumn.
  rewrite !(whileLoop_scan _ _ (cellIsEmpty g y1)
              (λ i, isColEmpty g i y1 i y2 && isRowEmpty g i y2 x2 y2 && cellIsEmpty g y2 i)).
  cbn [Z.gtb Z.compare]. setoid_rewrite iter_add. setoid_rewrite andb_true_iff.
  setoid_rewrite andb_true_iff. split.
  - intros [(n & Hn & Hk & (Hc & Hr) & He)|(n & Hn & Hk & (Hc & Hr) & He)].
    + exists (x1 + 1 + 1 * Z.of_nat n). destruct (Hk n) as [Hlt%Z.ltb_lt _]; [lia|].
      split_and!; try done; try lia.
      intros k Hrange Hne. destruct (Hk (Z.to_nat (k - x1 - 1))) as [_ Hcell]; [lia|].
      by replace (x1 + 1 + 1 * Z.of_nat (Z.to_nat (k - x1 - 1))) with k in Hcell by lia.
    + exists (x1 + -1 + -1 * Z.of_nat n). destruct (Hk n) as [Hge _]; [lia|].
      rewrite Z.geb_leb in Hge. apply Z.leb_le in Hge.
      split_and!; try done; try lia.
      intros k Hrange Hne. destruct (Hk (Z.to_nat (x1 - 1 - k))) as [_ Hcell]; [lia|].
      by replace (x1 + -1 + -1 * Z.of_nat (Z.to_nat (x1 - 1 - k))) with k in Hcell by lia.
  - intros (i & Hi & Hne & Hk & Hc & Hr & He).
    destruct (decide (x1 < i)).
    + left. exists (Z.to_nat (i - x1 - 1)).
      replace (x1 + 1 + 1 * Z.of_nat (Z.to_nat (i - x1 - 1))) with i by lia.
      split_and!; try done; try lia.
      intros k Hle. split; [apply Z.ltb_lt; lia | apply Hk; lia].
    + right. exists (Z.to_nat (x1 - 1 - i)).
      replace (x1 + -1 + -1 * Z.of_nat (Z.to_nat (x1 - 1 - i))) with i by lia.
      split_and!; try done; try lia.
      intros k Hle. split; [rewrite Z.geb_leb; apply Z.leb_le; lia | apply Hk; lia].
Qed.

Lemma turnRow_spec rows g x1 y1 x2 y2 :
  0 ≤ y1 < rows →
  is_Some (turnRow rows g x1 y1 x2 y2 1) ∨ is_Some (turnRow rows g x1 y1 x2 y2 (-1)) ↔
  ∃ i, viaRow rows g x1 y1 x2 y2 i.
Proof.
  intros Hy. unfold turnRow, viaRow.
  rewrite !(whileLoop_scan _ _ (λ i, cellIsEmpty g i x1)
              (λ i, isRowEmpty g x1 i x2 i && isColEmpty g x2 i x2 y2 && cellIsEmpty g i x2)).
  cbn [Z.gtb Z.compare]. setoid_rewrite iter_add. setoid_rewrite andb_true_iff.
  setoid_rewrite andb_true_iff. split.
  - intros [(n & Hn & Hk & (Hc & Hr) & He)|(n & Hn & Hk & (Hc & Hr) & He)].
    + exists (y1 + 1 + 1 * Z.of_nat n). destruct (Hk n) as [Hlt%Z.ltb_lt _]; [lia|].
      split_and!; try done; try lia.
      intros k Hrange Hne. destruct (Hk (Z.to_nat (k - y1 - 1))) as [_ Hcell]; [lia|].
      by replace (y1 + 1 + 1 * Z.of_nat (Z.to_nat (k - y1 - 1))) with k in Hcell by lia.
    + exists (y1 + -1 + -1 * Z.of_nat n). destruct (Hk n) as [Hge _]; [lia|].
      rewrite Z.geb_leb in Hge. apply Z.leb_le in Hge.
      split_and!; try done; try lia.
      intros k Hrange Hne. destruct (Hk (Z.to_nat (y1 - 1 - k))) as [_ Hcell]; [lia|].
      by replace (y1 + -1 + -1 * Z.of_nat (Z.to_nat (y1 - 1 - k))) with k in Hcell by lia.
  - intros (i & Hi & Hne & Hk & Hc & Hr & He).
    destruct (decide (y1 < i)).
    + left. exists (Z.to_nat (i - y1 - 1)).
      replace (y1 + 1 + 1 * Z.of_nat (Z.to_nat (i - y1 - 1))) with i by lia.
      split_and!; try done; try lia.
      intros k Hle. split; [apply Z.ltb_lt; lia | apply Hk; lia].
    + right. exists (Z.to_nat (y1 - 1 - i)).
      replace (y1 + -1 + -1 * Z.of_nat (Z.to_nat (y1 - 1 - i))) with i by lia.
      split_and!; try done; try lia.
      intros k Hle. split; [rewrite Z.geb_leb; apply Z.leb_le; lia | apply Hk; lia].
Qed.

Lemma viaColumn_sym cols g x1 y1 x2 y2 i :
  cellIsEmpty g y1 x1 = false → cellIsEmpty g y2 x2 = false →
  viaColumn cols g x1 y1 x2 y2 i → viaColumn cols g x2 y2 x1 y1 i.
Proof.
  intros HA HB (Hi & Hne & Hk & Hc & Hr & He). unfold viaColumn.
  assert (i ≠ x2) by (intros ->; congruence).
  apply isRowEmpty_spec in Hr as [_ Hr].
  split_and!; try done; try lia.
  - intros k Hrange Hk2. destruct (decide (k = i)) as [->|]; [done|]. apply Hr. lia.
  - by rewrite isColEmpty_sym.
  - apply isRowEmpty_spec. split; [done|]. intros k Hrange. apply Hk; lia.
  - apply Hk; lia.
Qed.

Lemma viaRow_sym rows g x1 y1 x2 y2 i :
  cellIsEmpty g y1 x1 = false → cellIsEmpty g y2 x2 = false →
  viaRow rows g x1 y1 x2 y2 i → viaRow rows g x2 y2 x1 y1 i.
Proof.
  intros HA HB (Hi & Hne & Hk & Hr & Hc & He). unfold viaRow.
  assert (i ≠ y2) by (intros ->; congruence).
  apply isColEmpty_spec in Hc as [_ Hc].
  split_and!; try done; try lia.
  - intros k Hrange Hk2. destruct (decide (k = i)) as [->|]; [done|]. apply Hc. lia.
  - by rewrite isRowEmpty_sym.
  - apply isColEmpty_spec. split; [done|]. intros k Hrange. apply Hk; lia.
  - apply Hk; lia.
Qed.

Lemma twoTurns_spec cols rows g x1 y1 x2 y2 :
  0 ≤ x1 < cols → 0 ≤ y1 < rows →
  is_Some (twoTurns cols rows g x1 y1 x2 y2) ↔
  x1 ≠ x2 ∧ y1 ≠ y2
  ∧ ((∃ i, viaColumn cols g x1 y1 x2 y2 i) ∨ (∃ i, viaRow rows g x1 y1 x2 y2 i)).
Proof.
  intros Hx Hy. unfold twoTurns.
  destruct (Z.eqb_spec x1 x2); simpl.
  { split; [by intros [? [=]] | by intros [? _]]. }
  destruct (Z.eqb_spec y1 y2); simpl.
  { split; [by intros [? [=]] | by intros (_ & ? & _)]. }
  rewrite !is_Some_orElse, <-turnCol_spec, <-turnRow_spec by done. tauto.
Qed.

Lemma twoTurns_sym cols rows g x1 y1 x2 y2 :
  0 ≤ x1 < cols → 0 ≤ y1 < rows → 0 ≤ x2 < cols → 0 ≤ y2 < rows →
  cellIsEmpty g y1 x1 = false → cellIsEmpty g y2 x2 = false →
  is_Some (twoTurns cols rows g x1 y1 x2 y2) → is_Some (twoTurns cols rows g x2 y2 x1 y1).
Proof.
  intros ?? ?? HA HB. rewrite !twoTurns_spec by done.
  intros (? & ? & [[i Hi]|[i Hi]]); split_and!; try done.
  - left. exists i. by apply viaColumn_sym.
  - right. exists i. by apply viaRow_sym.
Qed.

Lemma canCleanup_sym cols rows g x1 y1 x2 y2 :
  0 ≤ x1 < cols → 0 ≤ y1 < rows → 0 ≤ x2 < cols → 0 ≤ y2 < rows →
  cellIsEmpty g y1 x1 = false → cellIsEmpty g y2 x2 = false →
  is_Some (canCleanup cols rows g x1 y1 x2 y2) ↔
  is_Some (canCleanup cols rows g x2 y2 x1 y1).
Proof.
  intros ?? ?? HA HB. unfold canCleanup. rewrite !is_Some_orElse.
  rewrite (sameColumn_sym cols g x1 y1 x2 y2), (sameRow_sym rows g x1 y1 x2 y2).
  rewrite (oneTurn_sym g x1 y1 x2 y2).
  split; (intros [?|[?|[?|?]]]; [by left | by right; left | by right; right; left |]);
    right; right; right; by apply twoTurns_sym.
Qed.

(** * The solvability verifier *)

(** *** The search keeps the live grid and puts [this.pictures] back *)

Lemma tryPair_frame recurse cols rows cells h ij :
  (∀ h0 cells0, sameFrame h0 (recurse h0 cells0).2) →
  sameFrame h (tryPair recurse cols rows cells h ij).2.
Proof.
  intros Hrec. unfold tryPair.
  destruct (cells !! ij.1) as [cell1|]; [|done].
  destruct (cells !! ij.2) as [cell2|]; [|done].
  destruct (isMatch _ _); [|done].
  destruct (canCleanup _ _ _ _ _ _ _) as [path|]; [|done].
  match goal with |- context [recurse ?h3 ?c] =>
    specialize (Hrec h3 c); destruct (recurse h3 c) as [[] h4] end.
  all: destruct Hrec as [Hlive Hpic]; split; simpl in *; congruence.
Qed.

Lemma firstPair_frame step pairs h :
  (∀ h0 ij, sameFrame h0 (step h0 ij).2) →
  sameFrame h (firstPair step pairs h).2.
Proof.
  intros Hstep. revert h. induction pairs as [|ij pairs IH]; intros h; simpl; [done|].
  specialize (Hstep h ij). destruct (step h ij) as [[] h']; simpl in *; [done|].
  specialize (IH h'). destruct Hstep, IH. split; congruence.
Qed.

Lemma backtrackSolve_frame fuel cols rows h cells :
  sameFrame h (backtrackSolve fuel cols rows h cells).2.
Proof.
  revert h cells. induction fuel as [|fuel IH]; intros h [|cell cells]; simpl; try done.
  apply firstPair_frame. intros h0 ij. by apply tryPair_frame.
Qed.

Lemma isSolvableHeap_deref cols rows g pts :
  deref (isSolvableHeap cols rows g pts).2 = g.
Proof.
  unfold isSolvableHeap.
  match goal with |- context [backtrackSolve ?f cols rows ?h ?c] =>
    destruct (backtrackSolve_frame f cols rows h c) as [Hlive Hpic] end.
  unfold deref. rewrite Hpic, Hlive. done.
Qed.

Lemma isSolvable_pictures cols rows b :
  ∃ ok pts, isSolvable cols rows b = Some (ok, setPoints pts b).
Proof.
  unfold isSolvable.
  pose proof (isSolvableHeap_deref cols rows (pictures b) (points b)) as Hd.
  destruct (isSolvableHeap _ _ _ _) as [ok h]. simpl in Hd. rewrite Hd.
  exists ok, (thisPoints h). by destruct b.
Qed.

(** *** The result depends on the test map only *)

Lemma tryPair_agree recurse recurse' cols rows cells h h' ij :
  (∀ h0 h0' cells0, sameTest h0 h0' → agree (recurse h0 cells0) (recurse' h0' cells0)) →
  sameTest h h' →
  agree (tryPair recurse cols rows cells h ij) (tryPair recurse' cols rows cells h' ij).
Proof.
  intros Hrec Hh. unfold tryPair.
  destruct (cells !! ij.1) as [cell1|]; [|done].
  destruct (cells !! ij.2) as [cell2|]; [|done].
  destruct (isMatch _ _); [|done].
  unfold deref, sameTest in *. cbn [thisPictures setThisPictures testMap setThisPoints].
  rewrite <-Hh.
  destruct (canCleanup _ _ _ _ _ _ _) as [path|]; [|done].
  cbn [testMap setTestMap setThisPictures setThisPoints].
  match goal with |- context [recurse ?h3 ?c] => match goal with |- context [recurse' ?h3' c] =>
    specialize (Hrec h3 h3' c eq_refl);
    destruct (recurse h3 c) as [ok h4], (recurse' h3' c) as [ok' h4'] end end.
  destruct Hrec as [Hok Ht]. simpl in Hok, Ht. subst ok'.
  destruct ok; split; unfold sameTest; simpl; congruence.
Qed.

Lemma firstPair_agree step step' pairs h h' :
  (∀ h0 h0' ij, ij ∈ pairs → sameTest h0 h0' → agree (step h0 ij) (step' h0' ij)) →
  sameTest h h' →
  agree (firstPair step pairs h) (firstPair step' pairs h').
Proof.
  revert h h'. induction pairs as [|ij pairs IH]; intros h h' Hstep Hh; simpl; [done|].
  pose proof (Hstep h h' ij (list_elem_of_here _ _) Hh) as [Hok Ht].
  destruct (step h ij) as [ok h1], (step' h' ij) as [ok' h1']. simpl in Hok, Ht. subst ok'.
  destruct ok; [done|]. apply IH; [|done].
  intros ??? Hin. apply Hstep. by apply list_elem_of_further.
Qed.

Lemma backtrackSolve_agree fuel cols rows h h' cells :
  sameTest h h' →
  agree (backtrackSolve fuel cols rows h cells) (backtrackSolve fuel cols rows h' cells).
Proof.
  revert h h' cells. induction fuel as [|fuel IH]; intros h h' [|cell cells] Hh; simpl;
    try done.
  apply firstPair_agree; [|done]. intros h0 h0' ij _ Hh0.
  apply tryPair_agree; [|done]. intros; by apply IH.
Qed.

Lemma isSolvable_solvable cols rows b ok b' :
  isSolvable cols rows b = Some (ok, b') →
  ok = solvable cols rows (pictures b) ∧ pictures b' = pictures b.
Proof.
  unfold isSolvable, solvable. intros H.
  pose proof (isSolvableHeap_deref cols rows (pictures b) (points b)) as Hd.
  destruct (isSolvableHeap cols rows (pictures b) (points b)) as [ok0 h] eqn:Hrun.
  injection H as <- <-. simpl in Hd. split; [|done].
  unfold isSolvableHeap in *.
  match goal with |- _ = (backtrackSolve ?f _ _ ?h' ?c).1 =>
    match type of Hrun with backtrackSolve _ _ _ ?h0 _ = _ =>
      destruct (backtrackSolve_agree f cols rows h0 h' c eq_refl) as [Hok _] end end.
  rewrite Hrun in Hok. done.
Qed.

Lemma isSolvable_total cols rows b :
  ∃ b', isSolvable cols rows b = Some (solvable cols rows (pictures b), b')
        ∧ pictures b' = pictures b.
Proof.
  destruct (isSolvable_pictures cols rows b) as (ok & pts & H).
  destruct (isSolvable_solvable _ _ _ _ _ H) as [-> ?]. eauto.
Qed.

(** *** The fuel of [backtrackSolve] is never used up *)

Lemma filterIndex_all {A} keep k (l : list A) :
  (∀ i, (k ≤ i)%nat → keep i = true) → filterIndex keep k l = l.
Proof.
  revert k. induction l as [|x l IH]; intros k Hk; simpl; [done|].
  rewrite Hk by lia. f_equal. apply IH. intros; apply Hk; lia.
Qed.

Lemma filterIndex_drop_one {A} i j k (l : list A) :
  (i < k)%nat → (k ≤ j < k + length l)%nat →
  (length (filterIndex (dropTwo i j) k l) + 1 = length l)%nat.
Proof.
  revert k. induction l as [|x l IH]; intros k Hi Hj; simpl in *; [lia|].
  unfold dropTwo at 1.
  destruct (Nat.eqb_spec k i); [lia|]. destruct (Nat.eqb_spec k j) as [->|]; simpl.
  - rewrite filterIndex_all; [lia|]. intros m Hm. unfold dropTwo.
    destruct (Nat.eqb_spec m i), (Nat.eqb_spec m j); simpl; lia || done.
  - rewrite <-(IH (S k)); lia.
Qed.

Lemma filterIndex_drop_two {A} i j k (l : list A) :
  (i < j)%nat → (k ≤ i)%nat → (j < k + length l)%nat →
  (length (filterIndex (dropTwo i j) k l) + 2 = length l)%nat.
Proof.
  revert k. induction l as [|x l IH]; intros k Hij Hi Hj; simpl in *; [lia|].
  unfold dropTwo at 1.
  destruct (Nat.eqb_spec k i) as [->|]; simpl.
  - rewrite <-(filterIndex_drop_one i j (S i) l); lia.
  - destruct (Nat.eqb_spec k j); [lia|]. simpl. rewrite <-(IH (S k)); lia.
Qed.

Lemma elem_of_indexPairs n i j :
  (i, j) ∈ indexPairs n → (i < j < n)%nat.
Proof.
  unfold indexPairs. rewrite list_elem_of_In, in_flat_map.
  intros (i' & Hi' & Hin). apply in_map_iff in Hin as (j' & [= -> ->] & Hj').
  apply in_seq in Hi', Hj'. lia.
Qed.

Lemma firstPair_ext step step' pairs h :
  (∀ h0 ij, ij ∈ pairs → step h0 ij = step' h0 ij) →
  firstPair step pairs h = firstPair step' pairs h.
Proof.
  revert h. induction pairs as [|ij pairs IH]; intros h Hstep; simpl; [done|].
  rewrite <-(Hstep h ij) by apply list_elem_of_here.
  destruct (step h ij) as [[] h']; [done|]. apply IH.
  intros ?? Hin. apply Hstep. by apply list_elem_of_further.
Qed.

Lemma tryPair_ext recurse recurse' cols rows cells h ij :
  (∀ h0 cells0, (length cells0 + 2 = length cells)%nat →
                recurse h0 cells0 = recurse' h0 cells0) →
  ij ∈ indexPairs (length cells) →
  tryPair recurse cols rows cells h ij = tryPair recurse' cols rows cells h ij.
Proof.
  intros Hrec Hij. destruct ij as [i j]. apply elem_of_indexPairs in Hij.
  unfold tryPair. cbn [fst snd].
  destruct (cells !! i) as [cell1|]; [|done].
  destruct (cells !! j) as [cell2|]; [|done].
  destruct (isMatch _ _); [|done].
  destruct (canCleanup _ _ _ _ _ _ _) as [path|]; [|done].
  rewrite Hrec; [done|]. apply (filterIndex_drop_two i j 0 cells); lia.
Qed.

Lemma backtrackSolve_fuel fuel fuel' cols rows h cells :
  (length cells ≤ 2 * fuel)%nat → (length cells ≤ 2 * fuel')%nat →
  backtrackSolve fuel cols rows h cells = backtrackSolve fuel' cols rows h cells.
Proof.
  revert fuel' h cells. induction fuel as [|fuel IH]; intros fuel' h cells Hf Hf'.
  { destruct cells; [by destruct fuel'|simpl in *; lia]. }
  destruct cells as [|cell cells]; [by destruct fuel'|].
  destruct fuel' as [|fuel']; [simpl in *; lia|].
  cbn [backtrackSolve]. apply firstPair_ext. intros h0 ij Hij.
  apply tryPair_ext; [|done]. intros h1 cells1 Hlen. apply IH; simpl in *; lia.
Qed.

(** *** A row of neighbouring pairs is solvable *)

Lemma canCleanup_neighbours cols rows g x y :
  canCleanup cols rows g x y (x + 1) y = Some [(x, y); (x + 1, y)].
Proof.
  unfold canCleanup, sameColumn, sameRow.
  destruct (Z.eqb_spec x (x + 1)); [lia|]. simpl.
  rewrite Z.eqb_refl. replace (Z.abs (x - (x + 1))) with 1 by lia. done.
Qed.

Lemma backtrackSolve_neighbours fuel cols rows h (pairs : list (SolverCell * SolverCell)) :
  Forall (λ p, neighbours p.1 p.2) pairs →
  (length pairs ≤ fuel)%nat →
  (backtrackSolve fuel cols rows h (unpair pairs)).1 = true.
Proof.
  revert fuel h. induction pairs as [|[c1 c2] pairs IH]; intros fuel h Hall Hfuel.
  { by destruct fuel. }
  apply Forall_cons in Hall as [(Hm & Hr & Hc) Hall]. simpl in Hm, Hr, Hc.
  destruct fuel as [|fuel]; [simpl in Hfuel; lia|].
  cbn [unpair flat_map app fst snd backtrackSolve length].
  change (flat_map (λ p : SolverCell * SolverCell, [p.1; p.2]) pairs) with (unpair pairs).
  unfold indexPairs. cbn [seq flat_map Nat.sub map app firstPair].
  unfold tryPair at 1. cbn [fst snd lookup list_lookup].
  rewrite Hm, Hr, Hc, canCleanup_neighbours.
  replace (filterIndex _ 0 (c1 :: c2 :: unpair pairs)) with (unpair pairs).
  2: { cbn [filterIndex Nat.eqb negb andb]. symmetry. apply filterIndex_all.
       intros i Hi. destruct i as [|[|i]]; (lia || done). }
  match goal with |- context [backtrackSolve fuel cols rows ?h3 _] =>
    specialize (IH fuel h3 Hall ltac:(simpl in Hfuel; lia));
    destruct (backtrackSolve fuel cols rows h3 (unpair pairs)) as [ok h4] end.
  simpl in IH. subst ok. done.
Qed.

(** * Letters and letter pairs *)

(** *** Letters *)

Lemma lowerAscii_idem c : lowerAscii (lowerAscii c) = lowerAscii c.
Proof. destruct c as [[] [] [] [] [] [] [] []]; reflexivity. Qed.

Lemma lowerAscii_upperAscii c : lowerAscii (upperAscii c) = lowerAscii c.
Proof. destruct c as [[] [] [] [] [] [] [] []]; reflexivity. Qed.

Lemma toLowerCase_idem s : toLowerCase (toLowerCase s) = toLowerCase s.
Proof.
  unfold toLowerCase. induction s as [|c s IH]; simpl; [done|].
  by rewrite lowerAscii_idem, IH.
Qed.

Lemma toLowerCase_toUpperCase s : toLowerCase (toUpperCase s) = toLowerCase s.
Proof.
  unfold toLowerCase, toUpperCase. induction s as [|c s IH]; simpl; [done|].
  by rewrite lowerAscii_upperAscii, IH.
Qed.

Lemma isMatch_true a b :
  isMatch a b = true ↔ toLowerCase a = toLowerCase b ∧ a ≠ b.
Proof.
  unfold isMatch. rewrite andb_true_iff, negb_true_iff, String.eqb_eq, String.eqb_neq. done.
Qed.

Lemma letterAt_check :
  forallb (λ k, String.eqb (toLowerCase (letterAt k)) (letterAt k)
                && isMatch (letterAt k) (toUpperCase (letterAt k))) (seq 0 26) = true.
Proof. vm_compute. reflexivity. Qed.

Lemma letterAt_isMatch k :
  (k < 26)%nat →
  toLowerCase (letterAt k) = letterAt k
  ∧ isMatch (letterAt k) (toUpperCase (letterAt k)) = true.
Proof.
  intros Hk. pose proof letterAt_check as Hall.
  rewrite forallb_forall in Hall. specialize (Hall k).
  rewrite andb_true_iff, String.eqb_eq in Hall. apply Hall, in_seq. lia.
Qed.

Lemma pairable_isMatch t :
  toLowerCase t ≠ toUpperCase t → isMatch (toLowerCase t) (toUpperCase t) = true.
Proof.
  intros H. apply isMatch_true. by rewrite toLowerCase_idem, toLowerCase_toUpperCase.
Qed.

(** *** The letter pairs *)

Lemma unpair_app {A} (l1 l2 : list (A * A)) : unpair (l1 ++ l2) = unpair l1 ++ unpair l2.
Proof. unfold unpair. induction l1; simpl; [done|]. by rewrite IHl1. Qed.

Lemma length_unpair {A} (l : list (A * A)) : length (unpair l) = (2 * length l)%nat.
Proof. induction l; simpl in *; lia. Qed.

Lemma drawLetters_inventory pairsNeeded ps tape letters tape' :
  inventory ps →
  drawLetters (pairsNeeded * 2) (unpair ps) (map pairKey ps) tape = Some (letters, tape') →
  ∃ ps', letters = unpair ps' ∧ inventory ps'
         ∧ (length ps ≤ length ps')%nat
         ∧ (Z.of_nat (length ps') ≤ Z.max (Z.of_nat (length ps)) pairsNeeded).
Proof.
  revert ps. induction tape as [|d tape IH]; intros ps Hinv; cbn [drawLetters].
  - destruct (Z.ltb_spec (Z.of_nat (length (unpair ps))) (pairsNeeded * 2)); [done|].
    intros [= <- <-]. exists ps. split_and!; try done; lia.
  - destruct (Z.ltb_spec (Z.of_nat (length (unpair ps))) (pairsNeeded * 2)) as [Hlt|].
    2: { intros [= <- <-]. exists ps. split_and!; try done; lia. }
    rewrite length_unpair in Hlt.
    case_bool_decide as Hused; [by apply IH|].
    pose proof (letterAt_isMatch (d mod 26) ltac:(apply Nat.mod_upper_bound; lia))
      as [Hlow Hmatch].
    set (l := letterAt (d mod 26)) in *.
    assert (map pairKey (ps ++ [(l, toUpperCase l)]) = map pairKey ps ++ [l]) as Hkeys.
    { rewrite map_app. f_equal. cbn [map]. unfold pairKey. cbn [fst]. by rewrite Hlow. }
    change [l; toUpperCase l] with (unpair [(l, toUpperCase l)]).
    rewrite <-Hkeys, <-unpair_app.
    intros (ps' & -> & Hinv' & Hlen & Hmax)%IH.
    + exists ps'. rewrite length_app in Hlen, Hmax. cbn [length] in *.
      split_and!; try done; lia.
    + destruct Hinv as [Hall Hnd]. split.
      * apply Forall_app. split; [done|]. by constructor.
      * rewrite Hkeys. apply NoDup_app. split_and!; [done| |apply NoDup_singleton].
        intros k Hk ->%list_elem_of_singleton. done.
Qed.

Lemma generateLetterPairs_inventory cols rows t b letters b' :
  pairable t →
  generateLetterPairs cols rows t b = Some (letters, b') →
  ∃ ps, letters = unpair ps ∧ inventory ps
        ∧ pictures b' = pictures b
        ∧ (Z.of_nat (length ps) ≤ Z.max 1 ((rows - 2) * (cols - 2) / 2))
        ∧ (t = "" → Z.of_nat (length ps) ≤ Z.max 0 ((rows - 2) * (cols - 2) / 2)).
Proof.
  intros Ht. unfold generateLetterPairs.
  destruct (String.eqb_spec t "") as [->|Hne]; simpl.
  - destruct (drawLetters _ _ _ _) as [[letters' tape]|] eqn:Hdraw; [|done].
    intros [= <- <-].
    apply (drawLetters_inventory _ []) in Hdraw as (ps & -> & Hinv & _ & Hmax).
    + exists ps. simpl in *. split_and!; try done; lia.
    + split; constructor.
  - destruct Ht as [|[_ Ht]]; [done|].
    destruct (drawLetters _ _ _ _) as [[letters' tape]|] eqn:Hdraw; [|done].
    intros [= <- <-].
    replace [toLowerCase t] with (map pairKey [(toLowerCase t, toUpperCase t)]) in Hdraw
      by (cbn [map]; unfold pairKey; cbn [fst]; by rewrite toLowerCase_idem).
    apply (drawLetters_inventory _ [(toLowerCase t, toUpperCase t)])
      in Hdraw as (ps & -> & Hinv & _ & Hmax).
    + exists ps. simpl in *. split_and!; try done; lia.
    + split.
      * constructor; [|done]. by apply pairable_isMatch.
      * simpl. apply NoDup_singleton.
Qed.

(** *** Grouping the letters gives the pairs back *)

Lemma pushGroup_fresh {A} key (x : A) m :
  key ∉ map fst m → pushGroup key x m = m ++ [(key, [x])].
Proof.
  induction m as [|[k grp] m IH]; simpl; [done|]. intros Hk.
  destruct (String.eqb_spec k key) as [->|]; [exfalso; apply Hk; left|].
  rewrite IH; [done|]. intros ?. apply Hk. by right.
Qed.

Lemma pushGroup_last {A} key (x : A) grp m :
  key ∉ map fst m → pushGroup key x (m ++ [(key, grp)]) = m ++ [(key, grp ++ [x])].
Proof.
  induction m as [|[k grp'] m IH]; simpl; [by rewrite String.eqb_refl|]. intros Hk.
  destruct (String.eqb_spec k key) as [->|]; [exfalso; apply Hk; left|].
  rewrite IH; [done|]. intros ?. apply Hk. by right.
Qed.

Lemma foldl_pushGroup_unpair {A} (key : A → string) (ps : list (A * A)) m :
  Forall (λ p, key p.1 = key p.2) ps →
  NoDup (map fst m ++ map (λ p, key p.1) ps) →
  foldl (λ m x, pushGroup (key x) x m) m (unpair ps)
  = m ++ map (λ p, (key p.1, [p.1; p.2])) ps.
Proof.
  revert m. induction ps as [|[a b] ps IH]; intros m Hall Hnd; simpl.
  { by rewrite app_nil_r. }
  apply Forall_cons in Hall as [Hab Hall]. simpl in Hab.
  change (flat_map (λ p : A * A, [p.1; p.2]) ps) with (unpair ps).
  assert (key a ∉ map fst m) as Hfresh.
  { apply NoDup_app in Hnd as (_ & Hdisj & _). intros Hin. apply (Hdisj _ Hin). apply list_elem_of_here. }
  rewrite (pushGroup_fresh (key a) a m) by done. rewrite <-Hab, pushGroup_last by done.
  rewrite IH; [by rewrite <-app_assoc|done|].
  rewrite map_app. simpl. rewrite <-app_assoc. done.
Qed.

Lemma groupPairs_unpair {A} (key : A → string) (ps : list (A * A)) :
  Forall (λ p, key p.1 = key p.2) ps →
  NoDup (map (λ p, key p.1) ps) →
  groupPairs key (unpair ps) = ps.
Proof.
  intros Hall Hnd. unfold groupPairs.
  rewrite (foldl_pushGroup_unpair key ps []) by done. simpl.
  clear. induction ps as [|[a b] ps IH]; simpl; [done|]. by rewrite IH.
Qed.

Lemma groupIntoLetterPairs_inventory ps :
  inventory ps → groupIntoLetterPairs (unpair ps) = ps.
Proof.
  intros [Hall Hnd]. apply groupPairs_unpair; [|done].
  eapply Forall_impl; [done|]. intros p Hp. by apply isMatch_true in Hp as [? _].
Qed.

(** * Grids and their border *)

(** *** Reading and writing cells *)

Lemma getCell_updCell g r c f r' c' :
  getCell (updCell g r c f) r' c' =
  if decide (r = r' ∧ c = c') then f <$> getCell g r c else getCell g r' c'.
Proof.
  unfold updCell, getCell.
  destruct (Z.ltb_spec r 0), (Z.ltb_spec c 0); simpl.
  1-3: case_decide as Heq; [destruct Heq as [<- <-]|done];
       by destruct (Z.ltb_spec r 0), (Z.ltb_spec c 0); try lia.
  destruct (g !! Z.to_nat r) as [cells|] eqn:Hrow.
  2: { case_decide as Heq; [destruct Heq as [<- <-]|done].
       destruct (Z.ltb_spec r 0), (Z.ltb_spec c 0); try lia. simpl. by rewrite Hrow. }
  destruct (cells !! Z.to_nat c) as [cell|] eqn:Hcell.
  2: { case_decide as Heq; [destruct Heq as [<- <-]|done].
       destruct (Z.ltb_spec r 0), (Z.ltb_spec c 0); try lia. simpl.
       by rewrite Hrow, Hcell. }
  destruct (Z.ltb_spec r' 0), (Z.ltb_spec c' 0); simpl; try by case_decide; [lia|].
  destruct (decide (Z.to_nat r = Z.to_nat r')) as [Hr|Hr].
  - assert (r = r') as <- by lia. rewrite list_lookup_insert_eq by by eapply lookup_lt_Some.
    destruct (decide (c = c')) as [<-|Hc].
    + rewrite list_lookup_insert_eq by by eapply lookup_lt_Some.
      rewrite decide_True by done. done.
    + rewrite list_lookup_insert_ne by lia. rewrite decide_False by tauto.
      by rewrite Hrow.
  - rewrite list_lookup_insert_ne by done. rewrite decide_False; [done|]. lia.
Qed.

Lemma getCell_updCell_ne g r c f r' c' :
  (r, c) ≠ (r', c') → getCell (updCell g r c f) r' c' = getCell g r' c'.
Proof.
  intros Hne. rewrite getCell_updCell, decide_False; [done|]. intros [-> ->]. done.
Qed.

Lemma getCell_updCell_eq g r c f :
  getCell (updCell g r c f) r c = f <$> getCell g r c.
Proof. by rewrite getCell_updCell, decide_True. Qed.

Lemma cellIsEmpty_updCell g r c f r' c' :
  (∀ cell, isEmpty (f cell) = isEmpty cell) →
  cellIsEmpty (updCell g r c f) r' c' = cellIsEmpty g r' c'.
Proof.
  intros Hf. unfold cellIsEmpty. rewrite getCell_updCell.
  case_decide as Heq; [destruct Heq as [<- <-]|done].
  destruct (getCell g r c); simpl; [apply Hf|done].
Qed.

(** *** The shape of the grid and its border *)

Lemma gridShape_updCell cols rows g r c f :
  gridShape cols rows g → gridShape cols rows (updCell g r c f).
Proof.
  intros [Hlen Hall]. unfold updCell.
  destruct ((r <? 0) || (c <? 0)); [done|].
  destruct (g !! Z.to_nat r) as [cells|] eqn:Hrow; [|done].
  destruct (cells !! Z.to_nat c) as [cell|]; [|done].
  split; [by rewrite length_insert|].
  apply Forall_insert; [done|]. rewrite length_insert.
  by eapply Forall_lookup_1 in Hall.
Qed.

Lemma gridShape_getCell cols rows g y x :
  gridShape cols rows g → 0 ≤ y < rows → 0 ≤ x < cols → is_Some (getCell g y x).
Proof.
  intros [Hlen Hall] Hy Hx. unfold getCell.
  destruct (Z.ltb_spec y 0), (Z.ltb_spec x 0); try lia. simpl.
  destruct (lookup_lt_is_Some_2 g (Z.to_nat y)) as [cells Hrow]; [lia|].
  rewrite Hrow. apply lookup_lt_is_Some_2.
  eapply Forall_lookup_1 in Hall; [|done]. simpl in Hall. lia.
Qed.

Lemma borderEmpty_updCell_inPlay cols rows g r c f :
  inPlay cols rows (r, c) → borderEmpty cols rows g →
  borderEmpty cols rows (updCell g r c f).
Proof.
  intros [Hr Hc] Hb y x Hy Hx Hon. simpl in *.
  rewrite getCell_updCell_ne; [by apply Hb|].
  intros [= -> ->]. unfold onBorder in Hon. lia.
Qed.

Lemma borderEmpty_markEmpty cols rows g r c :
  borderEmpty cols rows g → borderEmpty cols rows (updCell g r c markEmpty).
Proof.
  intros Hb y x Hy Hx Hon. rewrite getCell_updCell.
  case_decide as Heq; [destruct Heq as [-> ->]|]; [|by apply Hb].
  by rewrite Hb.
Qed.

Lemma gridOK_updCell_inPlay cols rows g r c f :
  inPlay cols rows (r, c) → gridOK cols rows g → gridOK cols rows (updCell g r c f).
Proof.
  intros ? []. split; [by apply gridShape_updCell | by apply borderEmpty_updCell_inPlay].
Qed.

Lemma gridOK_markEmpty cols rows g r c :
  gridOK cols rows g → gridOK cols rows (updCell g r c markEmpty).
Proof.
  intros []. split; [by apply gridShape_updCell | by apply borderEmpty_markEmpty].
Qed.

Lemma getCell_emptyMap cols rows y x :
  0 ≤ y < rows → 0 ≤ x < cols → getCell (emptyMap cols rows) y x = Some emptyCell.
Proof.
  intros Hy Hx. unfold getCell, emptyMap.
  destruct (Z.ltb_spec y 0), (Z.ltb_spec x 0); try lia. simpl.
  rewrite lookup_replicate_2 by lia. rewrite lookup_replicate_2 by lia. done.
Qed.

Lemma gridOK_emptyMap cols rows : gridOK cols rows (emptyMap cols rows).
Proof.
  split; [split|].
  - apply length_replicate.
  - apply Forall_replicate, length_replicate.
  - intros y x Hy Hx _. by apply getCell_emptyMap.
Qed.

(** *** Positions of the play area *)

Lemma elem_of_getAllValidPositions cols rows p :
  p ∈ getAllValidPositions cols rows ↔ inPlay cols rows p.
Proof.
  unfold getAllValidPositions, inPlay. rewrite list_elem_of_In, in_flat_map. split.
  - intros (i & Hi & Hin). apply in_map_iff in Hin as (j & <- & Hj).
    apply list_elem_of_In, elem_of_seqZ in Hi, Hj. simpl. lia.
  - intros [Hy Hx]. exists p.1. split.
    + apply list_elem_of_In, elem_of_seqZ. lia.
    + apply in_map_iff. exists p.2. split; [by destruct p|].
      apply list_elem_of_In, elem_of_seqZ. lia.
Qed.

Lemma elem_of_occupiedPositions cols rows g p :
  p ∈ occupiedPositions cols rows g ↔ inPlay cols rows p ∧ cellIsEmpty g p.1 p.2 = false.
Proof.
  unfold occupiedPositions. rewrite list_elem_of_filter, elem_of_getAllValidPositions. tauto.
Qed.

Lemma insertByEdge_Permutation cols rows p l :
  insertByEdge cols rows p l ≡ₚ p :: l.
Proof.
  induction l as [|q l IH]; simpl; [done|].
  destruct (_ <=? _); [done|]. rewrite IH. apply Permutation_swap.
Qed.

Lemma sortByEdge_Permutation cols rows l : sortByEdge cols rows l ≡ₚ l.
Proof.
  unfold sortByEdge. induction l as [|p l IH]; simpl; [done|].
  by rewrite insertByEdge_Permutation, IH.
Qed.

Lemma elem_of_everyOtherColumn cols rows bound p :
  bound ≤ cols - 1 →
  p ∈ everyOtherColumn rows bound → inPlay cols rows p ∧ p.2 < bound.
Proof.
  intros Hb. unfold everyOtherColumn, inPlay. rewrite list_elem_of_In, in_flat_map.
  intros (i & Hi & Hin). apply in_map_iff in Hin as (k & <- & Hk).
  apply list_elem_of_In, elem_of_seqZ in Hi, Hk. simpl.
  assert (2 * k + 2 ≤ bound); [|lia].
  assert (0 < bound / 2) by lia.
  assert (0 < bound) by (destruct (decide (0 < bound)); [done|];
    assert (bound / 2 ≤ 0) by (apply Z.div_le_upper_bound; lia); lia).
  pose proof (Z.mul_div_le bound 2). lia.
Qed.

(** * Triples for the state monad *)

(** *** Triples for the state monad *)

Lemma hoare_conseq {S A} (P P' : S → Prop) (Q Q' : A → S → Prop) m :
  hoare P' m Q' → (∀ s, P s → P' s) → (∀ a s, Q' a s → Q a s) → hoare P m Q.
Proof. intros H HP HQ s a s' Hs Hm. eapply HQ, H; eauto. Qed.

Lemma hoare_ret {S A} (P : S → Prop) (Q : A → S → Prop) a :
  (∀ s, P s → Q a s) → hoare P (mret a) Q.
Proof. intros H s a' s' Hs [= <- <-]. auto. Qed.

Lemma hoare_bind {S A B} (P : S → Prop) (Q : A → S → Prop) (R : B → S → Prop)
    (m : M S A) (k : A → M S B) :
  hoare P m Q → (∀ a, hoare (Q a) (k a) R) → hoare P (m ≫= k) R.
Proof.
  intros Hm Hk s b s' Hs. unfold mbind, M_bind.
  destruct (m s) as [[a s1]|] eqn:Hrun; [|done]. intros Hrun'.
  eapply Hk; [|done]. eapply Hm; done.
Qed.

Lemma hoare_gets {S A} (P : S → Prop) (Q : A → S → Prop) (f : S → A) :
  (∀ s, P s → Q (f s) s) → hoare P (gets f) Q.
Proof. intros H s a s' Hs [= <- <-]. auto. Qed.

Lemma hoare_modify {S} (P : S → Prop) (Q : unit → S → Prop) (f : S → S) :
  (∀ s, P s → Q tt (f s)) → hoare P (modify f) Q.
Proof. intros H s a s' Hs [= <- <-]. auto. Qed.

Lemma hoare_throw {S A} (P : S → Prop) (Q : A → S → Prop) : hoare P throw Q.
Proof. intros s a s' _ [=]. Qed.

Lemma hoare_when {S} (P : S → Prop) (Q : unit → S → Prop) (c : bool) m :
  (c = true → hoare P m Q) → (c = false → ∀ s, P s → Q tt s) → hoare P (when c m) Q.
Proof. destruct c; simpl; intros H1 H2; [auto | apply hoare_ret; auto]. Qed.

Lemma keeps_bind {S A B} (I : S → Prop) (m : M S A) (k : A → M S B) :
  keeps I m → (∀ a, keeps I (k a)) → keeps I (m ≫= k).
Proof. intros. by eapply hoare_bind. Qed.

Lemma keeps_ret {S A} (I : S → Prop) (a : A) : keeps I (mret a).
Proof. by apply hoare_ret. Qed.

Lemma keeps_gets {S A} (I : S → Prop) (f : S → A) : keeps I (gets f).
Proof. by apply hoare_gets. Qed.

Lemma keeps_throw {S A} (I : S → Prop) : keeps I (throw : M S A).
Proof. apply hoare_throw. Qed.

Lemma keeps_when {S} (I : S → Prop) (c : bool) m : keeps I m → keeps I (when c m).
Proof. intros. apply hoare_when; auto. Qed.

Lemma keeps_modify {S} (I : S → Prop) (f : S → S) :
  (∀ s, I s → I (f s)) → keeps I (modify f).
Proof. intros. by apply hoare_modify. Qed.

Lemma makes_keeps_bind {S A B} (I : S → Prop) (m : M S A) (k : A → M S B) :
  makes I m → (∀ a, keeps I (k a)) → makes I (m ≫= k).
Proof. intros. by eapply hoare_bind. Qed.

Lemma makes_bind {S A B} (I : S → Prop) (m : M S A) (k : A → M S B) :
  (∀ a, makes I (k a)) → makes I (m ≫= k).
Proof.
  intros Hk. eapply (hoare_bind _ (λ _ _, True)); [done|]. intros a. apply Hk.
Qed.

Lemma keepsPictures_keeps {A} (I : Grid → Prop) (m : M Board A) :
  keepsPictures m → keeps (λ b, I (pictures b)) m.
Proof. intros Hm b a b' Hb Hrun. by rewrite (Hm _ _ _ Hrun). Qed.

Lemma keepsPictures_bind {A B} (m : M Board A) (k : A → M Board B) :
  keepsPictures m → (∀ a, keepsPictures (k a)) → keepsPictures (m ≫= k).
Proof.
  intros Hm Hk b c b'. unfold mbind, M_bind.
  destruct (m b) as [[a b1]|] eqn:Hrun; [|done]. intros Hrun'.
  rewrite (Hk _ _ _ _ Hrun'). by eapply Hm.
Qed.

Lemma emit_pictures ev : keepsPictures (emit ev).
Proof. by intros b [] b' [= <-]. Qed.

Lemma draw_pictures : keepsPictures draw.
Proof. intros b a b'. unfold draw. destruct (random b); [done|]. by intros [= <- <-]. Qed.

Lemma mret_pictures {A} (a : A) : keepsPictures (mret a).
Proof. by intros b a' b' [= <- <-]. Qed.

Lemma shuffle_pictures {A} fuel (l : list A) : keepsPictures (shuffle fuel l).
Proof.
  revert l. induction fuel as [|fuel IH]; intros l; simpl; [apply mret_pictures|].
  destruct l as [|x l]; [apply mret_pictures|].
  apply keepsPictures_bind; [apply draw_pictures|]. intros d.
  destruct (_ !! _); [|apply mret_pictures].
  apply keepsPictures_bind; [apply IH|]. intros rest. apply mret_pictures.
Qed.

Lemma generateLetterPairs_pictures cols rows t :
  keepsPictures (generateLetterPairs cols rows t).
Proof.
  intros b letters b'. unfold generateLetterPairs.
  destruct (drawLetters _ _ _ _) as [[]|]; [|done]. by intros [= <- <-].
Qed.

Lemma isSolvable_keepsPictures cols rows : keepsPictures (isSolvable cols rows).
Proof.
  intros b ok b' Hrun. by apply isSolvable_solvable in Hrun as [_ ?].
Qed.

Lemma getAvailableMatches_pictures cols rows :
  keepsPictures (getAvailableMatches cols rows).
Proof. intros b a b'. unfold getAvailableMatches. by intros [= <- <-]. Qed.

Lemma renderMap_pictures cols rows : keepsPictures (renderMap cols rows).
Proof.
  apply keepsPictures_bind; [by intros b a b' [= <- <-]|]. intros g. apply emit_pictures.
Qed.

(** *** The map code keeps the border *)

Section Border.

Variables (cols rows : Z) (t : string).

Local Abbreviation boardOK := (boardOK cols rows).

Lemma initializeEmptyMap_makes : makes boardOK (initializeEmptyMap cols rows).
Proof. apply hoare_modify. intros b _. apply gridOK_emptyMap. Qed.

Lemma placeLetter_keeps position letter :
  (∀ p, position = Some p → inPlay cols rows p) →
  keeps boardOK (placeLetter position letter).
Proof.
  intros Hp. destruct position as [[y x]|]; [|apply keeps_throw].
  apply keeps_bind; [apply (keepsPictures_keeps (gridOK cols rows)), draw_pictures|].
  intros d. apply keeps_modify. intros b Hb.
  apply gridOK_updCell_inPlay; [by apply Hp | done].
Qed.

Lemma placePairs_keeps positions i letterPairs :
  Forall (inPlay cols rows) positions →
  keeps boardOK (placePairs positions i letterPairs).
Proof.
  intros Hall. revert i. induction letterPairs as [|lp rest IH]; intros i;
    cbn [placePairs].
  { apply keeps_ret. }
  destruct (_ <? _)%nat; [|apply keeps_ret].
  assert (∀ k p, positions !! k = Some p → inPlay cols rows p) as Hk.
  { intros k p Hlook. by eapply Forall_lookup_1 in Hall. }
  repeat (apply keeps_bind; [apply placeLetter_keeps; eauto|intros _]). apply IH.
Qed.

Lemma validPositions_inPlay : Forall (inPlay cols rows) (getAllValidPositions cols rows).
Proof. apply Forall_forall. intros p. by rewrite elem_of_getAllValidPositions. Qed.

Lemma occupiedPositions_inPlay g : Forall (inPlay cols rows) (occupiedPositions cols rows g).
Proof. apply Forall_forall. intros p. rewrite elem_of_occupiedPositions. tauto. Qed.

Lemma sortByEdge_inPlay l :
  Forall (inPlay cols rows) l → Forall (inPlay cols rows) (sortByEdge cols rows l).
Proof. intros. by rewrite sortByEdge_Permutation. Qed.

Lemma generateMapWithEdgePriority_keeps :
  keeps boardOK (generateMapWithEdgePriority cols rows t).
Proof.
  apply keeps_bind.
  - apply (keepsPictures_keeps (gridOK cols rows)), generateLetterPairs_pictures.
  - intros letters. apply placePairs_keeps, sortByEdge_inPlay, validPositions_inPlay.
Qed.

Lemma fillRowMajor_keeps positions letters :
  Forall (inPlay cols rows) positions → keeps boardOK (fillRowMajor positions letters).
Proof.
  revert letters. induction positions as [|p positions IH]; intros letters Hall.
  { apply keeps_ret. }
  destruct letters as [|letter letters]; [apply keeps_ret|]. cbn [fillRowMajor].
  apply Forall_cons in Hall as [Hp Hall].
  apply keeps_bind; [apply placeLetter_keeps; by intros ? [= <-]|]. intros _. by apply IH.
Qed.

Lemma generateMapTraditional_keeps : keeps boardOK (generateMapTraditional cols rows t).
Proof.
  apply keeps_bind.
  { apply (keepsPictures_keeps (gridOK cols rows)), generateLetterPairs_pictures. }
  intros letters. apply keeps_bind.
  { apply (keepsPictures_keeps (gridOK cols rows)), shuffle_pictures. }
  intros shuffled. apply fillRowMajor_keeps, validPositions_inPlay.
Qed.

Lemma placeTemplate_keeps slots letterPairs :
  Forall (λ p, inPlay cols rows p ∧ inPlay cols rows (p.1, p.2 + 1)) slots →
  keeps boardOK (placeTemplate slots letterPairs).
Proof.
  revert letterPairs. induction slots as [|p slots IH]; intros letterPairs Hall.
  { apply keeps_ret. }
  destruct letterPairs as [|lp rest]; [apply keeps_ret|]. cbn [placeTemplate].
  apply Forall_cons in Hall as [[Hp Hq] Hall].
  apply keeps_bind; [apply placeLetter_keeps; intros ? [= <-]; by destruct p|]. intros _.
  apply keeps_bind; [apply placeLetter_keeps; by intros ? [= <-]|]. intros _. by apply IH.
Qed.

Lemma templateSlots_inPlay :
  Forall (λ p, inPlay cols rows p ∧ inPlay cols rows (p.1, p.2 + 1))
    (everyOtherColumn rows (cols - 3)).
Proof.
  apply Forall_forall. intros p Hp.
  apply (elem_of_everyOtherColumn cols) in Hp as [[Hy Hx] Hlt]; [|lia].
  unfold inPlay in *. simpl. lia.
Qed.

Lemma generateSolvableTemplate_makes : makes boardOK (generateSolvableTemplate cols rows t).
Proof.
  apply makes_keeps_bind; [apply initializeEmptyMap_makes|]. intros _.
  apply keeps_bind.
  { apply (keepsPictures_keeps (gridOK cols rows)), generateLetterPairs_pictures. }
  intros letters. apply placeTemplate_keeps, templateSlots_inPlay.
Qed.

Lemma isSolvable_keeps : keeps boardOK (isSolvable cols rows).
Proof. apply (keepsPictures_keeps (gridOK cols rows)), isSolvable_keepsPictures. Qed.

Lemma emit_keeps ev : keeps boardOK (emit ev).
Proof. apply (keepsPictures_keeps (gridOK cols rows)), emit_pictures. Qed.

Lemma generateRandomMapLoop_makes budget attempts :
  (0 < budget)%nat → makes boardOK (generateRandomMapLoop cols rows t budget attempts).
Proof.
  revert attempts. induction budget as [|budget IH]; intros attempts Hb; [lia|].
  cbn [generateRandomMapLoop].
  apply makes_keeps_bind; [apply initializeEmptyMap_makes|]. intros _.
  apply keeps_bind.
  { destruct (_ <? _); [apply generateMapWithEdgePriority_keeps
                       |apply generateMapTraditional_keeps]. }
  intros _. apply keeps_bind; [apply isSolvable_keeps|]. intros solvable.
  destruct (_ && _); [|apply keeps_ret].
  destruct budget as [|budget']; [apply keeps_ret|].
  intros b a b' _. apply IH; [lia|done].
Qed.

Lemma generateRandomMap_makes : makes boardOK (generateRandomMap cols rows t).
Proof.
  apply makes_keeps_bind; [apply generateRandomMapLoop_makes; lia|]. intros attempts.
  apply hoare_when; [|done]. intros _.
  apply keeps_bind; [apply emit_keeps|]. intros _.
  intros b a b' _. by apply generateSolvableTemplate_makes.
Qed.

Lemma createMapLoop_makes budget attempts :
  (0 < budget)%nat → makes boardOK (createMapLoop cols rows t budget attempts).
Proof.
  revert attempts. induction budget as [|budget IH]; intros attempts Hb; [lia|].
  cbn [createMapLoop].
  apply makes_keeps_bind; [apply generateRandomMap_makes|]. intros _.
  apply keeps_bind; [apply isSolvable_keeps|]. intros solvable.
  destruct (_ && _); [|apply keeps_ret].
  destruct budget as [|budget']; [apply keeps_ret|].
  intros b a b' _. apply IH; [lia|done].
Qed.

Lemma createMap_makes : makes boardOK (createMap cols rows t).
Proof.
  apply makes_keeps_bind; [apply createMapLoop_makes; lia|]. intros attempts.
  apply keeps_when, emit_keeps.
Qed.

Lemma assignCharacter_gridOK p ch g :
  inPlay cols rows p → gridOK cols rows g → gridOK cols rows (assignCharacter p ch g).
Proof. intros. apply gridOK_updCell_inPlay; [by destruct p|done]. Qed.

Lemma assignAll_gridOK positions characters g :
  Forall (inPlay cols rows) positions → gridOK cols rows g →
  gridOK cols rows (assignAll positions characters g).
Proof.
  revert characters g.
  induction positions as [|p positions IH]; intros characters g Hall Hg; simpl; [done|].
  destruct characters as [|ch characters]; [done|].
  apply Forall_cons in Hall as [Hp Hall]. apply IH; [done|].
  by apply assignCharacter_gridOK.
Qed.

Lemma smartDisorderEdgeFirst_keeps : keeps boardOK (smartDisorderEdgeFirst cols rows).
Proof.
  apply keeps_bind; [apply keeps_gets|]. intros g.
  apply keeps_bind.
  { apply (keepsPictures_keeps (gridOK cols rows)), shuffle_pictures. }
  intros shuffled. apply keeps_modify. intros b Hb.
  apply assignAll_gridOK; [|done]. apply sortByEdge_inPlay, occupiedPositions_inPlay.
Qed.

Lemma spreadGroups_keeps positions groups charIndex :
  Forall (inPlay cols rows) positions →
  keeps boardOK (spreadGroups positions groups charIndex).
Proof.
  intros Hall. revert charIndex.
  induction groups as [|group rest IH]; intros charIndex; cbn [spreadGroups];
    [apply keeps_ret|].
  destruct (positions !! (charIndex mod length positions)%nat) as [pos1|] eqn:H1;
    [|apply keeps_throw].
  destruct (positions !! ((charIndex + length positions / 2) mod length positions)%nat)
    as [pos2|] eqn:H2; [|apply keeps_throw].
  eapply Forall_lookup_1 in H1; [|done]. eapply Forall_lookup_1 in H2; [|done].
  apply keeps_bind.
  { apply keeps_modify. intros b Hb. by apply assignCharacter_gridOK. }
  intros _. apply keeps_bind.
  { apply keeps_modify. intros b Hb. by apply assignCharacter_gridOK. }
  intros _. apply IH.
Qed.

Lemma smartDisorderSpread_keeps : keeps boardOK (smartDisorderSpread cols rows).
Proof.
  apply keeps_bind; [apply keeps_gets|]. intros g.
  apply spreadGroups_keeps, occupiedPositions_inPlay.
Qed.

Lemma randomDisorder_keeps : keeps boardOK (randomDisorder cols rows).
Proof.
  apply keeps_bind; [apply keeps_gets|]. intros g.
  apply keeps_bind.
  { apply (keepsPictures_keeps (gridOK cols rows)), shuffle_pictures. }
  intros shuffled. apply keeps_modify. intros b Hb.
  apply assignAll_gridOK; [|done]. apply occupiedPositions_inPlay.
Qed.

Lemma linearLoop_gridOK slots pairs g :
  Forall (inPlay cols rows) slots → gridOK cols rows g →
  gridOK cols rows (linearLoop cols slots pairs g).
Proof.
  revert pairs g. induction slots as [|p slots IH]; intros pairs g Hall Hg; simpl; [done|].
  destruct pairs as [|pr pairs]; [done|].
  apply Forall_cons in Hall as [Hp Hall].
  destruct (_ && _); [|by apply IH].
  apply IH; [done|].
  destruct (Z.ltb_spec (p.2 + 1) (cols - 1)).
  - apply assignCharacter_gridOK; [|by apply assignCharacter_gridOK].
    destruct Hp. split; simpl; lia.
  - by apply assignCharacter_gridOK.
Qed.

Lemma generateLinearLayout_keeps : keeps boardOK (generateLinearLayout cols rows).
Proof.
  apply keeps_bind; [apply emit_keeps|]. intros _.
  apply keeps_bind; [apply keeps_gets|]. intros g.
  apply keeps_modify. intros b Hb. apply linearLoop_gridOK; [|done].
  apply Forall_forall. intros p Hp.
  by apply (elem_of_everyOtherColumn cols) in Hp as [? _]; [|lia].
Qed.

Lemma forceGenerateSolvableLayout_makes :
  makes boardOK (forceGenerateSolvableLayout cols rows t).
Proof.
  apply makes_bind. intros _. apply makes_bind. intros _.
  apply makes_keeps_bind; [apply generateRandomMap_makes|]. intros _.
  apply keeps_bind; [apply isSolvable_keeps|]. intros solvable.
  apply keeps_when, generateLinearLayout_keeps.
Qed.

Lemma renderMap_keeps : keeps boardOK (renderMap cols rows).
Proof. apply (keepsPictures_keeps (gridOK cols rows)), renderMap_pictures. Qed.

Lemma disorderLoop_keeps budget attempts :
  keeps boardOK (disorderLoop cols rows budget attempts).
Proof.
  revert attempts. induction budget as [|budget IH]; intros attempts; [apply keeps_ret|].
  cbn [disorderLoop]. apply keeps_bind.
  { destruct (_ <? _); [apply smartDisorderEdgeFirst_keeps|].
    destruct (_ <? _); [apply smartDisorderSpread_keeps|apply randomDisorder_keeps]. }
  intros _. apply keeps_bind; [apply isSolvable_keeps|]. intros solvable.
  destruct (_ && _); [apply IH|apply keeps_ret].
Qed.

Lemma disorder_keeps : keeps boardOK (disorder cols rows t).
Proof.
  apply keeps_bind; [apply disorderLoop_keeps|]. intros attempts.
  apply keeps_bind; [|intros _; apply renderMap_keeps].
  apply keeps_when, keeps_bind; [apply emit_keeps|]. intros _.
  intros b a b' _. by apply forceGenerateSolvableLayout_makes.
Qed.

Lemma getAvailableMatches_keeps : keeps boardOK (getAvailableMatches cols rows).
Proof. apply (keepsPictures_keeps (gridOK cols rows)), getAvailableMatches_pictures. Qed.

End Border.

(** * The border through a session *)

(** *** Triples for the engine *)

Lemma hoare_get_bind {S B} (P : S → Prop) (k : S → M S B) (R : B → S → Prop) :
  (∀ e, P e → hoare (λ s, s = e) (k e) R) → hoare P (gets id ≫= k) R.
Proof.
  intros H. eapply (hoare_bind _ (λ a s, a = s ∧ P s)).
  - apply hoare_gets. auto.
  - intros a s b s' [<- Hs]. by apply H.
Qed.

Lemma hoare_at {S A} (P : S → Prop) (m : M S A) (Q : A → S → Prop) e :
  P e → hoare P m Q → hoare (λ s, s = e) m Q.
Proof. intros He H s a s' ->. by apply H. Qed.

Lemma keeps_get_bind {S B} (I : S → Prop) (k : S → M S B) :
  (∀ e, I e → keeps I (k e)) → keeps I (gets id ≫= k).
Proof. intros H. apply hoare_get_bind. intros e He. eapply hoare_at; [done|]. by apply H. Qed.

Lemma onBoard_run {A} (m : M Board A) e a e' :
  onBoard m e = Some (a, e') ↔ ∃ b', m (board e) = Some (a, b') ∧ e' = setBoard b' e.
Proof.
  unfold onBoard. destruct (m (board e)) as [[a0 b0]|]; split.
  - intros [= <- <-]. eauto.
  - intros (b' & [= <- <-] & ->). done.
  - done.
  - intros (? & [=] & _).
Qed.

Lemma keeps_onBoard c r {A} (m : M Board A) :
  keeps (boardOK c r) m → keeps (engineOK c r) (onBoard m).
Proof.
  intros Hm e a e' (Hc & Hr & Hg) (b' & Hrun & ->)%onBoard_run.
  split_and!; [done..|]. by eapply Hm.
Qed.

Lemma makes_onBoard c r {A} (m : M Board A) :
  makes (boardOK c r) m → hoare (configured c r) (onBoard m) (λ _, engineOK c r).
Proof.
  intros Hm e a e' [Hc Hr] (b' & Hrun & ->)%onBoard_run.
  split_and!; [done..|]. by eapply Hm.
Qed.

Lemma configured_onBoard c r {A} (m : M Board A) : keeps (configured c r) (onBoard m).
Proof. by intros e a e' [Hc Hr] (b' & Hrun & ->)%onBoard_run. Qed.

Ltac field_step :=
  apply keeps_modify; intros ? ?; first [assumption | by destruct_and?; split_and!].

Section EngineBorder.

Variables (c r : Z).

Lemma notify_keeps ev : keeps (engineOK c r) (notify ev).
Proof. apply keeps_onBoard, emit_keeps. Qed.

Lemma setSelectedCell_keeps cellInfo : keeps (engineOK c r) (setSelectedCell cellInfo).
Proof. apply keeps_bind; [field_step|intros _; apply notify_keeps]. Qed.

Lemma updateScore_keeps : keeps (engineOK c r) updateScore.
Proof. apply keeps_bind; [apply keeps_gets|intros ?; apply notify_keeps]. Qed.

Lemma clearTimer_keeps : keeps (engineOK c r) clearTimer.
Proof. apply keeps_bind; [apply keeps_gets|intros ?; apply keeps_when; field_step]. Qed.

Lemma gameOver_keeps kind : keeps (engineOK c r) (gameOver kind).
Proof.
  apply keeps_bind; [apply clearTimer_keeps|intros _].
  apply keeps_bind; [apply keeps_gets|intros ?; apply notify_keeps].
Qed.

Lemma updateCountDown_keeps : keeps (engineOK c r) updateCountDown.
Proof.
  apply keeps_bind; [field_step|intros _].
  apply keeps_bind; [apply keeps_gets|intros t].
  apply keeps_bind; [apply notify_keeps|intros _]. apply keeps_when, gameOver_keeps.
Qed.

Lemma disorder_engine_keeps e :
  cols e = c → rows e = r →
  keeps (engineOK c r) (onBoard (disorder (cols e) (rows e) (targetLetter e))).
Proof. intros -> ->. apply keeps_onBoard, disorder_keeps. Qed.

Lemma getAvailableMatches_engine_keeps e :
  cols e = c → rows e = r →
  keeps (engineOK c r) (onBoard (getAvailableMatches (cols e) (rows e))).
Proof. intros -> ->. apply keeps_onBoard, getAvailableMatches_keeps. Qed.

Lemma handleDisorder_keeps : keeps (engineOK c r) handleDisorder.
Proof.
  apply keeps_get_bind. intros e (Hc & Hr & _).
  destruct (_ >? _); [|apply keeps_ret].
  apply keeps_bind; [field_step|intros _].
  apply keeps_bind; [by apply disorder_engine_keeps|intros _; apply keeps_ret].
Qed.

Lemma checkCurrentDeadlock_keeps : keeps (engineOK c r) checkCurrentDeadlock.
Proof.
  apply keeps_get_bind. intros e (Hc & Hr & _).
  apply keeps_bind; [by apply getAvailableMatches_engine_keeps|intros ?; apply keeps_ret].
Qed.

Lemma showHint_keeps : keeps (engineOK c r) showHint.
Proof.
  apply keeps_get_bind. intros e (Hc & Hr & _).
  apply keeps_bind; [by apply getAvailableMatches_engine_keeps|intros [|??]].
  - apply keeps_ret.
  - apply notify_keeps.
Qed.

Lemma autoDisorder_keeps : keeps (engineOK c r) autoDisorder.
Proof.
  apply keeps_get_bind. intros e (Hc & Hr & _).
  destruct (_ || _); [apply keeps_ret|].
  apply keeps_bind; [apply notify_keeps|intros _].
  apply keeps_bind; [apply notify_keeps|intros _].
  apply keeps_bind; [field_step|intros _].
  apply keeps_bind; [by apply disorder_engine_keeps|intros _; apply keeps_ret].
Qed.

Lemma updateSteps_keeps : keeps (engineOK c r) updateSteps.
Proof.
  apply keeps_bind; [field_step|intros _].
  apply keeps_bind; [apply keeps_gets|intros n].
  apply keeps_bind; [apply notify_keeps|intros _].
  apply keeps_bind; [apply checkCurrentDeadlock_keeps|intros deadlock].
  apply keeps_bind.
  { apply keeps_when, keeps_bind; [apply autoDisorder_keeps|intros ?].
    apply keeps_when, notify_keeps. }
  intros _. apply keeps_get_bind. intros e _.
  apply keeps_bind; [apply keeps_when, showHint_keeps|intros _].
  apply keeps_when. destruct (_ >? _); apply gameOver_keeps.
Qed.

Lemma readCell_keeps y x : keeps (engineOK c r) (readCell y x).
Proof.
  intros e cell e' He. unfold readCell. destruct (getCell _ _ _); [|done].
  by intros [= <- <-].
Qed.

Lemma markEmpty_keeps y x :
  keeps (engineOK c r)
    (onBoard (modify (λ b, setPictures (updCell (pictures b) y x markEmpty) b))).
Proof. apply keeps_onBoard, keeps_modify. intros b Hb. by apply gridOK_markEmpty. Qed.

Lemma updateStatus_keeps preRow preCol curRow curCol preIndex curIndex :
  keeps (engineOK c r) (updateStatus preRow preCol curRow curCol preIndex curIndex).
Proof.
  apply keeps_bind; [apply readCell_keeps|intros pre].
  apply keeps_bind; [apply readCell_keeps|intros cur].
  apply keeps_get_bind. intros e _.
  apply keeps_bind; [apply keeps_when, notify_keeps|intros _].
  apply keeps_bind; [apply markEmpty_keeps|intros _].
  apply keeps_bind; [apply markEmpty_keeps|intros _].
  apply keeps_when, gameOver_keeps.
Qed.

Lemma invoke_keeps cb : keeps (engineOK c r) (invoke cb).
Proof.
  destruct cb; cbn [invoke]; [| |apply keeps_ret].
  - apply keeps_bind; [apply updateStatus_keeps|intros _].
    apply keeps_get_bind. intros e (Hc & Hr & _). rewrite Hc, Hr.
    apply keeps_bind; [apply keeps_onBoard, renderMap_keeps|intros _].
    apply keeps_bind; [apply updateScore_keeps|intros _].
    apply keeps_bind; [apply updateSteps_keeps|intros _]. field_step.
  - apply keeps_bind; [field_step|intros _].
    apply keeps_bind; [apply setSelectedCell_keeps|intros _].
    apply keeps_bind; [field_step|intros _].
    apply keeps_bind; [apply updateSteps_keeps|intros _]. apply notify_keeps.
Qed.

Lemma drawLine_keeps pts onSuccess onError :
  keeps (engineOK c r) (drawLine pts onSuccess onError).
Proof.
  apply keeps_bind; [apply setSelectedCell_keeps|intros _].
  apply keeps_get_bind. intros e _.
  destruct (onDrawLine e); [apply notify_keeps|apply invoke_keeps].
Qed.

Lemma canCleanupM_keeps x1 y1 x2 y2 : keeps (engineOK c r) (canCleanupM x1 y1 x2 y2).
Proof.
  apply keeps_get_bind. intros e _.
  apply keeps_bind; [|intros _; apply keeps_ret].
  apply keeps_onBoard, keeps_modify. by intros b Hb.
Qed.

Lemma checkMatch_keeps curClickInfo : keeps (engineOK c r) (checkMatch curClickInfo).
Proof.
  apply keeps_bind; [apply readCell_keeps|intros cur].
  destruct (isEmpty cur); [apply keeps_ret|].
  apply keeps_get_bind. intros e _.
  destruct (sameCell _ _ _).
  { apply keeps_bind; [apply setSelectedCell_keeps|intros _]. field_step. }
  destruct (preClickInfo e) as [[preRow preCol preIndex]|].
  2: { apply keeps_bind; [field_step|intros _]. apply setSelectedCell_keeps. }
  apply keeps_bind; [apply readCell_keeps|intros pre].
  destruct (isMatch _ _).
  2: { apply keeps_bind; [field_step|intros _]. apply setSelectedCell_keeps. }
  apply keeps_bind; [apply canCleanupM_keeps|intros connected].
  destruct connected.
  - do 3 (apply keeps_bind; [field_step|intros _]).
    apply keeps_bind; [apply notify_keeps|intros _].
    apply keeps_bind; [apply keeps_gets|intros pts].
    apply keeps_bind; [apply drawLine_keeps|intros _].
    apply keeps_bind; [field_step|intros _]. apply setSelectedCell_keeps.
  - apply keeps_bind; [field_step|intros _].
    apply keeps_bind; [apply notify_keeps|intros _]. apply drawLine_keeps.
Qed.

Lemma handleCellClick_keeps y x i : keeps (engineOK c r) (handleCellClick y x i).
Proof.
  apply keeps_get_bind. intros e _.
  destruct (_ <=? _); [apply keeps_ret|]. destruct (isAnimating e); [apply keeps_ret|].
  apply keeps_bind; [apply notify_keeps|intros _]. apply checkMatch_keeps.
Qed.

Lemma tick_keeps : keeps (engineOK c r) tick.
Proof.
  apply keeps_bind; [apply keeps_gets|intros running].
  apply keeps_when, updateCountDown_keeps.
Qed.

Lemma init_makes : hoare (configured c r) init (λ _, engineOK c r).
Proof.
  unfold init.
  do 2 (eapply hoare_bind; [apply keeps_modify; by intros ? []|intros ?; cbv beta]).
  eapply hoare_bind; [apply configured_onBoard|intros ?; cbv beta].
  do 2 (eapply hoare_bind; [apply keeps_modify; by intros ? []|intros ?; cbv beta]).
  eapply hoare_bind; [apply configured_onBoard|intros ?; cbv beta].
  eapply hoare_bind; [apply keeps_modify; by intros ? []|intros ?; cbv beta].
  eapply hoare_bind.
  { apply keeps_bind; [apply keeps_modify; by intros ? []|intros _].
    apply configured_onBoard. }
  intros ?; cbv beta. eapply hoare_bind.
  { apply keeps_bind; [apply keeps_gets|intros ?].
    apply keeps_when, keeps_modify. by intros ? []. }
  intros ?; cbv beta. do 2 (eapply hoare_bind; [apply keeps_modify; by intros ? []|intros ?; cbv beta]).
  apply hoare_get_bind. intros e [Hc Hr]. rewrite Hc, Hr.
  eapply (hoare_at (configured c r)); [done|].
  eapply hoare_bind; [apply makes_onBoard, createMap_makes|intros ?; cbv beta].
  eapply hoare_bind; [apply keeps_onBoard, disorder_keeps|intros ?; cbv beta].
  eapply hoare_bind; [apply keeps_gets|intros g; cbv beta].
  eapply hoare_bind; [field_step|intros ?; cbv beta]. apply updateScore_keeps.
Qed.

Lemma restartGame_makes : hoare (configured c r) restartGame (λ _, engineOK c r).
Proof.
  unfold restartGame.
  do 3 (eapply hoare_bind; [apply keeps_modify; by intros ? []|intros ?; cbv beta]).
  eapply hoare_bind.
  { apply keeps_bind; [apply keeps_modify; by intros ? []|intros _].
    apply configured_onBoard. }
  intros ?; cbv beta. eapply hoare_bind; [apply init_makes|intros ?; cbv beta].
  eapply hoare_bind; [apply keeps_gets|intros ?; cbv beta].
  eapply hoare_bind; [apply notify_keeps|intros ?; cbv beta].
  eapply hoare_bind; [apply keeps_gets|intros ?; cbv beta]. apply notify_keeps.
Qed.

Lemma engineOK_configured e : engineOK c r e → configured c r e.
Proof. by intros (? & ? & _). Qed.

Lemma perform_keeps a : keeps (engineOK c r) (perform a).
Proof.
  destruct a; cbn [perform].
  - apply handleCellClick_keeps.
  - apply invoke_keeps.
  - apply tick_keeps.
  - apply keeps_bind; [apply handleDisorder_keeps|intros ?; apply keeps_ret].
  - eapply hoare_conseq; [apply init_makes|apply engineOK_configured|done].
  - eapply hoare_conseq; [apply restartGame_makes|apply engineOK_configured|done].
  - unfold setTargetLetter. field_step.
  - apply clearTimer_keeps.
Qed.

Lemma performAll_keeps actions e e' :
  engineOK c r e → performAll actions e = Some e' → engineOK c r e'.
Proof.
  revert e. induction actions as [|a actions IH]; intros e He; simpl.
  { by intros [= <-]. }
  destruct (perform a e) as [[[] e1]|] eqn:Hrun; [|done].
  apply IH. by eapply perform_keeps.
Qed.

End EngineBorder.

(** C7: in every state reached after [startGame], every cell of row 0, row
    [rows - 1], column 0 and column [cols - 1] is the empty cell. *)
Theorem border_always_empty actions e0 e y x :
  performAll (Start :: actions) e0 = Some e →
  0 ≤ y < rows e → 0 ≤ x < cols e →
  y = 0 ∨ y = rows e - 1 ∨ x = 0 ∨ x = cols e - 1 →
  getCell (pictures (board e)) y x = Some emptyCell.
Proof.
  cbn [performAll perform]. unfold startGame.
  destruct (init e0) as [[[] e1]|] eqn:Hinit; [|done]. intros Hrun.
  assert (engineOK (cols e0) (rows e0) e1) as H1.
  { by eapply (init_makes (cols e0) (rows e0)). }
  apply (performAll_keeps _ _ _ _ _ H1) in Hrun as (Hc & Hr & _ & Hb).
  rewrite Hc, Hr. apply Hb.
Qed.

(** * What a method leaves alone *)

(** *** What a method leaves alone *)

Lemma bind_run {S A B} (m : M S A) (k : A → M S B) s b s' :
  (m ≫= k) s = Some (b, s') ↔ ∃ a s1, m s = Some (a, s1) ∧ k a s1 = Some (b, s').
Proof.
  unfold mbind, M_bind. destruct (m s) as [[a s1]|]; split.
  - eauto.
  - by intros (? & ? & [= <- <-] & ?).
  - done.
  - by intros (? & ? & [=] & _).
Qed.

Lemma frames_bind {X A B} (π : Engine → X) (m : M Engine A) (k : A → M Engine B) :
  frames π m → (∀ a, frames π (k a)) → frames π (m ≫= k).
Proof.
  intros Hm Hk e b e' (a & e1 & H1 & H2)%bind_run.
  rewrite (Hk _ _ _ _ H2). by eapply Hm.
Qed.

Lemma frames_ret {X A} (π : Engine → X) (a : A) : frames π (mret a).
Proof. by intros e a' e' [= <- <-]. Qed.

Lemma frames_gets {X A} (π : Engine → X) (f : Engine → A) : frames π (gets f).
Proof. by intros e a' e' [= <- <-]. Qed.

Lemma frames_throw {X A} (π : Engine → X) : frames π (throw : M Engine A).
Proof. by intros e a e' [=]. Qed.

Lemma frames_when {X} (π : Engine → X) c m : frames π m → frames π (when c m).
Proof. destruct c; [done|]. intros _. apply frames_ret. Qed.

Lemma frames_modify {X} (π : Engine → X) f :
  (∀ e, π (f e) = π e) → frames π (modify f).
Proof. intros H e a e' [= <- <-]. apply H. Qed.

Lemma frames_onBoard {X A} (π : Engine → X) (m : M Board A) :
  (∀ e b, π (setBoard b e) = π e) → frames π (onBoard m).
Proof. intros H e a e' (b' & _ & ->)%onBoard_run. apply H. Qed.

Lemma frames_readCell {X} (π : Engine → X) y x : frames π (readCell y x).
Proof.
  intros e a e'. unfold readCell. destruct (getCell _ _ _); [|done]. by intros [= <- <-].
Qed.

Create HintDb frames discriminated.

Ltac frames_step :=
  lazymatch goal with
  | |- frames _ (mbind _ _) => apply frames_bind; [|intros ?]
  | |- frames _ (mret _) => apply frames_ret
  | |- frames _ (gets _) => apply frames_gets
  | |- frames _ throw => apply frames_throw
  | |- frames _ (when _ _) => apply frames_when
  | |- frames _ (modify _) => apply frames_modify; intros ?; reflexivity
  | |- frames _ (onBoard _) => apply frames_onBoard; intros ? ?; reflexivity
  | |- frames _ (notify _) => apply frames_onBoard; intros ? ?; reflexivity
  | |- frames _ (readCell _ _) => apply frames_readCell
  | |- frames _ (if ?c then _ else _) => destruct c
  | |- frames _ (match ?x with _ => _ end) => destruct x
  | |- frames _ _ =>
      first [ solve [auto with frames]
            | progress unfold addShakeEffect, clearHint, destroy, reset, startGame,
                setTargetLetter ]
  end.

Ltac frames_auto := repeat frames_step.

(** The step counter is touched by [updateSteps] and [restartGame] only. *)
Lemma setSelectedCell_steps c : frames steps (setSelectedCell c).
Proof. unfold setSelectedCell. frames_auto. Qed.
Lemma updateScore_steps : frames steps updateScore.
Proof. unfold updateScore. frames_auto. Qed.
Lemma clearTimer_steps : frames steps clearTimer.
Proof. unfold clearTimer. frames_auto. Qed.
#[export] Hint Resolve setSelectedCell_steps updateScore_steps clearTimer_steps : frames.
Lemma gameOver_steps kind : frames steps (gameOver kind).
Proof. unfold gameOver. frames_auto. Qed.
#[export] Hint Resolve gameOver_steps : frames.
Lemma updateCountDown_steps : frames steps updateCountDown.
Proof. unfold updateCountDown. frames_auto. Qed.
Lemma checkCurrentDeadlock_steps : frames steps checkCurrentDeadlock.
Proof. unfold checkCurrentDeadlock. frames_auto. Qed.
Lemma showHint_steps : frames steps showHint.
Proof. unfold showHint. frames_auto. Qed.
Lemma autoDisorder_steps : frames steps autoDisorder.
Proof. unfold autoDisorder. frames_auto. Qed.
Lemma handleDisorder_steps : frames steps handleDisorder.
Proof. unfold handleDisorder. frames_auto. Qed.
Lemma updateStatus_steps a b c d i j : frames steps (updateStatus a b c d i j).
Proof. unfold updateStatus. frames_auto. Qed.
Lemma canCleanupM_steps a b c d : frames steps (canCleanupM a b c d).
Proof. unfold canCleanupM. frames_auto. Qed.
Lemma init_steps : frames steps init.
Proof. unfold init. frames_auto. Qed.
#[export] Hint Resolve updateCountDown_steps checkCurrentDeadlock_steps showHint_steps
  autoDisorder_steps handleDisorder_steps updateStatus_steps canCleanupM_steps
  init_steps : frames.
Lemma tick_steps : frames steps tick.
Proof. unfold tick. frames_auto. Qed.
#[export] Hint Resolve tick_steps : frames.

(** Apply to a run of [m] that [m] frames [π], found by [frames_auto]. *)
Ltac frame_of π H :=
  match type of H with
  | ?m _ = Some _ =>
      let Hf := fresh "Hf" in
      assert (frames π m) as Hf by frames_auto;
      apply Hf in H
  end.

(** [updateSteps] adds one. *)
Lemma updateSteps_steps e e' :
  updateSteps e = Some (tt, e') → steps e' = steps e + 1.
Proof.
  unfold updateSteps. intros (a & e1 & [= <- <-] & Hrest)%bind_run.
  frame_of steps Hrest. by rewrite Hrest.
Qed.

Lemma gets_bind {S A B} (f : S → A) (k : A → M S B) s : (gets f ≫= k) s = k (f s) s.
Proof. done. Qed.

Lemma get_bind {S B} (k : S → M S B) s : (gets id ≫= k) s = k s s.
Proof. done. Qed.

Lemma modify_bind {S B} (f : S → S) (k : unit → M S B) s :
  (modify f ≫= k) s = k tt (f s).
Proof. done. Qed.

Lemma invoke_steps cb e e' :
  invoke cb e = Some (tt, e') →
  steps e' = match cb with Noop => steps e | _ => steps e + 1 end.
Proof.
  destruct cb; cbn [invoke].
  - intros (a & e1 & H1 & H2)%bind_run. rewrite get_bind in H2.
    apply bind_run in H2 as (? & e3 & H3 & H4).
    apply bind_run in H4 as (? & e4 & H4 & H5).
    apply bind_run in H5 as ([] & e5 & H5 & [= <-]).
    apply updateSteps_steps in H5. frame_of steps H1. frame_of steps H3.
    frame_of steps H4. cbn [steps setIsAnimating]. congruence.
  - rewrite modify_bind. intros (a & e1 & H1 & H2)%bind_run. rewrite modify_bind in H2.
    apply bind_run in H2 as ([] & e4 & H4 & H5).
    apply updateSteps_steps in H4. frame_of steps H1. frame_of steps H5.
    cbn [steps setIsAnimating setPreClickInfo] in *. congruence.
  - by intros [= <-].
Qed.

Lemma setSelectedCell_onDrawLine c : frames onDrawLine (setSelectedCell c).
Proof. unfold setSelectedCell. frames_auto. Qed.

Lemma drawLine_steps pts onSuccess onError e e' :
  drawLine pts onSuccess onError e = Some (tt, e') →
  steps e' = if onDrawLine e then steps e
             else match onSuccess with Noop => steps e | _ => steps e + 1 end.
Proof.
  unfold drawLine. intros (a & e1 & H1 & H2)%bind_run. rewrite get_bind in H2.
  rewrite <-(setSelectedCell_onDrawLine _ _ _ _ H1).
  frame_of steps H1. rewrite <-H1. destruct (onDrawLine e1).
  - by frame_of steps H2.
  - by apply invoke_steps in H2.
Qed.

(** A click adds at most one step, and only through an acknowledged match. *)
Lemma checkMatch_steps click e e' :
  checkMatch click e = Some (tt, e') → steps e ≤ steps e' ≤ steps e + 1.
Proof.
  unfold checkMatch. intros (cur & e1 & H1 & H2)%bind_run.
  frame_of steps H1. rewrite <-H1. clear H1.
  destruct (isEmpty cur); [injection H2 as <-; lia|].
  rewrite get_bind in H2.
  destruct (sameCell _ _ _); [frame_of steps H2; lia|].
  destruct (preClickInfo e1) as [[preRow preCol preIndex]|];
    [|frame_of steps H2; lia].
  apply bind_run in H2 as (pre & e2 & H2 & H3). frame_of steps H2. rewrite <-H2. clear H2.
  destruct (isMatch _ _); [|frame_of steps H3; lia].
  apply bind_run in H3 as (connected & e3 & H3 & H4).
  frame_of steps H3. rewrite <-H3. clear H3. destruct connected.
  - rewrite !modify_bind in H4.
    apply bind_run in H4 as (? & e4 & H4 & H5). frame_of steps H4.
    rewrite gets_bind in H5.
    apply bind_run in H5 as ([] & e5 & H5 & H6). apply drawLine_steps in H5.
    frame_of steps H6. cbn [steps setIsAnimating setRemain setScore] in *.
    destruct (onDrawLine e4); lia.
  - rewrite !modify_bind in H4.
    apply bind_run in H4 as (? & e4 & H4 & H5). frame_of steps H4.
    apply drawLine_steps in H5. cbn [steps setIsAnimating] in *.
    destruct (onDrawLine e4); lia.
Qed.

Lemma handleCellClick_steps y x i e e' :
  handleCellClick y x i e = Some (tt, e') → steps e ≤ steps e' ≤ steps e + 1.
Proof.
  unfold handleCellClick. rewrite get_bind. intros H.
  destruct (_ <=? _); [injection H as <-; lia|].
  destruct (isAnimating e); [injection H as <-; lia|].
  apply bind_run in H as (? & e1 & H1 & H2). frame_of steps H1.
  apply checkMatch_steps in H2. lia.
Qed.

Lemma startGame_init : startGame = init.
Proof. reflexivity. Qed.

Lemma perform_steps a e e' :
  a ≠ Restart → perform a e = Some (tt, e') → steps e ≤ steps e' ≤ steps e + 1.
Proof.
  intros Ha. destruct a; cbn [perform]; try done.
  - apply handleCellClick_steps.
  - intros H%invoke_steps. destruct cb; lia.
  - intros H. frame_of steps H. lia.
  - intros H. frame_of steps H. lia.
  - rewrite startGame_init. intros H. frame_of steps H. lia.
  - intros H. frame_of steps H. lia.
  - intros H. frame_of steps H. lia.
Qed.

Lemma performAll_steps actions e e' :
  Restart ∉ actions → performAll actions e = Some e' → steps e ≤ steps e'.
Proof.
  revert e. induction actions as [|a actions IH]; intros e Hno; simpl.
  { intros [= <-]. lia. }
  destruct (perform a e) as [[[] e1]|] eqn:Hrun; [|done]. intros Hrest.
  apply perform_steps in Hrun; [|intros ->; apply Hno; left].
  apply IH in Hrest; [lia|]. intros ?. apply Hno. by right.
Qed.

Lemma frames_onBoard_grid {A} (m : M Board A) :
  keepsPictures m → frames grid (onBoard m).
Proof. intros Hm e a e' (b' & Hrun & ->)%onBoard_run. by apply Hm in Hrun. Qed.

Create HintDb pictures discriminated.
#[export] Hint Resolve emit_pictures draw_pictures getAvailableMatches_pictures
  renderMap_pictures isSolvable_keepsPictures : pictures.

Lemma modify_points_pictures pts : keepsPictures (modify (setPoints pts)).
Proof. by intros b a b' [= <- <-]. Qed.
#[export] Hint Resolve modify_points_pictures : pictures.

Ltac grid_step :=
  lazymatch goal with
  | |- frames grid (onBoard _) => apply frames_onBoard_grid; solve [auto with pictures]
  | |- frames grid (notify _) => apply frames_onBoard_grid; solve [auto with pictures]
  | |- _ => frames_step
  end.

Ltac grid_auto := repeat grid_step.

(** The same for the fields that the board holds. *)
Ltac frame_in π H :=
  match type of H with
  | ?m _ = Some _ =>
      let Hf := fresh "Hf" in
      assert (frames π m) as Hf by grid_auto;
      apply Hf in H
  end.

Lemma setSelectedCell_grid c : frames grid (setSelectedCell c).
Proof. unfold setSelectedCell. grid_auto. Qed.
Lemma updateScore_grid : frames grid updateScore.
Proof. unfold updateScore. grid_auto. Qed.
Lemma clearTimer_grid : frames grid clearTimer.
Proof. unfold clearTimer. grid_auto. Qed.
#[export] Hint Resolve setSelectedCell_grid updateScore_grid clearTimer_grid : frames.
Lemma gameOver_grid kind : frames grid (gameOver kind).
Proof. unfold gameOver. grid_auto. Qed.
#[export] Hint Resolve gameOver_grid : frames.
Lemma checkCurrentDeadlock_grid : frames grid checkCurrentDeadlock.
Proof. unfold checkCurrentDeadlock. grid_auto. Qed.
Lemma showHint_grid : frames grid showHint.
Proof. unfold showHint. grid_auto. Qed.
Lemma updateCountDown_grid : frames grid updateCountDown.
Proof. unfold updateCountDown. grid_auto. Qed.
#[export] Hint Resolve checkCurrentDeadlock_grid showHint_grid updateCountDown_grid : frames.
Lemma tick_grid : frames grid tick.
Proof. unfold tick. grid_auto. Qed.

Lemma setSelectedCell_credits c : frames leftDisorderTime (setSelectedCell c).
Proof. unfold setSelectedCell. frames_auto. Qed.
Lemma updateScore_credits : frames leftDisorderTime updateScore.
Proof. unfold updateScore. frames_auto. Qed.
Lemma clearTimer_credits : frames leftDisorderTime clearTimer.
Proof. unfold clearTimer. frames_auto. Qed.
#[export] Hint Resolve setSelectedCell_credits updateScore_credits clearTimer_credits
  : frames.
Lemma gameOver_credits kind : frames leftDisorderTime (gameOver kind).
Proof. unfold gameOver. frames_auto. Qed.
#[export] Hint Resolve gameOver_credits : frames.
Lemma checkCurrentDeadlock_credits : frames leftDisorderTime checkCurrentDeadlock.
Proof. unfold checkCurrentDeadlock. frames_auto. Qed.
Lemma showHint_credits : frames leftDisorderTime showHint.
Proof. unfold showHint. frames_auto. Qed.
Lemma updateStatus_credits a b c d i j : frames leftDisorderTime (updateStatus a b c d i j).
Proof. unfold updateStatus. frames_auto. Qed.
#[export] Hint Resolve checkCurrentDeadlock_credits showHint_credits updateStatus_credits
  : frames.

(** The automatic reshuffle either does nothing or costs one credit. *)
Lemma autoDisorder_effect e ok e' :
  autoDisorder e = Some (ok, e') →
  (grid e' = grid e ∧ leftDisorderTime e' = leftDisorderTime e)
  ∨ leftDisorderTime e' = leftDisorderTime e - 1.
Proof.
  unfold autoDisorder. rewrite get_bind.
  destruct (_ || _); [intros [= <- <-]; by left|]. intros H. right.
  apply bind_run in H as (? & e1 & H1 & H). frame_in leftDisorderTime H1.
  apply bind_run in H as (? & e2 & H2 & H). frame_in leftDisorderTime H2.
  rewrite modify_bind in H. frame_in leftDisorderTime H.
  cbn [leftDisorderTime setLeftDisorderTime] in H. congruence.
Qed.

Lemma updateSteps_grid e e' :
  updateSteps e = Some (tt, e') →
  (grid e' = grid e ∧ leftDisorderTime e' = leftDisorderTime e)
  ∨ leftDisorderTime e' = leftDisorderTime e - 1.
Proof.
  unfold updateSteps. rewrite modify_bind, gets_bind.
  intros (? & e1 & H1 & H)%bind_run.
  pose proof H1 as H1'. frame_in grid H1. frame_in leftDisorderTime H1'.
  apply bind_run in H as (deadlock & e2 & H2 & H).
  pose proof H2 as H2'. frame_in grid H2. frame_in leftDisorderTime H2'.
  apply bind_run in H as (? & e3 & H3 & H).
  pose proof H as H'. frame_in grid H. frame_in leftDisorderTime H'.
  assert ((grid e3 = grid e2 ∧ leftDisorderTime e3 = leftDisorderTime e2)
          ∨ leftDisorderTime e3 = leftDisorderTime e2 - 1) as Hauto.
  { destruct deadlock; [|cbv [when mret M_ret] in H3; injection H3 as _ <-; by left].
    cbn [when] in H3. apply bind_run in H3 as (ok & e4 & H4 & H5).
    apply autoDisorder_effect in H4.
    pose proof H5 as H5'. frame_in grid H5. frame_in leftDisorderTime H5'.
    unfold grid in *. destruct H4 as [[]|]; [left|right]; split_and?; congruence. }
  unfold grid in *. cbn [steps board leftDisorderTime setSteps] in *.
  destruct Hauto as [[]|]; [left|right]; split_and?; congruence.
Qed.

(** * Clicks *)

Ltac fields :=
  cbn [score steps cols rows configInitialTime leftDisorderTime autoDisorderEnabled
       isAnimating selectedCell count remain preClickInfo leftTime timer timerRunning
       targetLetter onDrawLine board
       setScore setSteps setLeftDisorderTime setIsAnimating setSelected setCount setRemain
       setPreClickInfo setLeftTime setTimer setTimerRunning setTarget setOnDrawLine setBoard
       pictures points random log setPictures setPoints setRandom addLog].

Lemma notify_bind {B} ev (k : unit → M Engine B) e :
  (notify ev ≫= k) e = k tt (setBoard (addLog ev (board e)) e).
Proof. done. Qed.

Lemma notify_run ev e : notify ev e = Some (tt, setBoard (addLog ev (board e)) e).
Proof. done. Qed.

Lemma readCell_bind {B} y x (k : CellInfo → M Engine B) e cell :
  getCell (pictures (board e)) y x = Some cell → (readCell y x ≫= k) e = k cell e.
Proof. intros H. unfold mbind, M_bind, readCell. by rewrite H. Qed.

Lemma setSelectedCell_bind {B} c (k : unit → M Engine B) e :
  (setSelectedCell c ≫= k) e
  = k tt (setBoard (addLog (SelectedCellChange c) (board (setSelected c e)))
            (setSelected c e)).
Proof. done. Qed.

Lemma setSelectedCell_run c e :
  setSelectedCell c e
  = Some (tt, setBoard (addLog (SelectedCellChange c) (board (setSelected c e)))
                (setSelected c e)).
Proof. done. Qed.

Lemma canCleanupM_bind {B} x1 y1 x2 y2 (k : bool → M Engine B) e :
  (canCleanupM x1 y1 x2 y2 ≫= k) e
  = k (bool_decide (is_Some (canCleanup (cols e) (rows e) (pictures (board e)) x1 y1 x2 y2)))
      (setBoard
         (setPoints (default [] (canCleanup (cols e) (rows e) (pictures (board e))
                                   x1 y1 x2 y2)) (board e)) e).
Proof. done. Qed.

Lemma bind_bind {S A B C} (m : M S A) (k : A → M S B) (k' : B → M S C) s :
  ((m ≫= k) ≫= k') s = (m ≫= λ a, k a ≫= k') s.
Proof. unfold mbind, M_bind. by destruct (m s) as [[]|]. Qed.

Ltac click_start Hc :=
  destruct Hc as [_ Hplay Hidle Hfirst Hother Hcur Hocc Hpre];
  unfold handleCellClick, clearHint, checkMatch;
  rewrite get_bind;
  rewrite (proj2 (Z.leb_gt _ _) Hplay), Hidle;
  rewrite notify_bind; cbn [row col clickIndex];
  erewrite readCell_bind by (fields; exact Hcur);
  rewrite Hocc, get_bind; fields; rewrite Hother, Hfirst.

(** The second click does not match: it becomes the first pick. *)
Lemma handleCellClick_mismatch e r c i pre cur first :
  SecondClick e r c pre cur first →
  isMatch (pic pre) (pic cur) = false →
  ∃ e', handleCellClick r c i e = Some (tt, e')
        ∧ steps e' = steps e ∧ score e' = score e ∧ remain e' = remain e
        ∧ grid e' = grid e ∧ isAnimating e' = false
        ∧ preClickInfo e' = Some (mkClick r c i)
        ∧ selectedCell e' = Some (mkClick r c i)
        ∧ log (board e')
          = log (board e) ++ [Hint []; SelectedCellChange (Some (mkClick r c i))].
Proof.
  intros Hc Hm. click_start Hc. destruct first as [pr pc pi]. cbn [row col] in Hpre.
  erewrite readCell_bind by (fields; exact Hpre). rewrite Hm.
  rewrite modify_bind, setSelectedCell_run. eexists. split; [reflexivity|].
  unfold grid. fields. rewrite <-!app_assoc. done.
Qed.

(** The second click matches and a path is found. *)
Lemma handleCellClick_connect e r c i pre cur pr pc pi pts :
  SecondClick e r c pre cur (mkClick pr pc pi) →
  isMatch (pic pre) (pic cur) = true →
  canCleanup (cols e) (rows e) (pictures (board e)) pc pr c r = Some pts →
  onDrawLine e = true →
  ∃ e', handleCellClick r c i e = Some (tt, e')
        ∧ score e' = score e + 100 ∧ remain e' = remain e - 2
        ∧ steps e' = steps e ∧ grid e' = grid e ∧ isAnimating e' = true
        ∧ preClickInfo e' = None ∧ selectedCell e' = None
        ∧ log (board e')
          = log (board e)
            ++ [Hint []; AnimationStart [(pr, pc); (r, c)]; SelectedCellChange None;
                DrawLine pts (MatchSuccess pr pc r c pi i) Noop; SelectedCellChange None].
Proof.
  intros Hc Hm Hpath Hdraw. click_start Hc. cbn [row col] in Hpre.
  erewrite readCell_bind by (fields; exact Hpre). rewrite Hm.
  rewrite canCleanupM_bind. fields. rewrite Hpath.
  rewrite bool_decide_true by eauto.
  rewrite !modify_bind, notify_bind, gets_bind. unfold drawLine.
  rewrite bind_bind, setSelectedCell_bind, bind_bind, get_bind. fields. rewrite Hdraw.
  rewrite notify_bind, modify_bind, setSelectedCell_run.
  eexists. split; [reflexivity|]. unfold grid. fields.
  rewrite <-!app_assoc. done.
Qed.

(** The second click matches, no path is found, and no one listens to
    [onDrawLine]. *)
Lemma handleCellClick_rejected_unheard e r c i pre cur pr pc pi :
  SecondClick e r c pre cur (mkClick pr pc pi) →
  isMatch (pic pre) (pic cur) = true →
  canCleanup (cols e) (rows e) (pictures (board e)) pc pr c r = None →
  onDrawLine e = false →
  ∃ e', handleCellClick r c i e = Some (tt, e')
        ∧ isAnimating e' = true ∧ steps e' = steps e ∧ score e' = score e
        ∧ remain e' = remain e ∧ grid e' = grid e
        ∧ preClickInfo e' = Some (mkClick pr pc pi) ∧ selectedCell e' = None
        ∧ log (board e')
          = log (board e)
            ++ [Hint []; ShakeEffect [(pr, pc, pic pre); (r, c, pic cur)];
                SelectedCellChange None].
Proof.
  intros Hc Hm Hpath Hdraw. click_start Hc. cbn [row col] in Hpre.
  erewrite readCell_bind by (fields; exact Hpre). rewrite Hm.
  rewrite canCleanupM_bind. fields. rewrite Hpath.
  rewrite bool_decide_false by (by intros [? [=]]).
  rewrite modify_bind. unfold addShakeEffect. rewrite notify_bind. unfold drawLine.
  rewrite setSelectedCell_bind, get_bind. fields. rewrite Hdraw. cbn [invoke].
  eexists. split; [reflexivity|]. unfold grid. fields.
  rewrite <-!app_assoc. done.
Qed.

(** While an acknowledgment is pending, clicks do nothing at all. *)
Lemma handleCellClick_locked e r c i :
  isAnimating e = true → handleCellClick r c i e = Some (tt, e).
Proof.
  intros H. unfold handleCellClick. rewrite get_bind, H. by destruct (_ <=? _).
Qed.

(** *** Acknowledging a match *)

Lemma onBoard_modify_bind {B} f (k : unit → M Engine B) e :
  (onBoard (modify f) ≫= k) e = k tt (setBoard (f (board e)) e).
Proof. done. Qed.

Lemma updateStatus_grid preRow preCol curRow curCol preIndex curIndex e e' :
  updateStatus preRow preCol curRow curCol preIndex curIndex e = Some (tt, e') →
  grid e' = updCell (updCell (grid e) preRow preCol markEmpty) curRow curCol markEmpty
  ∧ is_Some (getCell (grid e) preRow preCol)
  ∧ is_Some (getCell (grid e) curRow curCol).
Proof.
  unfold updateStatus, grid. intros H.
  destruct (getCell (pictures (board e)) preRow preCol) as [pre|] eqn:Hpre.
  2: { unfold mbind, M_bind, readCell in H. by rewrite Hpre in H. }
  destruct (getCell (pictures (board e)) curRow curCol) as [cur|] eqn:Hcur.
  2: { erewrite readCell_bind in H by done. unfold mbind, M_bind, readCell in H.
       by rewrite Hcur in H. }
  erewrite !readCell_bind in H by done. rewrite get_bind in H.
  apply bind_run in H as (? & e1 & H1 & H).
  rewrite !onBoard_modify_bind in H. frame_in grid H. frame_in grid H1.
  unfold grid in *. fields. cbn [board setBoard pictures setPictures] in H.
  rewrite H, H1. eauto.
Qed.

Lemma cleared_cells g preRow preCol curRow curCol :
  is_Some (getCell g preRow preCol) → is_Some (getCell g curRow curCol) →
  let g' := updCell (updCell g preRow preCol markEmpty) curRow curCol markEmpty in
  cellIsEmpty g' preRow preCol = true ∧ cellIsEmpty g' curRow curCol = true.
Proof.
  intros [pre Hpre] [cur Hcur]. unfold cellIsEmpty. split.
  - rewrite getCell_updCell. case_decide as Heq.
    + destruct Heq as [-> ->]. rewrite getCell_updCell_eq, Hpre. done.
    + rewrite getCell_updCell_eq, Hpre. done.
  - rewrite getCell_updCell_eq, getCell_updCell. case_decide.
    + by rewrite Hpre.
    + by rewrite Hcur.
Qed.

Lemma invoke_MatchSuccess preRow preCol curRow curCol preIndex curIndex e e' :
  invoke (MatchSuccess preRow preCol curRow curCol preIndex curIndex) e = Some (tt, e') →
  steps e' = steps e + 1
  ∧ (∃ e1, updateStatus preRow preCol curRow curCol preIndex curIndex e = Some (tt, e1)
           ∧ cellIsEmpty (grid e1) preRow preCol = true
           ∧ cellIsEmpty (grid e1) curRow curCol = true)
  ∧ ((cellIsEmpty (grid e') preRow preCol = true
      ∧ cellIsEmpty (grid e') curRow curCol = true)
     ∨ leftDisorderTime e' = leftDisorderTime e - 1).
Proof.
  intros H. split; [by apply invoke_steps in H|]. cbn [invoke] in H.
  apply bind_run in H as ([] & e1 & H1 & H). rewrite get_bind in H.
  pose proof (updateStatus_grid _ _ _ _ _ _ _ _ H1) as (Hg & Hpre & Hcur).
  pose proof (cleared_cells _ _ _ _ _ Hpre Hcur) as Hclear. cbv zeta in Hclear.
  rewrite <-Hg in Hclear. split; [eauto|].
  frame_in leftDisorderTime H1.
  apply bind_run in H as (? & e2 & H2 & H).
  pose proof H2 as H2'. frame_in grid H2. frame_in leftDisorderTime H2'.
  apply bind_run in H as (? & e3 & H3 & H).
  pose proof H3 as H3'. frame_in grid H3. frame_in leftDisorderTime H3'.
  apply bind_run in H as ([] & e4 & H4 & [= <-]).
  apply updateSteps_grid in H4. unfold grid in *. fields.
  destruct H4 as [[Hsame ?]|?]; [left|right; congruence].
  rewrite Hsame, H3, H2. done.
Qed.

(** *** Starting and restarting *)

Lemma clearTimer_run e :
  clearTimer e = Some (tt, if timer e then setTimerRunning false e else e).
Proof. unfold clearTimer. rewrite gets_bind. by destruct (timer e). Qed.

Lemma init_unfold : init = ltac:(let body := eval unfold init in init in exact body).
Proof. reflexivity. Qed.

Lemma restartGame_unfold :
  restartGame
  = ltac:(let body := eval unfold restartGame, reset in restartGame in exact body).
Proof. reflexivity. Qed.

Lemma init_effect e e' :
  init e = Some (tt, e') →
  score e' = score e ∧ steps e' = steps e ∧ leftDisorderTime e' = leftDisorderTime e
  ∧ leftTime e' = configInitialTime e ∧ timerRunning e' = true
  ∧ configInitialTime e' = configInitialTime e
  ∧ isAnimating e' = false ∧ preClickInfo e' = None ∧ selectedCell e' = None
  ∧ remain e' = getActualLetterCount (cols e) (rows e) (grid e').
Proof.
  rewrite init_unfold. unfold grid. rewrite !modify_bind, onBoard_modify_bind, !modify_bind.
  rewrite onBoard_modify_bind, modify_bind, setSelectedCell_bind.
  intros (? & e1 & H1 & H)%bind_run. rewrite !modify_bind, get_bind in H.
  apply bind_run in H as (? & e2 & H2 & H).
  apply bind_run in H as (? & e3 & H3 & H).
  rewrite gets_bind, modify_bind in H.
  apply onBoard_run in H2 as (b2 & _ & ->). apply onBoard_run in H3 as (b3 & _ & ->).
  unfold updateScore in H. rewrite gets_bind, notify_run in H. injection H as <-.
  rewrite clearTimer_run in H1. injection H1 as _ <-. fields.
  destruct (timer e); fields; done.
Qed.

Lemma restartGame_effect e e' :
  restartGame e = Some (tt, e') →
  score e' = 0 ∧ steps e' = 0 ∧ leftDisorderTime e' = 5
  ∧ leftTime e' = configInitialTime e ∧ timerRunning e' = true.
Proof.
  rewrite restartGame_unfold. rewrite !modify_bind, setSelectedCell_bind.
  intros ([] & e1 & H1 & H)%bind_run.
  apply init_effect in H1 as (Hs & Hn & Hd & Ht & Hr & _). fields.
  rewrite gets_bind, notify_bind, gets_bind, notify_run in H. injection H as <-.
  fields. done.
Qed.

(** [init] forgets the grid it finds. *)
Lemma init_forgets e : init e = init (setBoard (setPictures [] (board e)) e).
Proof. rewrite init_unfold, !modify_bind, !onBoard_modify_bind. fields. reflexivity. Qed.

(** The grid that [init] builds does not depend on the grid before. *)
Lemma init_fresh e g :
  init (setBoard (setPictures g (board e)) e) = init e.
Proof.
  rewrite (init_forgets (setBoard _ _)), (init_forgets e). fields. reflexivity.
Qed.

Lemma bind_same {S A B} (m : M S A) (k : A → M S B) s1 s2 :
  m s1 = m s2 → (m ≫= k) s1 = (m ≫= k) s2.
Proof. intros H. unfold mbind, M_bind. by rewrite H. Qed.

Lemma restartGame_fresh e g :
  restartGame (setBoard (setPictures g (board e)) e) = restartGame e.
Proof.
  rewrite restartGame_unfold, !modify_bind, !setSelectedCell_bind.
  apply bind_same.
  match goal with |- init ?a = init ?b => rewrite (init_forgets a), (init_forgets b) end.
  fields. reflexivity.
Qed.

(** * Grids written cell by cell *)

(** *** Writing a list of cells into a grid *)

Lemma writeAll_app ws1 ws2 g : writeAll (ws1 ++ ws2) g = writeAll ws2 (writeAll ws1 g).
Proof. apply foldl_app. Qed.

Lemma getCell_setCell g r c cell r' c' :
  getCell (setCell g r c cell) r' c' =
  if decide (r = r' ∧ c = c') then (λ _, cell) <$> getCell g r c else getCell g r' c'.
Proof. apply getCell_updCell. Qed.

Lemma getCell_writeAll_notin ws g (p : Position) :
  p ∉ map fst ws → getCell (writeAll ws g) p.1 p.2 = getCell g p.1 p.2.
Proof.
  revert g. induction ws as [|[q cell] ws IH]; intros g Hp; simpl; [done|].
  rewrite IH.
  - rewrite getCell_setCell, decide_False; [done|]. simpl. intros [? ?].
    apply Hp. simpl. destruct p, q; simpl in *; subst. left.
  - intros Hin. apply Hp. simpl. by right.
Qed.

Lemma getCell_writeAll_in ws g (w : Position * CellInfo) :
  NoDup (map fst ws) → is_Some (getCell g w.1.1 w.1.2) → w ∈ ws →
  getCell (writeAll ws g) w.1.1 w.1.2 = Some w.2.
Proof.
  revert g. induction ws as [|[q cell] ws IH]; intros g Hnd Hsome Hin; simpl.
  { by apply not_elem_of_nil in Hin. }
  apply NoDup_cons in Hnd as [Hq Hnd]. simpl in Hq.
  apply elem_of_cons in Hin as [->|Hin].
  - cbn [fst snd] in *. rewrite (getCell_writeAll_notin ws _ q) by done.
    rewrite getCell_setCell, decide_True by done. destruct Hsome as [? ->]. done.
  - apply IH; [done| |done].
    cbn [fst snd]. rewrite getCell_setCell. case_decide as Heq; [|done].
    destruct Heq as [Heq1 Heq2]. rewrite <-Heq1, <-Heq2 in Hsome.
    destruct Hsome as [? ->]. by eexists.
Qed.

Section Written.

Variables (cols rows : Z).

Lemma inPlay_emptyMap p :
  inPlay cols rows p → getCell (emptyMap cols rows) p.1 p.2 = Some emptyCell.
Proof. intros [? ?]. apply getCell_emptyMap; lia. Qed.

(** The occupied cells of a grid written into the empty map are the cells
    written. *)
Lemma elem_of_occupied_writeAll ws p :
  NoDup (map fst ws) →
  Forall (λ w, inPlay cols rows w.1 ∧ isEmpty w.2 = false) ws →
  p ∈ occupiedPositions cols rows (writeAll ws (emptyMap cols rows)) ↔ p ∈ map fst ws.
Proof.
  intros Hnd Hall. rewrite elem_of_occupiedPositions. unfold cellIsEmpty. split.
  - intros [Hp Hocc]. destruct (decide (p ∈ map fst ws)) as [|Hnot]; [done|].
    rewrite (getCell_writeAll_notin ws _ p Hnot), inPlay_emptyMap in Hocc by done. done.
  - intros Hin. apply list_elem_of_In, in_map_iff in Hin as (w & <- & Hw).
    apply list_elem_of_In in Hw.
    pose proof (proj1 (Forall_forall _ _) Hall w Hw) as [Hp Hne].
    split; [done|]. rewrite (getCell_writeAll_in ws _ w); try done.
    rewrite inPlay_emptyMap by done. by eexists.
Qed.

(** *** Positions in reading order *)

Lemma posLt_asym p q : posLt p q → posLt q p → p = q.
Proof. unfold posLt. lia. Qed.

Lemma StronglySorted_seqZ m n : StronglySorted Z.lt (seqZ m n).
Proof.
  destruct (decide (0 ≤ n)); [|rewrite seqZ_nil by lia; constructor].
  rewrite <-(Z2Nat.id n) by done. generalize (Z.to_nat n). clear. intros k. revert m.
  induction k as [|k IH]; intros m; [rewrite seqZ_nil by lia; constructor|].
  rewrite seqZ_cons by lia. constructor.
  - replace (Z.pred (Z.of_nat (S k))) with (Z.of_nat k) by lia. apply IH.
  - apply Forall_seqZ. lia.
Qed.

Lemma StronglySorted_rows (f : Z → Z) (R : relation Position) ys ks :
  (∀ y k1 k2, k1 < k2 → R (y, f k1) (y, f k2)) →
  (∀ y1 y2 k1 k2, y1 < y2 → R (y1, f k1) (y2, f k2)) →
  StronglySorted Z.lt ys → StronglySorted Z.lt ks →
  StronglySorted R (flat_map (λ y, map (λ k, (y, f k)) ks) ys).
Proof.
  intros Hrow Hrows Hys Hks. induction Hys as [|y ys Hys IH Hy]; simpl; [constructor|].
  apply StronglySorted_app_2; [| |done].
  - intros p q Hp Hq. apply list_elem_of_In, in_map_iff in Hp as (k1 & <- & _).
    apply list_elem_of_In, in_flat_map in Hq as (y2 & Hy2 & Hq).
    apply in_map_iff in Hq as (k2 & <- & _). apply Hrows.
    apply list_elem_of_In in Hy2. by eapply Forall_forall in Hy.
  - clear -Hrow Hks. induction Hks as [|k ks Hks IH Hk]; simpl; constructor; [done|].
    apply Forall_forall. intros q Hq. apply list_elem_of_In, in_map_iff in Hq as (k2 & <- & Hk2).
    apply Hrow. apply list_elem_of_In in Hk2. by eapply Forall_forall in Hk.
Qed.

Lemma validPositions_sorted : StronglySorted posLt (getAllValidPositions cols rows).
Proof.
  apply (StronglySorted_rows (λ k, k)); try apply StronglySorted_seqZ.
  - intros y k1 k2 ?. right. simpl. lia.
  - intros y1 y2 k1 k2 ?. left. simpl. lia.
Qed.

Lemma StronglySorted_filter {A} (R : relation A) (P : A → Prop) `{∀ x, Decision (P x)} l :
  StronglySorted R l → StronglySorted R (filter P l).
Proof.
  induction 1 as [|x l Hl IH Hx]; [constructor|].
  rewrite filter_cons. case_decide; [|done]. constructor; [done|].
  apply Forall_forall. intros y [_ Hy]%list_elem_of_filter. by eapply Forall_forall in Hx.
Qed.

Lemma StronglySorted_NoDup_posLt l : StronglySorted posLt l → NoDup l.
Proof.
  induction 1 as [|x l Hl IH Hx]; constructor; [|done].
  intros Hin. eapply Forall_forall in Hx; [|done]. unfold posLt in Hx. lia.
Qed.

(** A list of positions in reading order that holds exactly the occupied
    cells is the list [occupiedPositions]. *)
Lemma occupiedPositions_unique g ps :
  StronglySorted posLt ps →
  (∀ p, p ∈ occupiedPositions cols rows g ↔ p ∈ ps) →
  occupiedPositions cols rows g = ps.
Proof.
  intros Hps Hiff.
  assert (StronglySorted posLt (occupiedPositions cols rows g)) as Hocc.
  { apply StronglySorted_filter, validPositions_sorted. }
  apply (StronglySorted_unique_strong posLt); try done.
  - intros ?? _ _. apply posLt_asym.
  - apply NoDup_Permutation; [by apply StronglySorted_NoDup_posLt..|done].
Qed.

End Written.

(** *** Every letter of an inventory has one partner *)

Lemma isMatch_sym a b : isMatch a b = isMatch b a.
Proof.
  apply eq_true_iff_eq. rewrite !isMatch_true. split; intros [? ?]; split; congruence.
Qed.

Lemma isMatch_irrefl a : isMatch a a = false.
Proof. apply not_true_is_false. rewrite isMatch_true. by intros [_ ?]. Qed.

Lemma elem_of_unpair {A} (ps : list (A * A)) x :
  x ∈ unpair ps ↔ ∃ p, p ∈ ps ∧ (x = p.1 ∨ x = p.2).
Proof.
  unfold unpair. rewrite list_elem_of_In, in_flat_map. split.
  - intros (p & Hp%list_elem_of_In & Hx). exists p. split; [done|].
    simpl in Hx. destruct Hx as [?|[?|[]]]; auto.
  - intros (p & Hp%list_elem_of_In & Hx). exists p. split; [done|].
    simpl. destruct Hx; auto.
Qed.




Lemma sublist_map {A B} (f : A → B) l1 l2 :
  l1 `sublist_of` l2 → map f l1 `sublist_of` map f l2.
Proof. induction 1; simpl; by constructor. Qed.

Lemma inventory_take ps k : inventory ps → inventory (take k ps).
Proof.
  intros [Hall Hnd]. split.
  - by apply Forall_take.
  - apply (sublist_NoDup _ (map pairKey ps)); [done|apply sublist_map, sublist_take].
Qed.

(** *** What the placement loops write *)

Lemma placeLetter_writes p letter b b' :
  placeLetter (Some p) letter b = Some (tt, b') →
  ∃ cell, pictures b' = setCell (pictures b) p.1 p.2 cell
          ∧ isEmpty cell = false ∧ pic cell = letter.
Proof.
  unfold placeLetter. intros (d & b1 & Hd & Hm)%bind_run.
  apply draw_pictures in Hd. injection Hm as <-. eexists. rewrite <-Hd. done.
Qed.

Lemma placeTemplate_writes slots ps b b' :
  placeTemplate slots ps b = Some (tt, b') →
  ∃ ws, pictures b' = writeAll ws (pictures b)
        ∧ map fst ws = unpair (map (λ p, (p, (p.1, p.2 + 1))) (take (length ps) slots))
        ∧ map picOf ws = unpair (take (length slots) ps)
        ∧ Forall occupiedCell ws.
Proof.
  revert ps b. induction slots as [|[y x] slots IH]; intros [|pr ps] b; cbn [placeTemplate];
    try (intros [= <-]; by exists []).
  intros ([] & b1 & (c1 & Hb1 & He1 & Hp1)%placeLetter_writes & H)%bind_run.
  apply bind_run in H as ([] & b2 & (c2 & Hb2 & He2 & Hp2)%placeLetter_writes & H).
  apply IH in H as (ws & Hws & Hpos & Hpics & Hocc).
  exists (((y, x), c1) :: ((y, x + 1), c2) :: ws). cbn [fst snd] in *. split_and!.
  - rewrite Hws, Hb2, Hb1. done.
  - cbn [length take map unpair flat_map app fst snd]. by rewrite Hpos.
  - cbn [length take map unpair flat_map app fst snd]. by rewrite Hpics, Hp1, Hp2.
  - by repeat constructor.
Qed.

Lemma fillRowMajor_writes positions letters b b' :
  fillRowMajor positions letters b = Some (tt, b') →
  ∃ ws, pictures b' = writeAll ws (pictures b)
        ∧ map fst ws = take (length letters) positions
        ∧ map picOf ws = take (length positions) letters
        ∧ Forall occupiedCell ws.
Proof.
  revert letters b. induction positions as [|p positions IH]; intros [|letter letters] b;
    cbn [fillRowMajor]; try (intros [= <-]; by exists []).
  intros ([] & b1 & (c1 & Hb1 & He1 & Hp1)%placeLetter_writes & H)%bind_run.
  apply IH in H as (ws & Hws & Hpos & Hpics & Hocc).
  exists ((p, c1) :: ws). split_and!.
  - rewrite Hws, Hb1. done.
  - cbn [length take map fst]. by rewrite Hpos.
  - cbn [length take map snd]. by rewrite Hpics, Hp1.
  - by constructor.
Qed.

Lemma placePairs_writes positions i ps b b' :
  placePairs positions i ps b = Some (tt, b') →
  ∃ k ws, pictures b' = writeAll ws (pictures b)
          ∧ map fst ws = take (2 * k) (drop (2 * i) positions)
          ∧ map picOf ws = unpair (take k ps)
          ∧ Forall occupiedCell ws.
Proof.
  revert i b. induction ps as [|pr ps IH]; intros i b; cbn [placePairs].
  { intros [= <-]. by exists 0%nat, []. }
  destruct (Nat.ltb_spec (i * 2) (length positions)) as [Hlt|Hge].
  2: { intros [= <-]. by exists 0%nat, []. }
  destruct (positions !! (i * 2)%nat) as [p1|] eqn:H1.
  2: { apply lookup_ge_None in H1. lia. }
  intros ([] & b1 & (c1 & Hb1 & He1 & Hp1)%placeLetter_writes & H)%bind_run.
  apply bind_run in H as ([] & b2 & H2 & H).
  destruct (positions !! (i * 2 + 1)%nat) as [p2|] eqn:H2'; [|done].
  apply placeLetter_writes in H2 as (c2 & Hb2 & He2 & Hp2).
  apply IH in H as (k & ws & Hws & Hpos & Hpics & Hocc).
  exists (S k), ((p1, c1) :: (p2, c2) :: ws). split_and!.
  - rewrite Hws, Hb2, Hb1. done.
  - replace (2 * i)%nat with (i * 2)%nat by lia.
    rewrite (drop_S _ _ _ H1). replace (S (i * 2)) with (i * 2 + 1)%nat by lia.
    rewrite (drop_S _ _ _ H2'). replace (2 * S k)%nat with (S (S (2 * k))) by lia.
    cbn [take map fst]. rewrite Hpos.
    replace (2 * S i)%nat with (S (i * 2 + 1)) by lia. done.
  - cbn [take map unpair flat_map app fst snd]. by rewrite Hpics, Hp1, Hp2.
  - by repeat constructor.
Qed.

(** *** Pair conservation *)

Lemma length_partners g x (l : list Position) :
  length (filter (λ q, isMatch x (picAt g q) = true) l)
  = length (filter (λ y, isMatch x y = true) (map (picAt g) l)).
Proof.
  induction l as [|q l IH]; [done|]. cbn [map]. rewrite !filter_cons.
  destruct (decide (isMatch x (picAt g q) = true)); simpl; by rewrite IH.
Qed.

Section Written.

Variables (cols rows : Z) (ws : list (Position * CellInfo)).
Hypothesis Hnd : NoDup (map fst ws).
Hypothesis Hplay : Forall (λ w, inPlay cols rows w.1) ws.
Hypothesis Hocc : Forall occupiedCell ws.

Local Abbreviation g := (writeAll ws (emptyMap cols rows)).

Lemma written_both : Forall (λ w, inPlay cols rows w.1 ∧ isEmpty w.2 = false) ws.
Proof.
  apply Forall_forall. intros w Hw. split.
  - by eapply Forall_forall in Hplay.
  - by eapply Forall_forall in Hocc.
Qed.

Lemma picAt_written w : w ∈ ws → picAt g w.1 = pic w.2.
Proof.
  intros Hw. unfold picAt. rewrite (getCell_writeAll_in ws _ w); try done.
  rewrite inPlay_emptyMap; [by eexists|]. by eapply Forall_forall in Hplay.
Qed.

Lemma pics_written : map (picAt g) (map fst ws) = map picOf ws.
Proof.
  rewrite map_map. apply map_ext_in. intros w Hw%list_elem_of_In. by apply picAt_written.
Qed.

Lemma occupied_written : occupiedPositions cols rows g ≡ₚ map fst ws.
Proof.
  apply NoDup_Permutation; [|done|].
  - apply StronglySorted_NoDup_posLt, StronglySorted_filter, validPositions_sorted.
  - intros p. apply elem_of_occupied_writeAll; [done|apply written_both].
Qed.

Lemma occupied_written_sorted :
  StronglySorted posLt (map fst ws) → occupiedPositions cols rows g = map fst ws.
Proof.
  intros Hs. apply occupiedPositions_unique; [done|].
  intros p. apply elem_of_occupied_writeAll; [done|apply written_both].
Qed.

Lemma solverCells_written :
  StronglySorted posLt (map fst ws) →
  solverCells cols rows g
  = map (λ w, {| sRow := w.1.1; sCol := w.1.2; sPic := pic w.2 |}) ws.
Proof.
  intros Hs. unfold solverCells. rewrite (occupied_written_sorted Hs), map_map.
  apply map_ext_in. intros w Hw%list_elem_of_In. f_equal. by apply picAt_written.
Qed.


End Written.

(** *** The shuffle rearranges *)

Lemma shuffle_Permutation {A} (l l' : list A) b b' :
  shuffle (length l) l b = Some (l', b') → l' ≡ₚ l.
Proof.
  remember (length l) as fuel eqn:Hfuel. revert l l' b Hfuel.
  induction fuel as [|fuel IH]; intros l l' b Hfuel; cbn [shuffle].
  { intros [= <- <-]. by destruct l. }
  destruct l as [|x0 l0] eqn:Hl; [done|]. rewrite <-Hl in *.
  assert (length l ≠ 0%nat) as Hlen by (subst l; done).
  intros (d & b1 & _ & Hrun)%bind_run.
  destruct (l !! (d mod length l)%nat) as [x|] eqn:Hx.
  2: { apply lookup_ge_None in Hx. pose proof (Nat.mod_upper_bound d (length l) Hlen). lia. }
  apply bind_run in Hrun as (rest & b2 & Hrest & [= <- <-]).
  apply IH in Hrest.
  - rewrite Hrest. symmetry. by apply delete_Permutation.
  - rewrite length_delete by eauto. lia.
Qed.

(** *** The cells of the play area *)

Lemma validPositions_NoDup cols rows : NoDup (getAllValidPositions cols rows).
Proof. apply StronglySorted_NoDup_posLt, validPositions_sorted. Qed.

Lemma validPositions_Forall cols rows :
  Forall (inPlay cols rows) (getAllValidPositions cols rows).
Proof. apply Forall_forall. intros p. by rewrite elem_of_getAllValidPositions. Qed.

Lemma length_validPositions cols rows :
  length (getAllValidPositions cols rows)
  = (Z.to_nat (rows - 2) * Z.to_nat (cols - 2))%nat.
Proof.
  unfold getAllValidPositions. rewrite <-(length_seqZ 1 (rows - 2)).
  induction (seqZ 1 (rows - 2)) as [|y ys IH]; [done|].
  cbn [flat_map length]. rewrite length_app, IH, length_map, length_seqZ. lia.
Qed.

Lemma StronglySorted_take {A} (R : relation A) n l :
  StronglySorted R l → StronglySorted R (take n l).
Proof.
  intros Hl. revert n. induction Hl as [|x l Hl IH Hx]; intros [|n]; simpl; try constructor.
  - apply IH.
  - by apply Forall_take.
Qed.

Lemma NoDup_take_drop {A} (l : list A) n m : NoDup l → NoDup (take n (drop m l)).
Proof.
  intros Hl. apply (sublist_NoDup _ l); [done|].
  etrans; [apply sublist_take|apply sublist_drop].
Qed.

Lemma Forall_take_drop {A} (P : A → Prop) (l : list A) n m :
  Forall P l → Forall P (take n (drop m l)).
Proof. intros. by apply Forall_take, Forall_drop. Qed.

(** *** The slots of the template *)

Lemma everyOtherColumn_sorted rows bound :
  StronglySorted slotLt (everyOtherColumn rows bound).
Proof.
  apply (StronglySorted_rows (λ k, 1 + 2 * k)); try apply StronglySorted_seqZ.
  - intros y k1 k2 ?. right. simpl. lia.
  - intros y1 y2 k1 k2 ?. left. simpl. lia.
Qed.

Lemma slots_sorted slots :
  StronglySorted slotLt slots → StronglySorted posLt (unpair (map slotPair slots)).
Proof.
  induction 1 as [|p slots Hs IH Hp]; [constructor|].
  cbn [map unpair flat_map app slotPair fst snd].
  change (flat_map _ (map slotPair slots)) with (unpair (map slotPair slots)).
  assert (∀ q, q ∈ unpair (map slotPair slots) → p.1 < q.1 ∨ (p.1 = q.1 ∧ p.2 + 1 < q.2))
    as Hlt.
  { intros q (pr & Hpr & Hq)%elem_of_unpair.
    apply list_elem_of_In, in_map_iff in Hpr as (s & <- & Hin%list_elem_of_In).
    eapply Forall_forall in Hp; [|done]. unfold slotLt in Hp.
    destruct Hq as [->| ->]; simpl; lia. }
  constructor; [constructor; [done|]|].
  - apply Forall_forall. intros q Hq%Hlt. unfold posLt. simpl. lia.
  - constructor.
    + unfold posLt. simpl. lia.
    + apply Forall_forall. intros q Hq%Hlt. unfold posLt. simpl. lia.
Qed.

Lemma slots_inPlay cols rows slots :
  Forall (λ p, inPlay cols rows p ∧ p.2 < cols - 3) slots →
  Forall (inPlay cols rows) (unpair (map slotPair slots)).
Proof.
  intros Hall. apply Forall_forall. intros q (pr & Hpr & Hq)%elem_of_unpair.
  apply list_elem_of_In, in_map_iff in Hpr as (s & <- & Hin%list_elem_of_In).
  eapply Forall_forall in Hall as [[? ?] ?]; [|done].
  destruct Hq as [->| ->]; [done|]. unfold inPlay in *. simpl. lia.
Qed.

Lemma templateSlots_Forall cols rows :
  Forall (λ p, inPlay cols rows p ∧ p.2 < cols - 3) (everyOtherColumn rows (cols - 3)).
Proof.
  apply Forall_forall. intros p Hp. apply elem_of_everyOtherColumn; [lia|done].
Qed.

(** * Generated maps *)

(** *** The template *)

Lemma initializeEmptyMap_run cols rows b :
  initializeEmptyMap cols rows b = Some (tt, setPictures (emptyMap cols rows) b).
Proof. done. Qed.

Lemma map_map_id (g : Grid) : map (λ cells, map (λ cell : CellInfo, cell) cells) g = g.
Proof.
  induction g as [|cells g IH]; simpl; [done|]. by rewrite map_id, IH.
Qed.

Lemma neighbours_written slots ps (ws : list (Position * CellInfo)) :
  map fst ws = unpair (map slotPair slots) →
  map picOf ws = unpair ps →
  Forall (λ p, isMatch p.1 p.2 = true) ps →
  ∃ scs, map solverCellOf ws = unpair scs ∧ Forall (λ p, neighbours p.1 p.2) scs.
Proof.
  revert ps ws. induction slots as [|s slots IH]; intros ps ws Hpos Hpics Hall.
  { destruct ws; [|done]. by exists []. }
  destruct ws as [|[p1 c1] [|[p2 c2] ws]]; try done.
  destruct ps as [|[a b] ps]; [done|].
  cbn [map unpair flat_map app fst snd slotPair] in Hpos, Hpics.
  injection Hpos as -> -> Hpos. injection Hpics as Ha Hb Hpics.
  apply Forall_cons in Hall as [Hab Hall]. simpl in Hab.
  destruct (IH ps ws Hpos Hpics Hall) as (scs & Hscs & Hn).
  exists ((solverCellOf (s, c1), solverCellOf ((s.1, s.2 + 1), c2)) :: scs). split.
  - cbn [map unpair flat_map app fst snd]. by rewrite Hscs.
  - constructor; [|done]. unfold neighbours. simpl. by rewrite Ha, Hb.
Qed.

Section Template.

Variables (cols rows : Z) (t : string).
Hypothesis Ht : pairable t.

Lemma generateSolvableTemplate_writes b b' :
  generateSolvableTemplate cols rows t b = Some (tt, b') →
  ∃ ws slots ps,
    pictures b' = writeAll ws (emptyMap cols rows)
    ∧ map fst ws = unpair (map slotPair slots)
    ∧ StronglySorted slotLt slots
    ∧ Forall (λ p, inPlay cols rows p ∧ p.2 < cols - 3) slots
    ∧ map picOf ws = unpair ps ∧ inventory ps ∧ Forall occupiedCell ws.
Proof.
  unfold generateSolvableTemplate. intros ([] & b0 & H0 & H)%bind_run.
  rewrite initializeEmptyMap_run in H0. injection H0 as <-.
  apply bind_run in H as (letters & b1 & Hletters & H).
  apply generateLetterPairs_inventory in Hletters as (ps & -> & Hinv & Hpic & _); [|done].
  rewrite groupIntoLetterPairs_inventory in H by done.
  apply placeTemplate_writes in H as (ws & Hws & Hpos & Hpics & Hocc).
  exists ws, (take (length ps) (everyOtherColumn rows (cols - 3))),
    (take (length (everyOtherColumn rows (cols - 3))) ps).
  rewrite Hws, Hpic. split_and!; try done.
  - apply StronglySorted_take, everyOtherColumn_sorted.
  - apply Forall_take, templateSlots_Forall.
  - by apply inventory_take.
Qed.

Lemma written_slots_NoDup (ws : list (Position * CellInfo)) slots :
  map fst ws = unpair (map slotPair slots) → StronglySorted slotLt slots →
  NoDup (map fst ws).
Proof. intros -> Hs. by apply StronglySorted_NoDup_posLt, slots_sorted. Qed.


Lemma generateSolvableTemplate_solvable :
  makes (λ b, solvable cols rows (pictures b) = true) (generateSolvableTemplate cols rows t).
Proof.
  intros b [] b' _ (ws & slots & ps & -> & Hpos & Hs & Hplay & Hpics & Hinv & Hocc)
    %generateSolvableTemplate_writes.
  unfold solvable, isSolvableHeap. rewrite map_map_id.
  rewrite (solverCells_written _ _ _ (written_slots_NoDup _ _ Hpos Hs)); try done.
  - destruct (neighbours_written slots ps ws Hpos Hpics (proj1 Hinv)) as (scs & Hscs & Hn).
    change (map _ ws) with (map solverCellOf ws). rewrite Hscs.
    apply backtrackSolve_neighbours; [done|]. rewrite length_unpair. lia.
  - apply Forall_forall. intros w Hw.
    pose proof (slots_inPlay _ _ _ Hplay) as Hall. rewrite <-Hpos in Hall.
    eapply Forall_forall in Hall; [done|]. by apply list_elem_of_In, in_map, list_elem_of_In.
  - rewrite Hpos. by apply slots_sorted.
Qed.

End Template.

(** *** The two random placements *)



Section Placements.

Variables (cols rows : Z) (t : string).
Hypothesis Ht : pairable t.

Lemma sortByEdge_NoDup : NoDup (sortByEdge cols rows (getAllValidPositions cols rows)).
Proof.
  rewrite sortByEdge_Permutation. apply validPositions_NoDup.
Qed.

Lemma sortByEdge_Forall :
  Forall (inPlay cols rows) (sortByEdge cols rows (getAllValidPositions cols rows)).
Proof.
  rewrite sortByEdge_Permutation. apply validPositions_Forall.
Qed.

Lemma Forall_fst_inPlay (ws : list (Position * CellInfo)) :
  Forall (inPlay cols rows) (map fst ws) → Forall (λ w, inPlay cols rows w.1) ws.
Proof. by rewrite Forall_map. Qed.





End Placements.

(** *** The retry loops *)

Section Loops.

Variables (cols rows : Z) (t : string).
Hypothesis Ht : pairable t.

Local Abbreviation conserved := (λ b : Board, pairConserved cols rows (pictures b)).
Local Abbreviation solved := (λ b : Board, solvable cols rows (pictures b) = true).


Lemma generateRandomMapLoop_solvable budget attempts b att b' :
  30 ≤ attempts + Z.of_nat budget →
  generateRandomMapLoop cols rows t budget attempts b = Some (att, b') →
  att < 30 → solved b'.
Proof.
  revert attempts b. induction budget as [|budget IH]; intros attempts b Hfuel;
    cbn [generateRandomMapLoop].
  { intros [= <- <-]. lia. }
  intros ([] & b0 & _ & H)%bind_run.
  apply bind_run in H as ([] & b1 & _ & H).
  apply bind_run in H as (ok & b2 & Hsolv & H).
  apply isSolvable_solvable in Hsolv as [-> Hpic].
  destruct (solvable cols rows (pictures b1)) eqn:Hok; cbn [negb andb] in H.
  - injection H as <- <-. intros _. by rewrite Hpic.
  - destruct (Z.ltb_spec (attempts + 1) 30).
    + intros Hatt. eapply IH; [|done|done]. lia.
    + injection H as <- <-. lia.
Qed.


Lemma generateRandomMap_solvable : makes solved (generateRandomMap cols rows t).
Proof.
  intros b [] b' _. unfold generateRandomMap. intros (att & b1 & Hloop & H)%bind_run.
  pose proof (generateRandomMapLoop_solvable 30 0 _ _ _ ltac:(lia) Hloop) as Hsolved.
  rewrite Z.geb_leb in H. destruct (Z.leb_spec 30 att); cbn [when] in H.
  - apply bind_run in H as ([] & b2 & _ & H).
    by eapply generateSolvableTemplate_solvable.
  - injection H as <-. by apply Hsolved.
Qed.


Lemma createMapLoop_solvable budget attempts b att b' :
  createMapLoop cols rows t (S budget) attempts b = Some (att, b') →
  att = attempts + 1 ∧ solved b'.
Proof.
  cbn [createMapLoop].
  intros ([] & b1 & Hmap%generateRandomMap_solvable & H)%bind_run; [|done].
  apply bind_run in H as (ok & b2 & Hsolv & H).
  apply isSolvable_solvable in Hsolv as [-> Hpic]. rewrite Hmap in H.
  injection H as <- <-. by rewrite Hpic.
Qed.



Lemma disorderLoop_solvable budget attempts b att b' :
  200 ≤ attempts + Z.of_nat budget →
  disorderLoop cols rows budget attempts b = Some (att, b') →
  att < 200 → solved b'.
Proof.
  revert attempts b. induction budget as [|budget IH]; intros attempts b Hfuel;
    cbn [disorderLoop].
  { intros [= <- <-]. lia. }
  intros ([] & b1 & _ & H)%bind_run.
  apply bind_run in H as (ok & b2 & Hsolv & H).
  apply isSolvable_solvable in Hsolv as [-> Hpic].
  destruct (solvable cols rows (pictures b1)) eqn:Hok; cbn [negb andb] in H.
  - injection H as <- <-. intros _. by rewrite Hpic.
  - destruct (Z.ltb_spec (attempts + 1) 200).
    + intros Hatt. eapply IH; [|done|done]. lia.
    + injection H as <- <-. lia.
Qed.

Lemma forceGenerateSolvableLayout_solvable :
  makes solved (forceGenerateSolvableLayout cols rows t).
Proof.
  intros b [] b' _. unfold forceGenerateSolvableLayout.
  intros ([] & b1 & _ & H)%bind_run. apply bind_run in H as ([] & b2 & _ & H).
  apply bind_run in H as ([] & b3 & Hmap%generateRandomMap_solvable & H); [|done].
  apply bind_run in H as (ok & b4 & Hsolv & H).
  apply isSolvable_solvable in Hsolv as [-> Hpic]. rewrite Hmap in H.
  injection H as <-. by rewrite Hpic.
Qed.

Lemma disorder_solvable : makes solved (disorder cols rows t).
Proof.
  intros b [] b' _. unfold disorder. intros (att & b1 & Hloop & H)%bind_run.
  pose proof (disorderLoop_solvable 200 0 _ _ _ ltac:(lia) Hloop) as Hsolved.
  apply bind_run in H as ([] & b2 & Hforce & Hrender).
  apply renderMap_pictures in Hrender. rewrite Hrender.
  rewrite Z.geb_leb in Hforce. destruct (Z.leb_spec 200 att); cbn [when] in Hforce.
  - apply bind_run in Hforce as ([] & b3 & _ & Hforce).
    by eapply forceGenerateSolvableLayout_solvable.
  - injection Hforce as <-. by apply Hsolved.
Qed.

End Loops.

(** *** A reshuffle moves letters, not cells *)

Lemma sameCells_trans g1 g2 g3 : sameCells g1 g2 → sameCells g2 g3 → sameCells g1 g3.
Proof. intros H12 H23 y x. by rewrite H23, H12. Qed.

Lemma assignCharacter_cells p ch g : sameCells g (assignCharacter p ch g).
Proof. intros y x. by apply cellIsEmpty_updCell. Qed.

Lemma assignAll_cells positions characters g :
  sameCells g (assignAll positions characters g).
Proof.
  revert characters g. induction positions as [|p positions IH]; intros characters g;
    simpl; [done|].
  destruct characters as [|ch characters]; [done|].
  eapply sameCells_trans; [apply assignCharacter_cells|apply IH].
Qed.

Section Cells.

Variables (cols rows : Z) (g0 : Grid).

Local Abbreviation cellsKept := (λ b : Board, sameCells g0 (pictures b)).

Lemma smartDisorderEdgeFirst_cells : keeps cellsKept (smartDisorderEdgeFirst cols rows).
Proof.
  apply keeps_bind; [apply keeps_gets|]. intros g.
  apply keeps_bind; [apply (keepsPictures_keeps (sameCells g0)), shuffle_pictures|].
  intros shuffled. apply keeps_modify. intros b Hb.
  eapply sameCells_trans; [done|apply assignAll_cells].
Qed.

Lemma spreadGroups_cells positions groups charIndex :
  keeps cellsKept (spreadGroups positions groups charIndex).
Proof.
  revert charIndex. induction groups as [|group rest IH]; intros charIndex;
    cbn [spreadGroups]; [apply keeps_ret|].
  destruct (positions !! _) as [pos1|]; [|apply keeps_throw].
  destruct (positions !! _) as [pos2|]; [|apply keeps_throw].
  apply keeps_bind.
  { apply keeps_modify. intros b Hb.
    eapply sameCells_trans; [done|apply assignCharacter_cells]. }
  intros ?. apply keeps_bind; [|intros ?; apply IH].
  apply keeps_modify. intros b Hb.
  eapply sameCells_trans; [done|apply assignCharacter_cells].
Qed.

Lemma smartDisorderSpread_cells : keeps cellsKept (smartDisorderSpread cols rows).
Proof. apply keeps_bind; [apply keeps_gets|]. intros g. apply spreadGroups_cells. Qed.

Lemma randomDisorder_cells : keeps cellsKept (randomDisorder cols rows).
Proof.
  apply keeps_bind; [apply keeps_gets|]. intros g.
  apply keeps_bind; [apply (keepsPictures_keeps (sameCells g0)), shuffle_pictures|].
  intros shuffled. apply keeps_modify. intros b Hb.
  eapply sameCells_trans; [done|apply assignAll_cells].
Qed.

Lemma disorderLoop_cells budget attempts :
  keeps cellsKept (disorderLoop cols rows budget attempts).
Proof.
  revert attempts. induction budget as [|budget IH]; intros attempts; [apply keeps_ret|].
  cbn [disorderLoop]. apply keeps_bind.
  { destruct (_ <? _); [apply smartDisorderEdgeFirst_cells|].
    destruct (_ <? _); [apply smartDisorderSpread_cells|apply randomDisorder_cells]. }
  intros ?. apply keeps_bind.
  { apply (keepsPictures_keeps (sameCells g0)), isSolvable_keepsPictures. }
  intros solvable. destruct (_ && _); [apply IH|apply keeps_ret].
Qed.

End Cells.

Lemma disorder_cells cols rows t b b' :
  disorder cols rows t b = Some (tt, b') →
  sameCells (pictures b) (pictures b') ∨ reshuffleExhausted cols rows (pictures b).
Proof.
  unfold disorder. intros (attempts & b1 & Hloop & H)%bind_run.
  apply bind_run in H as ([] & b2 & Hforce & Hrender%renderMap_pictures).
  rewrite Z.geb_leb in Hforce. destruct (Z.leb_spec 200 attempts); cbn [when] in Hforce.
  - right. by exists b, attempts, b1.
  - left. injection Hforce as <-. rewrite Hrender.
    by apply (disorderLoop_cells cols rows (pictures b) 200 0 b attempts b1).
Qed.

Lemma clearTimer_config : frames config clearTimer.
Proof. unfold clearTimer. frames_auto. Qed.
Lemma updateScore_config : frames config updateScore.
Proof. unfold updateScore. frames_auto. Qed.
Lemma checkCurrentDeadlock_config : frames config checkCurrentDeadlock.
Proof. unfold checkCurrentDeadlock. frames_auto. Qed.
#[export] Hint Resolve clearTimer_config updateScore_config checkCurrentDeadlock_config
  : frames.
Lemma gameOver_config kind : frames config (gameOver kind).
Proof. unfold gameOver. frames_auto. Qed.
#[export] Hint Resolve gameOver_config : frames.
Lemma updateStatus_config a b c d i j : frames config (updateStatus a b c d i j).
Proof. unfold updateStatus. frames_auto. Qed.
#[export] Hint Resolve updateStatus_config : frames.

Lemma autoDisorder_cells e ok e' :
  autoDisorder e = Some (ok, e') →
  sameCells (grid e) (grid e') ∨ reshuffleExhausted (cols e) (rows e) (grid e).
Proof.
  unfold autoDisorder. rewrite get_bind.
  destruct (_ || _); [intros [= <- <-]; by left|].
  rewrite !notify_bind, modify_bind.
  intros ([] & e1 & (b' & Hrun & ->)%onBoard_run & [= <- <-])%bind_run.
  apply disorder_cells in Hrun. unfold grid. fields. done.
Qed.

Lemma updateSteps_cells e e' :
  updateSteps e = Some (tt, e') →
  sameCells (grid e) (grid e') ∨ reshuffleExhausted (cols e) (rows e) (grid e).
Proof.
  unfold updateSteps. rewrite modify_bind, gets_bind.
  intros (? & e1 & H1 & H)%bind_run.
  pose proof H1 as H1c. frame_in grid H1. frame_in config H1c.
  apply bind_run in H as (deadlock & e2 & H2 & H).
  pose proof H2 as H2c. frame_in grid H2. frame_in config H2c.
  injection H1c as H1c H1r. injection H2c as H2c H2r.
  apply bind_run in H as (? & e3 & H3 & H). frame_in grid H.
  assert (sameCells (grid e2) (grid e3) ∨ reshuffleExhausted (cols e2) (rows e2) (grid e2))
    as Hauto.
  { destruct deadlock; [|cbv [when mret M_ret] in H3; injection H3 as _ <-; by left].
    cbn [when] in H3. apply bind_run in H3 as (ok & e4 & H4 & H5).
    apply autoDisorder_cells in H4. frame_in grid H5. by rewrite H5. }
  rewrite H, H2, H2c, H2r, H1, H1c, H1r in *. unfold grid in *. fields. done.
Qed.

Lemma invoke_MatchSuccess_cells preRow preCol curRow curCol preIndex curIndex e e2 :
  invoke (MatchSuccess preRow preCol curRow curCol preIndex curIndex) e = Some (tt, e2) →
  ∃ e', updateStatus preRow preCol curRow curCol preIndex curIndex e = Some (tt, e')
        ∧ cellIsEmpty (grid e') preRow preCol = true
        ∧ cellIsEmpty (grid e') curRow curCol = true
        ∧ ((cellIsEmpty (grid e2) preRow preCol = true
            ∧ cellIsEmpty (grid e2) curRow curCol = true)
           ∨ reshuffleExhausted (cols e) (rows e) (grid e')).
Proof.
  intros H. cbn [invoke] in H.
  apply bind_run in H as ([] & e1 & H1 & H). rewrite get_bind in H.
  pose proof (updateStatus_grid _ _ _ _ _ _ _ _ H1) as (Hg & Hpre & Hcur).
  pose proof (cleared_cells _ _ _ _ _ Hpre Hcur) as [Hc1 Hc2]. cbv zeta in Hc1, Hc2.
  rewrite <-Hg in Hc1, Hc2. exists e1. split_and!; [done..|].
  pose proof H1 as H1c. frame_in config H1c. injection H1c as H1c H1r.
  apply bind_run in H as (? & e3 & H3 & H).
  pose proof H3 as H3c. frame_in grid H3. frame_in config H3c. injection H3c as H3c H3r.
  apply bind_run in H as (? & e4 & H4 & H).
  pose proof H4 as H4c. frame_in grid H4. frame_in config H4c. injection H4c as H4c H4r.
  apply bind_run in H as ([] & e5 & H5 & [= <-]).
  apply updateSteps_cells in H5.
  rewrite H4, H3, H4c, H3c, H4r, H3r, H1c, H1r in H5.
  unfold grid in *. fields. destruct H5 as [Hsame|?]; [left|by right].
  by rewrite !Hsame.
Qed.

(** * Generation and the verifier *)





(** C9: on a grid of [rows] rows of [cols] cells, [isSolvable] returns
    with the grid of the board as it was, whatever the verdict; on a grid
    with no occupied cell in the play area the verdict is true. *)
Theorem isSolvable_frame cols rows b :
  gridShape cols rows (pictures b) →
  ∃ ok b', isSolvable cols rows b = Some (ok, b')
           ∧ pictures b' = pictures b
           ∧ (occupiedPositions cols rows (pictures b) = [] → ok = true).
Proof.
  intros _.
  destruct (isSolvable_total cols rows b) as (b' & Hrun & Hpic).
  exists (solvable cols rows (pictures b)), b'. split_and!; [done..|].
  intros Hnone. unfold solvable, isSolvableHeap, solverCells.
  rewrite map_map_id, Hnone. done.
Qed.

Lemma isSolvable_frame_witness :
  gridShape 6 5 (emptyMap 6 5)
  ∧ occupiedPositions 6 5 (emptyMap 6 5) = []
  ∧ ∃ b', isSolvable 6 5 (setPictures (emptyMap 6 5) demoBoard) = Some (true, b')
          ∧ pictures b' = emptyMap 6 5.
Proof.
  assert (occupiedPositions 6 5 (emptyMap 6 5) = []) as Hnone by (vm_compute; reflexivity).
  assert (gridShape 6 5 (emptyMap 6 5)) as Hshape
    by (split; [reflexivity|repeat constructor]).
  split; [exact Hshape|]. split; [exact Hnone|].
  destruct (isSolvable_frame 6 5 (setPictures (emptyMap 6 5) demoBoard) Hshape)
    as (ok & b' & Hrun & Hpic & Hok).
  exists b'. rewrite (Hok Hnone) in Hrun. split; [exact Hrun|exact Hpic].
Defined.

(** C4: on a grid of [rows] rows of [cols] cells, for two occupied cells,
    [canCleanup] finds a path from the first to the second exactly when it
    finds one from the second to the first.  (The shape is what the source
    needs to read the cells it reads.) *)
Theorem canCleanup_symmetric cols rows g x1 y1 x2 y2 :
  gridShape cols rows g →
  0 ≤ x1 < cols → 0 ≤ y1 < rows → 0 ≤ x2 < cols → 0 ≤ y2 < rows →
  cellIsEmpty g y1 x1 = false → cellIsEmpty g y2 x2 = false →
  is_Some (canCleanup cols rows g x1 y1 x2 y2) ↔
  is_Some (canCleanup cols rows g x2 y2 x1 y1).
Proof. intros _. apply canCleanup_sym. Qed.

(** * Clicks and their acknowledgment *)

(** The second click matches, no path is found, and [onDrawLine] is heard. *)
Lemma handleCellClick_rejected e r c i pre cur pr pc pi :
  SecondClick e r c pre cur (mkClick pr pc pi) →
  isMatch (pic pre) (pic cur) = true →
  canCleanup (cols e) (rows e) (pictures (board e)) pc pr c r = None →
  onDrawLine e = true →
  ∃ e', handleCellClick r c i e = Some (tt, e')
        ∧ isAnimating e' = true ∧ steps e' = steps e ∧ score e' = score e
        ∧ remain e' = remain e ∧ grid e' = grid e
        ∧ log (board e')
          = log (board e)
            ++ [Hint []; ShakeEffect [(pr, pc, pic pre); (r, c, pic cur)];
                SelectedCellChange None; DrawLine [] Noop MatchRejected].
Proof.
  intros Hc Hm Hpath Hdraw. click_start Hc. cbn [row col] in Hpre.
  erewrite readCell_bind by (fields; exact Hpre). rewrite Hm.
  rewrite canCleanupM_bind. fields. rewrite Hpath.
  rewrite bool_decide_false by (by intros [? [=]]).
  rewrite modify_bind. unfold addShakeEffect. rewrite notify_bind. unfold drawLine.
  rewrite setSelectedCell_bind, get_bind. fields. rewrite Hdraw, notify_run.
  eexists. split; [reflexivity|]. unfold grid. fields.
  rewrite <-!app_assoc. done.
Qed.

Lemma clicks_locked e cells :
  isAnimating e = true → performAll (clicks cells) e = Some e.
Proof.
  intros H. induction cells as [|k cells IH]; [done|].
  cbn [clicks map performAll perform]. by rewrite handleCellClick_locked.
Qed.

(** C5: a second click on an occupied cell whose letter is the
    case-opposite of the first pick, with a path between the two: the score
    goes up by 100, [remain] goes down by 2 and the path goes out in the
    draw-line event; the acknowledgment ([onSuccess]) marks both cells empty
    and adds one step.  At its end the cells are still empty, unless a
    reshuffle of the grid without them can use up its 200 attempts, after
    which [disorder] builds a new map. *)
Theorem successful_match e r c i pre cur pr pc pi pts :
  SecondClick e r c pre cur (mkClick pr pc pi) →
  isMatch (pic pre) (pic cur) = true →
  canCleanup (cols e) (rows e) (grid e) pc pr c r = Some pts →
  onDrawLine e = true →
  ∃ e1, handleCellClick r c i e = Some (tt, e1)
        ∧ score e1 = score e + 100 ∧ remain e1 = remain e - 2
        ∧ steps e1 = steps e ∧ grid e1 = grid e
        ∧ log (board e1)
          = log (board e)
            ++ [Hint []; AnimationStart [(pr, pc); (r, c)]; SelectedCellChange None;
                DrawLine pts (MatchSuccess pr pc r c pi i) Noop; SelectedCellChange None]
        ∧ ∀ e2, invoke (MatchSuccess pr pc r c pi i) e1 = Some (tt, e2) →
                steps e2 = steps e + 1
                ∧ ∃ e', updateStatus pr pc r c pi i e1 = Some (tt, e')
                        ∧ cellIsEmpty (grid e') pr pc = true
                        ∧ cellIsEmpty (grid e') r c = true
                        ∧ ((cellIsEmpty (grid e2) pr pc = true
                            ∧ cellIsEmpty (grid e2) r c = true)
                           ∨ reshuffleExhausted (cols e1) (rows e1) (grid e')).
Proof.
  intros Hc Hm Hpath Hdraw.
  destruct (handleCellClick_connect e r c i pre cur pr pc pi pts Hc Hm Hpath Hdraw)
    as (e1 & Hrun & Hscore & Hremain & Hsteps & Hgrid & _ & _ & _ & Hlog).
  exists e1. repeat (split; [assumption|]).
  intros e2 Hack. split.
  - apply invoke_steps in Hack. lia.
  - by apply invoke_MatchSuccess_cells.
Qed.

(** C6: the step counter never decreases, short of [restartGame]; a second
    click leaves it as it is; the acknowledgment of a match attempt
    ([onSuccess] when a path was found, [onError] when none was) adds exactly
    one; a second click whose letter does not match becomes the first pick
    and adds nothing. *)
Theorem step_counter :
  (∀ actions e e', Restart ∉ actions → performAll actions e = Some e' → steps e ≤ steps e')
  ∧ ∀ e r c i pre cur pr pc pi,
      SecondClick e r c pre cur (mkClick pr pc pi) → onDrawLine e = true →
      ∃ e1 events,
        handleCellClick r c i e = Some (tt, e1)
        ∧ steps e1 = steps e
        ∧ log (board e1) = log (board e) ++ events
        ∧ (isMatch (pic pre) (pic cur) = false →
           preClickInfo e1 = Some (mkClick r c i) ∧ isAnimating e1 = false)
        ∧ (isMatch (pic pre) (pic cur) = true →
           ∃ pts onSuccess onError,
             DrawLine pts onSuccess onError ∈ events
             ∧ let ack := if canCleanup (cols e) (rows e) (grid e) pc pr c r is Some _
                          then onSuccess else onError in
               ack ≠ Noop
               ∧ ∀ e2, invoke ack e1 = Some (tt, e2) → steps e2 = steps e + 1).
Proof.
  split; [apply performAll_steps|].
  intros e r c i pre cur pr pc pi Hc Hdraw.
  destruct (isMatch (pic pre) (pic cur)) eqn:Hm.
  - destruct (canCleanup (cols e) (rows e) (grid e) pc pr c r) as [pts|] eqn:Hpath.
    + destruct (handleCellClick_connect e r c i pre cur pr pc pi pts Hc Hm Hpath Hdraw)
        as (e1 & Hrun & _ & _ & Hsteps & _ & _ & _ & _ & Hlog).
      exists e1. eexists. split_and!; [done|done|exact Hlog|done|]. intros _.
      exists pts, (MatchSuccess pr pc r c pi i), Noop. split.
      { apply list_elem_of_In. simpl. tauto. }
      cbv zeta. split; [done|]. intros e2 Hs%invoke_steps. lia.
    + destruct (handleCellClick_rejected e r c i pre cur pr pc pi Hc Hm Hpath Hdraw)
        as (e1 & Hrun & _ & Hsteps & _ & _ & _ & Hlog).
      exists e1. eexists. split_and!; [done|done|exact Hlog|done|]. intros _.
      exists [], Noop, MatchRejected. split.
      { apply list_elem_of_In. simpl. tauto. }
      cbv zeta. split; [done|]. intros e2 Hs%invoke_steps. lia.
  - destruct (handleCellClick_mismatch e r c i pre cur (mkClick pr pc pi) Hc Hm)
      as (e1 & Hrun & Hsteps & _ & _ & _ & Hidle & Hfirst & _ & Hlog).
    exists e1. eexists. split_and!; [done|done|exact Hlog|done|done].
Qed.

Lemma canCleanup_symmetric_witness :
  gridShape 6 5 demoGrid ∧ (0 ≤ 2 < 6) ∧ (0 ≤ 1 < 5) ∧ (0 ≤ 3 < 6)
  ∧ cellIsEmpty demoGrid 1 2 = false ∧ cellIsEmpty demoGrid 1 3 = false
  ∧ (is_Some (canCleanup 6 5 demoGrid 2 1 3 1) ↔ is_Some (canCleanup 6 5 demoGrid 3 1 2 1)).
Proof.
  assert (cellIsEmpty demoGrid 1 2 = false) as H1 by (vm_compute; reflexivity).
  assert (cellIsEmpty demoGrid 1 3 = false) as H2 by (vm_compute; reflexivity).
  assert (gridShape 6 5 demoGrid) as Hshape by (split; [reflexivity|repeat constructor]).
  split; [exact Hshape|].
  split; [lia|]. split; [lia|]. split; [lia|]. split; [exact H1|]. split; [exact H2|].
  exact (canCleanup_symmetric 6 5 demoGrid 2 1 3 1 Hshape
           ltac:(lia) ltac:(lia) ltac:(lia) ltac:(lia) H1 H2).
Defined.

Lemma successful_match_witness :
  SecondClick demoPickedA 1 3 (cellAt demoGrid 1 2) (cellAt demoGrid 1 3) (mkClick 1 2 0)
  ∧ onDrawLine demoPickedA = true
  ∧ handleCellClick 1 3 0 demoPickedA = Some (tt, demoMatched)
  ∧ score demoMatched = score demoPickedA + 100
  ∧ remain demoMatched = remain demoPickedA - 2
  ∧ invoke (MatchSuccess 1 2 1 3 0 0) demoMatched = Some (tt, demoCleared)
  ∧ steps demoCleared = steps demoPickedA + 1
  ∧ cellIsEmpty (grid demoCleared) 1 2 = true.
Proof.
  assert (SecondClick demoPickedA 1 3 (cellAt demoGrid 1 2) (cellAt demoGrid 1 3)
            (mkClick 1 2 0)) as Hc by (constructor; [split; [reflexivity|repeat constructor]|vm_compute; reflexivity..]).
  assert (isMatch (pic (cellAt demoGrid 1 2)) (pic (cellAt demoGrid 1 3)) = true) as Hm
    by (vm_compute; reflexivity).
  assert (canCleanup (cols demoPickedA) (rows demoPickedA) (grid demoPickedA) 2 1 3 1
          = Some [(2, 1); (3, 1)]) as Hp by (vm_compute; reflexivity).
  assert (onDrawLine demoPickedA = true) as Hd by (vm_compute; reflexivity).
  assert (handleCellClick 1 3 0 demoPickedA = Some (tt, demoMatched)) as Hclick
    by (vm_compute; reflexivity).
  assert (invoke (MatchSuccess 1 2 1 3 0 0) demoMatched = Some (tt, demoCleared)) as Hack
    by (vm_compute; reflexivity).
  destruct (successful_match demoPickedA 1 3 0 _ _ 1 2 0 _ Hc Hm Hp Hd)
    as (e1 & Hrun & Hscore & Hremain & _ & _ & _ & Hafter).
  rewrite Hclick in Hrun. injection Hrun as <-.
  destruct (Hafter demoCleared Hack) as (Hsteps & _).
  split; [exact Hc|]. split; [exact Hd|]. split; [exact Hclick|]. split; [exact Hscore|].
  split; [exact Hremain|]. split; [exact Hack|]. split; [exact Hsteps|].
  vm_compute; reflexivity.
Defined.

Lemma step_counter_witness :
  SecondClick demoPickedK 3 2 (cellAt demoGrid 1 1) (cellAt demoGrid 3 2) (mkClick 1 1 0)
  ∧ onDrawLine demoPickedK = true
  ∧ (Restart ∉ [Click 1 2 0; Click 1 3 0; Acknowledge (MatchSuccess 1 2 1 3 0 0)])
  ∧ steps demoStarted ≤ steps demoCleared
  ∧ ∃ e1, handleCellClick 3 2 0 demoPickedK = Some (tt, e1) ∧ steps e1 = steps demoPickedK.
Proof.
  assert (SecondClick demoPickedK 3 2 (cellAt demoGrid 1 1) (cellAt demoGrid 3 2)
            (mkClick 1 1 0)) as Hc by (constructor; [split; [reflexivity|repeat constructor]|vm_compute; reflexivity..]).
  assert (onDrawLine demoPickedK = true) as Hd by (vm_compute; reflexivity).
  assert (Restart ∉ [Click 1 2 0; Click 1 3 0; Acknowledge (MatchSuccess 1 2 1 3 0 0)])
    as Hno by (intros Hin; repeat (apply elem_of_cons in Hin as [Hin|Hin]; [discriminate|]);
               by apply not_elem_of_nil in Hin).
  assert (performAll [Click 1 2 0; Click 1 3 0; Acknowledge (MatchSuccess 1 2 1 3 0 0)]
            demoStarted = Some demoCleared) as Hrun by (vm_compute; reflexivity).
  destruct step_counter as [Hmono Hclick].
  destruct (Hclick demoPickedK 3 2 0 _ _ 1 1 0 Hc Hd) as (e1 & events & He1 & Hsteps & _).
  split; [exact Hc|]. split; [exact Hd|]. split; [exact Hno|].
  split; [exact (Hmono _ _ _ Hno Hrun)|]. exists e1. split; [exact He1|exact Hsteps].
Defined.

Lemma border_always_empty_witness :
  performAll [Start; Click 1 2 0; Click 1 3 0; Acknowledge (MatchSuccess 1 2 1 3 0 0)]
    demoEngine = Some demoCleared
  ∧ (0 ≤ 0 < rows demoCleared) ∧ (0 ≤ 3 < cols demoCleared)
  ∧ getCell (pictures (board demoCleared)) 0 3 = Some emptyCell.
Proof.
  assert (performAll
            [Start; Click 1 2 0; Click 1 3 0; Acknowledge (MatchSuccess 1 2 1 3 0 0)]
            demoEngine = Some demoCleared) as Hrun by (vm_compute; reflexivity).
  assert (0 ≤ 0 < rows demoCleared) as Hy by (change (rows demoCleared) with 5; lia).
  assert (0 ≤ 3 < cols demoCleared) as Hx by (change (cols demoCleared) with 6; lia).
  split; [exact Hrun|]. split; [exact Hy|]. split; [exact Hx|].
  exact (border_always_empty _ demoEngine demoCleared 0 3 Hrun Hy Hx (or_introl eq_refl)).
Defined.

(** * Starting again, a rejection unheard, the end of a game *)

(** C8 as written fails: after a match and a reshuffle, [startGame] leaves
    the score at 100, the steps at 1 and the credits at 4. *)
Lemma startGame_keeps_counters :
  performAll
    [Start; Click 1 2 0; Click 1 3 0; Acknowledge (MatchSuccess 1 2 1 3 0 0); Reshuffle]
    demoEngine = Some demoUsed
  ∧ startGame demoUsed = Some (tt, demoStartedAgain)
  ∧ score demoStartedAgain = 100 ∧ steps demoStartedAgain = 1
  ∧ leftDisorderTime demoStartedAgain = 4.
Proof. split_and!; vm_compute; reflexivity. Qed.

(** C8, amended: [restartGame] builds a fresh grid, sets the score and the
    steps to 0, the credits to 5 and the time to the configured time, and
    starts the countdown; [startGame] builds a fresh grid, sets the time and
    starts the countdown, and keeps the score, the steps and the credits.
    The grid is fresh: the outcome does not depend on the grid before. *)
Theorem start_and_restart e e' :
  (startGame e = Some (tt, e') →
   score e' = score e ∧ steps e' = steps e ∧ leftDisorderTime e' = leftDisorderTime e
   ∧ leftTime e' = configInitialTime e ∧ timerRunning e' = true
   ∧ remain e' = getActualLetterCount (cols e) (rows e) (grid e')
   ∧ ∀ g, startGame (setBoard (setPictures g (board e)) e) = Some (tt, e'))
  ∧ (restartGame e = Some (tt, e') →
     score e' = 0 ∧ steps e' = 0 ∧ leftDisorderTime e' = 5
     ∧ leftTime e' = configInitialTime e ∧ timerRunning e' = true
     ∧ ∀ g, restartGame (setBoard (setPictures g (board e)) e) = Some (tt, e')).
Proof.
  split.
  - rewrite startGame_init. intros Hrun.
    pose proof (init_effect _ _ Hrun) as (Hs & Hn & Hd & Ht & Hr & _ & _ & _ & _ & Hm).
    repeat (split; [assumption|]). intros g. rewrite init_fresh. exact Hrun.
  - intros Hrun. pose proof (restartGame_effect _ _ Hrun) as (Hs & Hn & Hd & Ht & Hr).
    repeat (split; [assumption|]). intros g. rewrite restartGame_fresh. exact Hrun.
Qed.

Lemma start_and_restart_witness :
  restartGame demoUsed = Some (tt, demoRestarted)
  ∧ score demoRestarted = 0 ∧ steps demoRestarted = 0
  ∧ leftDisorderTime demoRestarted = 5
  ∧ leftTime demoRestarted = configInitialTime demoUsed
  ∧ timerRunning demoRestarted = true.
Proof.
  assert (restartGame demoUsed = Some (tt, demoRestarted)) as Hrun
    by (vm_compute; reflexivity).
  destruct (proj2 (start_and_restart demoUsed demoRestarted) Hrun)
    as (Hs & Hn & Hd & Ht & Hr & _).
  split; [exact Hrun|]. split; [exact Hs|]. split; [exact Hn|]. split; [exact Hd|].
  split; [exact Ht|exact Hr].
Defined.

(** C10 as written fails: the rejected attempt sets [selectedCell], which
    held the first pick, to null. *)
Lemma rejection_clears_selectedCell :
  performAll [Start; Click 1 1 0] (newEngine (Some 6) (Some 5) (Some 120) demoTape)
  = Some deafPickedK
  ∧ onDrawLine deafPickedK = false
  ∧ grid deafPickedK = demoGrid
  ∧ selectedCell deafPickedK = Some (mkClick 1 1 0)
  ∧ isMatch (pic (cellAt demoGrid 1 1)) (pic (cellAt demoGrid 3 2)) = true
  ∧ canCleanup 6 5 demoGrid 1 1 2 3 = None
  ∧ handleCellClick 3 2 0 deafPickedK = Some (tt, deafRejected)
  ∧ isAnimating deafRejected = true ∧ selectedCell deafRejected = None.
Proof. split_and!; vm_compute; reflexivity. Qed.

(** C10, amended: with no [onDrawLine], after a second click on the
    case-opposite letter with no path, [isAnimating] is true and the
    rejection continuation has not run: the steps are as before and the
    first pick [preClickInfo] is kept, while [selectedCell] was set to null by
    [drawLine]; every later [handleCellClick] leaves the state as it is. *)
Theorem rejected_without_listener e r c i pre cur pr pc pi :
  SecondClick e r c pre cur (mkClick pr pc pi) →
  isMatch (pic pre) (pic cur) = true →
  canCleanup (cols e) (rows e) (grid e) pc pr c r = None →
  onDrawLine e = false →
  ∃ e', handleCellClick r c i e = Some (tt, e')
        ∧ isAnimating e' = true ∧ steps e' = steps e
        ∧ preClickInfo e' = Some (mkClick pr pc pi) ∧ selectedCell e' = None
        ∧ log (board e')
          = log (board e)
            ++ [Hint []; ShakeEffect [(pr, pc, pic pre); (r, c, pic cur)];
                SelectedCellChange None]
        ∧ ∀ cells, performAll (clicks cells) e' = Some e'.
Proof.
  intros Hc Hm Hpath Hdraw.
  destruct (handleCellClick_rejected_unheard e r c i pre cur pr pc pi Hc Hm Hpath Hdraw)
    as (e' & Hrun & Hanim & Hsteps & _ & _ & _ & Hfirst & Hsel & Hlog).
  exists e'. repeat (split; [assumption|]). intros cells. by apply clicks_locked.
Qed.

Lemma rejected_without_listener_witness :
  SecondClick deafPickedK 3 2 (cellAt demoGrid 1 1) (cellAt demoGrid 3 2) (mkClick 1 1 0)
  ∧ onDrawLine deafPickedK = false
  ∧ ∃ e', handleCellClick 3 2 0 deafPickedK = Some (tt, e')
          ∧ isAnimating e' = true ∧ steps e' = steps deafPickedK
          ∧ preClickInfo e' = Some (mkClick 1 1 0)
          ∧ performAll (clicks [(1, 2, 0); (1, 3, 0)]) e' = Some e'.
Proof.
  assert (SecondClick deafPickedK 3 2 (cellAt demoGrid 1 1) (cellAt demoGrid 3 2)
            (mkClick 1 1 0)) as Hc by (constructor; [split; [reflexivity|repeat constructor]|vm_compute; reflexivity..]).
  assert (isMatch (pic (cellAt demoGrid 1 1)) (pic (cellAt demoGrid 3 2)) = true) as Hm
    by (vm_compute; reflexivity).
  assert (canCleanup (cols deafPickedK) (rows deafPickedK) (grid deafPickedK) 1 1 2 3
          = None) as Hp by (vm_compute; reflexivity).
  assert (onDrawLine deafPickedK = false) as Hd by (vm_compute; reflexivity).
  destruct (rejected_without_listener deafPickedK 3 2 0 _ _ 1 1 0 Hc Hm Hp Hd)
    as (e' & Hrun & Hanim & Hsteps & Hfirst & _ & _ & Hlocked).
  split; [exact Hc|]. split; [exact Hd|]. exists e'.
  split; [exact Hrun|]. split; [exact Hanim|]. split; [exact Hsteps|].
  split; [exact Hfirst|exact (Hlocked _)].
Defined.

(** C2: a play area of two cells and one second on the clock.  After the
    tick that reports [TimeExceeded], two clicks still score 100, empty the
    two cells, count a step and report [Normal]. *)
Lemma game_over_not_final :
  performAll [Start; Tick] shortEngine = Some shortOver
  ∧ gameOverReports (log (board shortOver)) = [TimeExceeded]
  ∧ score shortOver = 0 ∧ remain shortOver = 2 ∧ steps shortOver = 0
  ∧ cellIsEmpty (grid shortOver) 1 1 = false
  ∧ performAll [Click 1 1 0; Click 1 2 0] shortOver = Some shortDone
  ∧ score shortDone = 100 ∧ remain shortDone = 0 ∧ steps shortDone = 1
  ∧ cellIsEmpty (grid shortDone) 1 1 = true
  ∧ gameOverReports (log (board shortDone)) = [TimeExceeded; Normal].
Proof. split_and!; vm_compute; reflexivity. Qed.

(** * The points that [canCleanup] leaves are a path *)

Lemma whileLoop_scan_Some {A} fuel (R E C : Z → bool) (ret : Z → A) next i a :
  whileLoop fuel R
    (λ j, if negb (E j) then Break else if C j then Return (ret j) else Continue)
    next i = Some a →
  ∃ n, (∀ k, (k ≤ n)%nat →
             R (Nat.iter k next i) = true ∧ E (Nat.iter k next i) = true)
       ∧ C (Nat.iter n next i) = true
       ∧ a = ret (Nat.iter n next i).
Proof.
  intros (n & _ & Hk & Hc & Hb)%whileLoop_Some. exists n.
  destruct (E (Nat.iter n next i)) eqn:HE; [|done]. simpl in Hb.
  destruct (C (Nat.iter n next i)) eqn:HC; [|done]. injection Hb as <-.
  split_and!; [|done..]. intros k Hle.
  destruct (decide (k = n)) as [->|]; [done|].
  destruct (Hk k) as [HR Hbody]; [lia|]. split; [done|].
  by destruct (E (Nat.iter k next i)).
Qed.

Lemma straight_linkPath g x1 y1 x2 y2 :
  segmentClear g (x1, y1) (x2, y2) = true →
  linkPath g (x1, y1) (x2, y2) [(x1, y1); (x2, y2)].
Proof. intros H. unfold linkPath. simpl. rewrite H. split_and!; (done || lia). Qed.

Lemma corner_linkPath g a c b :
  segmentClear g a c = true → segmentClear g c b = true →
  cellIsEmpty g c.2 c.1 = true →
  linkPath g a b [a; c; b].
Proof.
  intros H1 H2 Hc. unfold linkPath. simpl. rewrite H1, H2, Hc.
  split_and!; (done || lia).
Qed.

Lemma corners_linkPath g a c1 c2 b :
  segmentClear g a c1 = true → segmentClear g c1 c2 = true → segmentClear g c2 b = true →
  cellIsEmpty g c1.2 c1.1 = true → cellIsEmpty g c2.2 c2.1 = true →
  linkPath g a b [a; c1; c2; b].
Proof.
  intros H1 H2 H3 Hc1 Hc2. unfold linkPath. simpl. rewrite H1, H2, H3, Hc1, Hc2.
  split_and!; (done || lia).
Qed.

Lemma row_segment g x1 x2 y :
  (∀ k, Z.min x1 x2 < k < Z.max x1 x2 → cellIsEmpty g y k = true) →
  segmentClear g (x1, y) (x2, y) = true.
Proof.
  intros H. unfold segmentClear. simpl. apply orb_true_iff. left.
  by apply isRowEmpty_spec.
Qed.

Lemma col_segment g x y1 y2 :
  (∀ k, Z.min y1 y2 < k < Z.max y1 y2 → cellIsEmpty g k x = true) →
  segmentClear g (x, y1) (x, y2) = true.
Proof.
  intros H. unfold segmentClear. simpl. apply orb_true_iff. right.
  by apply isColEmpty_spec.
Qed.

Section Paths.

Variables (cols rows : Z) (g : Grid).

Lemma detourCol_path x y1 y2 d pts :
  d = 1 ∨ d = -1 →
  detourCol cols g x y1 x y2 d = Some pts → linkPath g (x, y1) (x, y2) pts.
Proof.
  intros Hd. unfold detourCol.
  intros (n & Hk & HC & ->)%(whileLoop_scan_Some _ _
     (λ i, cellIsEmpty g y2 (x + d * i))
     (λ i, isColEmpty g (x + d * i) y1 (x + d * i) y2)).
  rewrite iter_succ in *.
  assert (∀ k, 1 ≤ k ≤ 1 + Z.of_nat n →
               cellIsEmpty g y1 (x + d * k) = true ∧ cellIsEmpty g y2 (x + d * k) = true)
    as Hcells.
  { intros k Hrange. destruct (Hk (Z.to_nat (k - 1))) as [HR HE]; [lia|].
    rewrite iter_succ in HR, HE. replace (1 + Z.of_nat (Z.to_nat (k - 1))) with k in * by lia.
    apply andb_true_iff in HR as [_ HR]. done. }
  set (m := 1 + Z.of_nat n) in *.
  apply corners_linkPath; simpl.
  - apply row_segment. intros k Hrange.
    replace k with (x + d * (d * (k - x))) by (destruct Hd; subst d; lia).
    apply Hcells. destruct Hd; subst d; lia.
  - unfold segmentClear. simpl. by rewrite HC, orb_true_r.
  - apply row_segment. intros k Hrange.
    replace k with (x + d * (d * (k - x))) by (destruct Hd; subst d; lia).
    apply Hcells. destruct Hd; subst d; lia.
  - apply Hcells. lia.
  - apply Hcells. lia.
Qed.

Lemma detourRow_path x1 x2 y d pts :
  d = 1 ∨ d = -1 →
  detourRow rows g x1 y x2 y d = Some pts → linkPath g (x1, y) (x2, y) pts.
Proof.
  intros Hd. unfold detourRow.
  intros (n & Hk & HC & ->)%(whileLoop_scan_Some _ _
     (λ i, cellIsEmpty g (y + d * i) x2)
     (λ i, isRowEmpty g x1 (y + d * i) x2 (y + d * i))).
  rewrite iter_succ in *.
  assert (∀ k, 1 ≤ k ≤ 1 + Z.of_nat n →
               cellIsEmpty g (y + d * k) x1 = true ∧ cellIsEmpty g (y + d * k) x2 = true)
    as Hcells.
  { intros k Hrange. destruct (Hk (Z.to_nat (k - 1))) as [HR HE]; [lia|].
    rewrite iter_succ in HR, HE. replace (1 + Z.of_nat (Z.to_nat (k - 1))) with k in * by lia.
    apply andb_true_iff in HR as [_ HR]. done. }
  set (m := 1 + Z.of_nat n) in *.
  apply corners_linkPath; simpl.
  - apply col_segment. intros k Hrange.
    replace k with (y + d * (d * (k - y))) by (destruct Hd; subst d; lia).
    apply Hcells. destruct Hd; subst d; lia.
  - unfold segmentClear. simpl. by rewrite HC.
  - apply col_segment. intros k Hrange.
    replace k with (y + d * (d * (k - y))) by (destruct Hd; subst d; lia).
    apply Hcells. destruct Hd; subst d; lia.
  - apply Hcells. lia.
  - apply Hcells. lia.
Qed.

Lemma turnCol_path x1 y1 x2 y2 d pts :
  d = 1 ∨ d = -1 →
  turnCol cols g x1 y1 x2 y2 d = Some pts → linkPath g (x1, y1) (x2, y2) pts.
Proof.
  intros Hd. unfold turnCol.
  intros (n & Hk & HC & ->)%(whileLoop_scan_Some _ _
     (λ i, cellIsEmpty g y1 i)
     (λ i, isColEmpty g i y1 i y2 && isRowEmpty g i y2 x2 y2 && cellIsEmpty g y2 i)).
  rewrite iter_add in *.
  assert (∀ k, 1 ≤ k ≤ 1 + Z.of_nat n → cellIsEmpty g y1 (x1 + d * k) = true) as Hcells.
  { intros k Hrange. destruct (Hk (Z.to_nat (k - 1))) as [_ HE]; [lia|].
    rewrite iter_add in HE.
    by replace (x1 + d + d * Z.of_nat (Z.to_nat (k - 1))) with (x1 + d * k) in HE by lia. }
  replace (x1 + d + d * Z.of_nat n) with (x1 + d * (1 + Z.of_nat n)) in * by lia.
  set (m := 1 + Z.of_nat n) in *.
  apply andb_true_iff in HC as [[Hcol Hrow]%andb_true_iff Hcorner].
  apply corners_linkPath; simpl.
  - apply row_segment. intros k Hrange.
    replace k with (x1 + d * (d * (k - x1))) by (destruct Hd; subst d; lia).
    apply Hcells. destruct Hd; subst d; lia.
  - unfold segmentClear. simpl. by rewrite Hcol, orb_true_r.
  - unfold segmentClear. simpl. by rewrite Hrow.
  - apply Hcells. lia.
  - done.
Qed.

Lemma turnRow_path x1 y1 x2 y2 d pts :
  d = 1 ∨ d = -1 →
  turnRow rows g x1 y1 x2 y2 d = Some pts → linkPath g (x1, y1) (x2, y2) pts.
Proof.
  intros Hd. unfold turnRow.
  intros (n & Hk & HC & ->)%(whileLoop_scan_Some _ _
     (λ i, cellIsEmpty g i x1)
     (λ i, isRowEmpty g x1 i x2 i && isColEmpty g x2 i x2 y2 && cellIsEmpty g i x2)).
  rewrite iter_add in *.
  assert (∀ k, 1 ≤ k ≤ 1 + Z.of_nat n → cellIsEmpty g (y1 + d * k) x1 = true) as Hcells.
  { intros k Hrange. destruct (Hk (Z.to_nat (k - 1))) as [_ HE]; [lia|].
    rewrite iter_add in HE.
    by replace (y1 + d + d * Z.of_nat (Z.to_nat (k - 1))) with (y1 + d * k) in HE by lia. }
  replace (y1 + d + d * Z.of_nat n) with (y1 + d * (1 + Z.of_nat n)) in * by lia.
  set (m := 1 + Z.of_nat n) in *.
  apply andb_true_iff in HC as [[Hrow Hcol]%andb_true_iff Hcorner].
  apply corners_linkPath; simpl.
  - apply col_segment. intros k Hrange.
    replace k with (y1 + d * (d * (k - y1))) by (destruct Hd; subst d; lia).
    apply Hcells. destruct Hd; subst d; lia.
  - unfold segmentClear. simpl. by rewrite Hrow.
  - unfold segmentClear. simpl. by rewrite Hcol, orb_true_r.
  - apply Hcells. lia.
  - done.
Qed.

Lemma sameColumn_path x1 y1 x2 y2 pts :
  sameColumn cols g x1 y1 x2 y2 = Some pts → linkPath g (x1, y1) (x2, y2) pts.
Proof.
  unfold sameColumn. destruct (Z.eqb_spec x1 x2) as [<-|]; [|done].
  destruct (Z.eqb_spec (Z.abs (y1 - y2)) 1) as [Hadj|_].
  { intros [= <-]. apply straight_linkPath, col_segment. lia. }
  destruct (isColEmpty g x1 y1 x1 y2) eqn:Hcol.
  { intros [= <-]. apply straight_linkPath. unfold segmentClear. simpl.
    by rewrite Hcol, orb_true_r. }
  destruct (detourCol cols g x1 y1 x1 y2 1) eqn:Hright; simpl.
  - intros [= <-]. eapply detourCol_path; [|done]. by left.
  - apply detourCol_path. by right.
Qed.

Lemma sameRow_path x1 y1 x2 y2 pts :
  sameRow rows g x1 y1 x2 y2 = Some pts → linkPath g (x1, y1) (x2, y2) pts.
Proof.
  unfold sameRow. destruct (Z.eqb_spec y1 y2) as [<-|]; [|done].
  destruct (Z.eqb_spec (Z.abs (x1 - x2)) 1) as [Hadj|_].
  { intros [= <-]. apply straight_linkPath, row_segment. lia. }
  destruct (isRowEmpty g x1 y1 x2 y1) eqn:Hrow.
  { intros [= <-]. apply straight_linkPath. unfold segmentClear. simpl.
    by rewrite Hrow. }
  destruct (detourRow rows g x1 y1 x2 y1 1) eqn:Hdown; simpl.
  - intros [= <-]. eapply detourRow_path; [|done]. by left.
  - apply detourRow_path. by right.
Qed.

Lemma oneTurn_path x1 y1 x2 y2 pts :
  oneTurn g x1 y1 x2 y2 = Some pts → linkPath g (x1, y1) (x2, y2) pts.
Proof.
  unfold oneTurn.
  destruct (isRowEmpty g x1 y1 x2 y1 && cellIsEmpty g y1 x2 && isColEmpty g x2 y1 x2 y2)
    eqn:Hfirst.
  { apply andb_true_iff in Hfirst as [[Hrow Hc]%andb_true_iff Hcol].
    intros [= <-]. apply corner_linkPath; unfold segmentClear; simpl; [|..|done].
    - by rewrite Hrow.
    - by rewrite Hcol, orb_true_r. }
  destruct (isColEmpty g x1 y1 x1 y2 && cellIsEmpty g y2 x1 && isRowEmpty g x1 y2 x2 y2)
    eqn:Hsecond; [|done].
  apply andb_true_iff in Hsecond as [[Hcol Hc]%andb_true_iff Hrow].
  intros [= <-]. apply corner_linkPath; unfold segmentClear; simpl; [|..|done].
  - by rewrite Hcol, orb_true_r.
  - by rewrite Hrow.
Qed.

Lemma twoTurns_path x1 y1 x2 y2 pts :
  twoTurns cols rows g x1 y1 x2 y2 = Some pts → linkPath g (x1, y1) (x2, y2) pts.
Proof.
  unfold twoTurns. destruct (negb (x1 =? x2) && negb (y1 =? y2)); [|done].
  destruct (turnCol cols g x1 y1 x2 y2 1) eqn:H1; simpl.
  { intros [= <-]. eapply turnCol_path; [|done]. by left. }
  destruct (turnCol cols g x1 y1 x2 y2 (-1)) eqn:H2; simpl.
  { intros [= <-]. eapply turnCol_path; [|done]. by right. }
  destruct (turnRow rows g x1 y1 x2 y2 1) eqn:H3; simpl.
  { intros [= <-]. eapply turnRow_path; [|done]. by left. }
  apply turnRow_path. by right.
Qed.

End Paths.

(** X1.  The points that [canCleanup] hands to the line drawing are a path
    from the first cell to the second: they start at [(x1, y1)] and end at
    [(x2, y2)], are two to four (at most two corners), two consecutive points
    lie on one row or column with only empty cells strictly between them, and
    every corner is an empty cell of the grid. *)
Theorem canCleanup_path cols rows g x1 y1 x2 y2 pts :
  canCleanup cols rows g x1 y1 x2 y2 = Some pts →
  linkPath g (x1, y1) (x2, y2) pts.
Proof.
  unfold canCleanup.
  destruct (sameColumn cols g x1 y1 x2 y2) eqn:H1; simpl.
  { intros [= <-]. by eapply sameColumn_path. }
  destruct (sameRow rows g x1 y1 x2 y2) eqn:H2; simpl.
  { intros [= <-]. by eapply sameRow_path. }
  destruct (oneTurn g x1 y1 x2 y2) eqn:H3; simpl.
  { intros [= <-]. by eapply oneTurn_path. }
  apply twoTurns_path.
Qed.

(** * Every path is found *)








Section Found.

Variables (cols rows : Z) (g : Grid).
Variables (x1 y1 x2 y2 : Z).
Hypothesis (Hx1 : 0 ≤ x1 < cols) (Hy1 : 0 ≤ y1 < rows).










End Found.







(** * [isSolvable] decides whether the board can be cleared *)

Lemma filterIndex_filter {A} (keep : nat → bool) (P : A → Prop) `{∀ x, Decision (P x)}
    k (l : list A) :
  (∀ n x, l !! n = Some x → keep (k + n)%nat = true ↔ P x) →
  filterIndex keep k l = filter P l.
Proof.
  revert k. induction l as [|x l IH]; intros k Hk; simpl; [done|].
  pose proof (Hk 0%nat x eq_refl) as Hx. rewrite Nat.add_0_r in Hx.
  rewrite (IH (S k)).
  2: { intros n y Hy. rewrite <-(Hk (S n) y Hy). by rewrite Nat.add_succ_r. }
  destruct (keep k).
  - rewrite filter_cons_True; [done|]. by apply Hx.
  - rewrite filter_cons_False; [done|]. intros HP. apply Hx in HP. done.
Qed.

Lemma filterIndex_map {A B} (f : A → B) keep k (l : list A) :
  filterIndex keep k (map f l) = map f (filterIndex keep k l).
Proof.
  revert k. induction l as [|x l IH]; intros k; simpl; [done|].
  rewrite IH. by destruct (keep k).
Qed.

Lemma filterIndex_NoDup {A} `{EqDecision A} (l : list A) i j p q :
  NoDup l → l !! i = Some p → l !! j = Some q →
  filterIndex (dropTwo i j) 0 l = filter (λ x, x ≠ p ∧ x ≠ q) l.
Proof.
  intros Hl Hi Hj. apply filterIndex_filter. intros n x Hn. simpl. unfold dropTwo.
  rewrite andb_true_iff, !negb_true_iff, !Nat.eqb_neq. split.
  - intros [Hni Hnj]. split; intros ->.
    + apply Hni. by eapply NoDup_lookup.
    + apply Hnj. by eapply NoDup_lookup.
  - intros [Hp Hq]. split; intros ->; congruence.
Qed.

Lemma indexPairs_elem n i j : (i < j < n)%nat → (i, j) ∈ indexPairs n.
Proof.
  intros Hij. unfold indexPairs. rewrite list_elem_of_In, in_flat_map.
  exists i. split; [apply in_seq; lia|]. apply in_map_iff. exists j.
  split; [done|]. apply in_seq. lia.
Qed.

Lemma grid_ext cols rows (g g' : Grid) :
  gridShape cols rows g → gridShape cols rows g' →
  (∀ r c, getCell g r c = getCell g' r c) → g = g'.
Proof.
  intros [Hlen Hall] [Hlen' Hall'] Hget. apply list_eq_same_length with (length g); [congruence|done|].
  intros n cells cells' Hn Hrow Hrow'. 
  eapply Forall_lookup_1 in Hall as Hc; [|done].
  eapply Forall_lookup_1 in Hall' as Hc'; [|done]. simpl in Hc, Hc'.
  apply list_eq. intros m. specialize (Hget (Z.of_nat n) (Z.of_nat m)).
  unfold getCell in Hget.
  destruct (Z.ltb_spec (Z.of_nat n) 0), (Z.ltb_spec (Z.of_nat m) 0); try lia.
  simpl in Hget. by rewrite !Nat2Z.id, Hrow, Hrow' in Hget.
Qed.

Ltac absurd_cell :=
  exfalso;
  match goal with
  | H : ¬ _ |- _ => apply H; first [done | by left | by right | by split_and!]
  end.

Section Clearing.

Variables (cols rows : Z).

Lemma gridShape_clearPair g p q :
  gridShape cols rows g → gridShape cols rows (clearPair g p q).
Proof. intros. by do 2 apply gridShape_updCell. Qed.

Lemma getCell_clearPair g p q r c :
  getCell (clearPair g p q) r c =
  if decide ((r, c) = p ∨ (r, c) = q) then markEmpty <$> getCell g r c else getCell g r c.
Proof.
  unfold clearPair. destruct p as [pr pc], q as [qr qc]. cbn [fst snd].
  rewrite !getCell_updCell.
  repeat case_decide; destruct_and?; simplify_eq; try done.
  all: try (by destruct (getCell g r c) as [[]|]).
  all: try absurd_cell.
  destruct H1 as [[= -> ->]|[= -> ->]]; absurd_cell.
Qed.

Lemma picAt_clearPair g p q x : picAt (clearPair g p q) x = picAt g x.
Proof.
  unfold picAt. rewrite getCell_clearPair. case_decide; [|done].
  by destruct (getCell g x.1 x.2).
Qed.

Lemma clearPair_comm g p q :
  gridShape cols rows g → clearPair g p q = clearPair g q p.
Proof.
  intros Hg. apply (grid_ext cols rows); [by apply gridShape_clearPair..|].
  intros r c. rewrite !getCell_clearPair.
  repeat case_decide; try done; exfalso; tauto.
Qed.

Lemma cellIsEmpty_clearPair g p q x :
  gridShape cols rows g → inPlay cols rows p → inPlay cols rows q →
  cellIsEmpty (clearPair g p q) x.1 x.2 = false ↔
  cellIsEmpty g x.1 x.2 = false ∧ x ≠ p ∧ x ≠ q.
Proof.
  intros Hg Hp Hq. unfold cellIsEmpty. rewrite getCell_clearPair.
  replace (x.1, x.2) with x by by destruct x.
  case_decide as Hx.
  - assert (is_Some (getCell g x.1 x.2)) as [cell ->].
    { unfold inPlay in *.
      destruct Hx as [<-|<-]; (eapply gridShape_getCell; [done|lia..]). }
    simpl. split; [done|]. intros (_ & ? & ?). tauto.
  - split; [|tauto]. intros ?. split_and!; [done|..]; intros ->; tauto.
Qed.

Lemma occupiedPositions_clearPair g p q :
  gridShape cols rows g → inPlay cols rows p → inPlay cols rows q →
  occupiedPositions cols rows (clearPair g p q) =
  filter (λ x, x ≠ p ∧ x ≠ q) (occupiedPositions cols rows g).
Proof.
  intros Hg Hp Hq. unfold occupiedPositions. rewrite list_filter_filter.
  apply list_filter_iff. intros x. rewrite cellIsEmpty_clearPair by done. tauto.
Qed.

Lemma occupiedPositions_NoDup g : NoDup (occupiedPositions cols rows g).
Proof. apply NoDup_filter, validPositions_NoDup. Qed.

Lemma solverCells_lookup g i cell :
  solverCells cols rows g !! i = Some cell →
  occupiedPositions cols rows g !! i = Some (sRow cell, sCol cell)
  ∧ sPic cell = picAt g (sRow cell, sCol cell).
Proof.
  unfold solverCells. intros ([r c] & -> & Hp)%list_lookup_fmap_Some. done.
Qed.

Lemma solverCells_clearPair g i j p q :
  gridShape cols rows g →
  occupiedPositions cols rows g !! i = Some p →
  occupiedPositions cols rows g !! j = Some q →
  filterIndex (dropTwo i j) 0 (solverCells cols rows g) =
  solverCells cols rows (clearPair g p q).
Proof.
  intros Hg Hi Hj. unfold solverCells.
  assert (inPlay cols rows p ∧ inPlay cols rows q) as [Hp Hq].
  { split; eapply elem_of_occupiedPositions, list_elem_of_lookup_2; done. }
  rewrite filterIndex_map, (filterIndex_NoDup _ i j p q); [|apply occupiedPositions_NoDup|done..].
  rewrite occupiedPositions_clearPair by done.
  apply map_ext. intros x. f_equal.
  change (picAt g x = picAt (clearPair g p q) x). by rewrite picAt_clearPair.
Qed.

Lemma getCell_restoreCell g g0 r c r' c' :
  (is_Some (getCell g0 r c) ↔ is_Some (getCell g r c)) →
  getCell (restoreCell g0 r c (getCell g r c)) r' c' =
  if decide ((r, c) = (r', c')) then getCell g r c else getCell g0 r' c'.
Proof.
  intros Hdom. unfold restoreCell, setCell.
  destruct (getCell g r c) as [cell|] eqn:Hcell.
  - rewrite getCell_updCell. destruct Hdom as [_ [cell0 ->]]; [done|]. simpl.
    repeat case_decide; destruct_and?; simplify_eq; try done; absurd_cell.
  - case_decide as Heq; [|done]. injection Heq as <- <-.
    destruct (getCell g0 r c) eqn:E; [|done].
    destruct Hdom as [[? [=]] _]. done.
Qed.

Lemma restore_clearPair g p q :
  gridShape cols rows g →
  restoreCell (restoreCell (clearPair g p q) p.1 p.2 (getCell g p.1 p.2))
    q.1 q.2 (getCell g q.1 q.2) = g.
Proof.
  intros Hg.
  assert (∀ g0 r c, gridShape cols rows g0 →
            gridShape cols rows (restoreCell g0 r c (getCell g r c))) as Hshape.
  { intros g0 r c ?. unfold restoreCell. destruct (getCell g r c); [|done].
    by apply gridShape_updCell. }
  assert (∀ r c, is_Some (getCell (clearPair g p q) r c) ↔ is_Some (getCell g r c))
    as Hdom.
  { intros r c. rewrite getCell_clearPair. case_decide; [|done].
    by rewrite fmap_is_Some. }
  assert (∀ r c, getCell (restoreCell (clearPair g p q) p.1 p.2 (getCell g p.1 p.2)) r c =
                 if decide (p = (r, c)) then getCell g r c else getCell (clearPair g p q) r c)
    as Hfirst.
  { intros r c. rewrite getCell_restoreCell by apply Hdom.
    replace (p.1, p.2) with p by by destruct p.
    case_decide as Heq; [|done]. by rewrite Heq. }
  apply (grid_ext cols rows); [|done|].
  { by apply Hshape, Hshape, gridShape_clearPair. }
  intros r c. rewrite getCell_restoreCell.
  2: { rewrite Hfirst. case_decide; [done|apply Hdom]. }
  replace (q.1, q.2) with q by by destruct q.
  case_decide as Hq; [by rewrite Hq|].
  rewrite Hfirst. case_decide as Hp; [done|].
  rewrite getCell_clearPair. rewrite decide_False; [done|]. intros [?|?]; congruence.
Qed.

End Clearing.

Lemma firstPair_search (I : SolverHeap → Prop) (good : nat * nat → Prop) step pairs h :
  (∀ h0 ij, ij ∈ pairs → I h0 →
            ((step h0 ij).1 = true ↔ good ij)
            ∧ ((step h0 ij).1 = false → I (step h0 ij).2)) →
  I h →
  ((firstPair step pairs h).1 = true ↔ ∃ ij, ij ∈ pairs ∧ good ij)
  ∧ ((firstPair step pairs h).1 = false → I (firstPair step pairs h).2).
Proof.
  revert h. induction pairs as [|ij pairs IH]; intros h Hstep Hh; simpl.
  { split; [|done]. split; [done|]. intros (? & []%elem_of_nil & _). }
  destruct (Hstep h ij) as [Hgood Hkeep]; [left|done|].
  destruct (step h ij) as [[] h1] eqn:Hrun; simpl in *.
  { split; [|done]. split; [|done]. intros _. exists ij. split; [left|by apply Hgood]. }
  destruct (IH h1) as [IH1 IH2]; [|by apply Hkeep|].
  { intros h0 ij0 Hin. apply Hstep. by right. }
  split; [|done]. rewrite IH1. split.
  - intros (ij0 & Hin & Hg). exists ij0. split; [by right|done].
  - intros (ij0 & [->|Hin]%elem_of_cons & Hg).
    + apply Hgood in Hg. done.
    + by exists ij0.
Qed.

Section Search.

Variables (cols rows : Z).

Local Abbreviation goodPair := (goodPair cols rows).
Local Abbreviation searched := (searched cols rows).

Lemma tryPair_search fuel h i j :
  (∀ h', gridShape cols rows (testMap h') →
         (length (solverCells cols rows (testMap h')) ≤ fuel)%nat → searched fuel h') →
  gridShape cols rows (testMap h) →
  (i < j < length (solverCells cols rows (testMap h)))%nat →
  (length (solverCells cols rows (testMap h)) ≤ S fuel)%nat →
  let r := tryPair (backtrackSolve fuel cols rows) cols rows
             (solverCells cols rows (testMap h)) h (i, j) in
  (r.1 = true ↔ goodPair (testMap h) (i, j)) ∧ (r.1 = false → testMap r.2 = testMap h).
Proof.
  intros IH Hshape Hij Hlen. set (T := testMap h) in *.
  destruct (lookup_lt_is_Some_2 (solverCells cols rows T) i) as [cell1 Hc1]; [lia|].
  destruct (lookup_lt_is_Some_2 (solverCells cols rows T) j) as [cell2 Hc2]; [lia|].
  destruct (solverCells_lookup _ _ _ _ _ Hc1) as [Hp Hpic1].
  destruct (solverCells_lookup _ _ _ _ _ Hc2) as [Hq Hpic2].
  set (p := (sRow cell1, sCol cell1)) in *. set (q := (sRow cell2, sCol cell2)) in *.
  assert (∀ P : Prop, goodPair T (i, j) →
            (isMatch (picAt T p) (picAt T q) = true →
             is_Some (canCleanup cols rows T p.2 p.1 q.2 q.1) →
             clearable cols rows (clearPair T p q) → P) → P) as Hgood.
  { intros P (p' & q' & Hp' & Hq' & ? & ? & ?) HP. cbn [fst snd] in Hp', Hq'.
    rewrite Hp in Hp'. rewrite Hq in Hq'. injection Hp' as <-. injection Hq' as <-.
    by apply HP. }
  unfold tryPair. cbn [fst snd]. rewrite Hc1, Hc2, Hpic1, Hpic2.
  fold p q. destruct (isMatch (picAt T p) (picAt T q)) eqn:Hmatch.
  2: { simpl. split; [|done]. split; [done|]. intros Hg. apply (Hgood _ Hg). congruence. }
  unfold deref. cbn [thisPictures setThisPictures testMap setThisPoints]. fold T.
  change (sCol cell1) with p.2. change (sRow cell1) with p.1.
  change (sCol cell2) with q.2. change (sRow cell2) with q.1.
  destruct (canCleanup cols rows T p.2 p.1 q.2 q.1) as [path|] eqn:Hpath.
  2: { simpl. split; [|done]. split; [done|]. intros Hg. apply (Hgood _ Hg).
       intros _ [? [=]]. }
  cbn [testMap setTestMap setThisPictures setThisPoints]. fold T.
  change (updCell (updCell T p.1 p.2 markEmpty) q.1 q.2 markEmpty) with (clearPair T p q).
  change (λ k : nat, negb (k =? i)%nat && negb (k =? j)%nat) with (dropTwo i j).
  rewrite (solverCells_clearPair cols rows T i j p q) by done.
  match goal with |- context [backtrackSolve fuel cols rows ?h3 _] =>
    specialize (IH h3); cbn [testMap setTestMap] in IH end.
  destruct IH as [IH1 IH2]; [by apply gridShape_clearPair| |].
  { rewrite <-(solverCells_clearPair cols rows T i j p q) by done.
    pose proof (filterIndex_drop_two i j 0 (solverCells cols rows T)). lia. }
  cbn [testMap setTestMap] in IH1, IH2.
  match goal with |- context [backtrackSolve fuel cols rows ?h3 ?c] =>
    destruct (backtrackSolve fuel cols rows h3 c) as [[] h4] end; simpl in *.
  - split; [|done]. split; [|done]. intros _. exists p, q. split_and!; try done.
    by apply IH1.
  - split.
    + split; [done|]. intros Hg. apply (Hgood _ Hg). intros _ _ Hc. by apply IH1.
    + intros _. rewrite IH2 by done. by apply restore_clearPair with cols rows.
Qed.

Lemma backtrackSolve_search fuel h :
  gridShape cols rows (testMap h) →
  (length (solverCells cols rows (testMap h)) ≤ fuel)%nat →
  searched fuel h.
Proof.
  revert h. induction fuel as [|fuel IH]; intros h Hshape Hlen; unfold searched.
  all: destruct (solverCells cols rows (testMap h)) as [|cell cells] eqn:Hcells.
  all: try (simpl in Hlen; lia).
  1,2: simpl; (split; [|done]); (split; [|done]); intros _;
       apply clearable_done; unfold solverCells in Hcells;
       by apply fmap_nil_inv in Hcells.
  cbn [backtrackSolve]. rewrite <-Hcells in *.
  set (T := testMap h) in *.
  destruct (firstPair_search (λ h0, testMap h0 = T) (goodPair T)
              (tryPair (backtrackSolve fuel cols rows) cols rows (solverCells cols rows T))
              (indexPairs (length (solverCells cols rows T))) h) as [Hfound Hkeep];
    [|done|].
  { intros h0 [i j] Hin Hh0. apply elem_of_indexPairs in Hin.
    rewrite <-Hh0. apply tryPair_search; rewrite ?Hh0; done. }
  split; [|done]. rewrite Hfound. split.
  - intros ([i j] & _ & p & q & Hp & Hq & Hmatch & Hpath & Hrest).
    apply clearable_step with p q; [|done]. split_and!; try done.
    + by eapply list_elem_of_lookup_2.
    + by eapply list_elem_of_lookup_2.
  - intros Hclear. inversion Hclear as [g Hnone|g p q (Hp & Hq & Hmatch & Hpath) Hrest]; subst g.
    { unfold solverCells in Hcells. rewrite Hnone in Hcells. done. }
    apply list_elem_of_lookup_1 in Hp as Hi. destruct Hi as [i Hi].
    apply list_elem_of_lookup_1 in Hq as Hj. destruct Hj as [j Hj].
    assert (length (solverCells cols rows T) = length (occupiedPositions cols rows T))
      as Hlength by (unfold solverCells; by rewrite length_map).
    apply lookup_lt_Some in Hi as Hi'. apply lookup_lt_Some in Hj as Hj'.
    assert (i ≠ j) as Hne.
    { intros ->. rewrite Hi in Hj. injection Hj as ->.
      by rewrite isMatch_irrefl in Hmatch. }
    apply elem_of_occupiedPositions in Hp as [[??] HA], Hq as [[??] HB].
    destruct (decide (i < j)%nat).
    + exists (i, j). split; [apply indexPairs_elem; lia|]. by exists p, q.
    + exists (j, i). split; [apply indexPairs_elem; lia|]. exists q, p.
      split_and!; try done.
      * by rewrite isMatch_sym.
      * apply canCleanup_sym; try done; lia.
      * by rewrite (clearPair_comm cols rows).
Qed.

End Search.

Lemma solvable_clearable cols rows g :
  gridShape cols rows g → solvable cols rows g = true ↔ clearable cols rows g.
Proof.
  intros Hshape. unfold solvable, isSolvableHeap. rewrite map_map_id.
  match goal with |- (backtrackSolve _ _ _ ?h _).1 = true ↔ _ =>
    destruct (backtrackSolve_search cols rows
                (length (solverCells cols rows g)) h) as [Hiff _] end;
    [done..|].
  done.
Qed.

(** X3.  [isSolvable] returns, and returns true exactly when the board can
    be cleared by moves of the game. *)
Theorem isSolvable_clearable cols rows b :
  gridShape cols rows (pictures b) →
  ∃ ok b', isSolvable cols rows b = Some (ok, b')
           ∧ (ok = true ↔ clearable cols rows (pictures b)).
Proof.
  intros Hshape. destruct (isSolvable_total cols rows b) as (b' & Hrun & _).
  exists (solvable cols rows (pictures b)), b'. split; [done|].
  by apply solvable_clearable.
Qed.

(** * The moves that [getAvailableMatches] lists *)

Lemma StronglySorted_lookup_lt {A} (R : relation A) l i j x y :
  StronglySorted R l → l !! i = Some x → l !! j = Some y → (i < j)%nat → R x y.
Proof.
  intros Hl. revert i j. induction Hl as [|z l Hl IH Hz]; intros i j Hi Hj Hij; [done|].
  destruct j as [|j]; [lia|]. simpl in Hj. destruct i as [|i]; simpl in Hi.
  - injection Hi as ->. eapply Forall_forall in Hz; [done|]. by eapply list_elem_of_lookup_2.
  - eapply IH; [done..|lia].
Qed.

Lemma posLt_irrefl p : ¬ posLt p p.
Proof. unfold posLt. lia. Qed.

Section Matches.

Variables (cols rows : Z).

Lemma occupiedPositions_sorted g : StronglySorted posLt (occupiedPositions cols rows g).
Proof. apply StronglySorted_filter, validPositions_sorted. Qed.

Lemma occupied_before g p q :
  p ∈ occupiedPositions cols rows g → q ∈ occupiedPositions cols rows g →
  posLt p q ↔
  ∃ i j, (i < j)%nat ∧ occupiedPositions cols rows g !! i = Some p
         ∧ occupiedPositions cols rows g !! j = Some q.
Proof.
  intros [i Hi]%list_elem_of_lookup_1 [j Hj]%list_elem_of_lookup_1.
  pose proof (occupiedPositions_sorted g) as Hsorted. split.
  - intros Hlt. exists i, j. split; [|done].
    destruct (decide (i < j)%nat); [done|]. exfalso.
    destruct (decide (i = j)) as [->|].
    + rewrite Hi in Hj. injection Hj as ->. by eapply posLt_irrefl.
    + assert (posLt q p) by (eapply (StronglySorted_lookup_lt posLt); [done..|lia]).
      assert (p = q) as -> by by apply posLt_asym. by eapply posLt_irrefl.
  - intros (i' & j' & Hij & Hi' & Hj'). by eapply (StronglySorted_lookup_lt posLt).
Qed.

Lemma matchOfPair_Some g cells ij p q pts :
  matchOfPair cols rows g cells ij = Some (Some (p, q), pts) ↔
  cells !! ij.1 = Some p ∧ cells !! ij.2 = Some q
  ∧ isMatch (picAt g p) (picAt g q) = true
  ∧ canCleanup cols rows g p.2 p.1 q.2 q.1 = Some pts.
Proof.
  unfold matchOfPair, picAt.
  destruct (cells !! ij.1) as [c1|]; [|split; [done|by intros [[=] _]]].
  destruct (cells !! ij.2) as [c2|]; [|split; [done|by intros (_ & [=] & _)]].
  destruct (isMatch _ _) eqn:Hmatch.
  - destruct (canCleanup _ _ _ _ _ _ _) as [pts'|] eqn:Hpath.
    + split.
      * intros [= <- <- <-]. by rewrite Hmatch, Hpath.
      * intros ([= <-] & [= <-] & _ & Hpts). rewrite Hpath in Hpts. by injection Hpts as <-.
    + split; [done|]. intros ([= <-] & [= <-] & _ & Hpts). by rewrite Hpath in Hpts.
  - split; [done|]. intros ([= <-] & [= <-] & Hm & _). by rewrite Hmatch in Hm.
Qed.

Lemma getAvailableMatches_run b :
  ∃ b', getAvailableMatches cols rows b =
          Some (omap fst (omap (matchOfPair cols rows (pictures b)
                                  (occupiedPositions cols rows (pictures b)))
                          (indexPairs (length (occupiedPositions cols rows (pictures b))))),
                b')
        ∧ pictures b' = pictures b ∧ log b' = log b.
Proof. unfold getAvailableMatches. eexists. split; [done|]. by destruct b. Qed.

Lemma elem_of_matches g p q :
  (p, q) ∈ omap fst (omap (matchOfPair cols rows g (occupiedPositions cols rows g))
                      (indexPairs (length (occupiedPositions cols rows g)))) ↔
  legalMove cols rows g p q ∧ posLt p q.
Proof.
  rewrite list_elem_of_omap. split.
  - intros ([m pts] & Hin & Hfst). simpl in Hfst. subst m.
    apply list_elem_of_omap in Hin as ([i j] & Hij & Hm).
    apply elem_of_indexPairs in Hij.
    apply matchOfPair_Some in Hm as (Hp & Hq & Hmatch & Hpath). cbn [fst snd] in Hp, Hq.
    assert (p ∈ occupiedPositions cols rows g) by by eapply list_elem_of_lookup_2.
    assert (q ∈ occupiedPositions cols rows g) by by eapply list_elem_of_lookup_2.
    split; [unfold legalMove; by rewrite Hpath|].
    apply (occupied_before g p q); [done..|]. exists i, j. split; [lia|done].
  - intros [(Hp & Hq & Hmatch & [pts Hpath]) Hlt].
    apply (occupied_before g p q) in Hlt as (i & j & Hij & Hi & Hj); [|done..].
    exists (Some (p, q), pts). split; [|done]. apply list_elem_of_omap.
    exists (i, j). split.
    + apply indexPairs_elem. apply lookup_lt_Some in Hj. lia.
    + by apply matchOfPair_Some.
Qed.

End Matches.

(** X4.  [getAvailableMatches] returns and leaves the grid as it is; the
    pairs it lists are exactly the moves of the game, each with its two
    cells in reading order. *)
Theorem getAvailableMatches_moves cols rows b :
  gridShape cols rows (pictures b) →
  ∃ ms b', getAvailableMatches cols rows b = Some (ms, b')
           ∧ pictures b' = pictures b
           ∧ ∀ p q, (p, q) ∈ ms ↔ legalMove cols rows (pictures b) p q ∧ posLt p q.
Proof.
  intros _. destruct (getAvailableMatches_run cols rows b) as (b' & Hrun & Hpics & _).
  eexists _, b'. split; [exact Hrun|]. split; [done|].
  intros p q. apply elem_of_matches.
Qed.

Section Deadlock.

Variables (cols rows : Z) (g : Grid).

Lemma legalMove_sym p q : legalMove cols rows g p q → legalMove cols rows g q p.
Proof.
  intros (Hp & Hq & Hmatch & Hpath). split_and!; try done.
  - by rewrite isMatch_sym.
  - apply elem_of_occupiedPositions in Hp as [[??] ?], Hq as [[??] ?].
    apply canCleanup_sym; try done; lia.
Qed.

Lemma legalMove_distinct p q : legalMove cols rows g p q → posLt p q ∨ posLt q p.
Proof.
  intros (_ & _ & Hmatch & _).
  assert (p ≠ q) as Hne by (intros ->; by rewrite isMatch_irrefl in Hmatch).
  destruct p as [pr pc], q as [qr qc]. unfold posLt. simpl.
  destruct (decide (pr = qr)) as [->|]; [|lia].
  destruct (decide (pc = qc)) as [->|]; [done|lia].
Qed.

(** No pair is listed exactly when the board has no move. *)
Lemma matches_nil (ms : list (Position * Position)) :
  (∀ p q, (p, q) ∈ ms ↔ legalMove cols rows g p q ∧ posLt p q) →
  ms = [] ↔ ∀ p q, ¬ legalMove cols rows g p q.
Proof.
  intros Hms. split.
  - intros -> p q Hmove. destruct (legalMove_distinct p q Hmove) as [Hlt|Hlt].
    + by eapply not_elem_of_nil, Hms.
    + eapply not_elem_of_nil, Hms. split; [by apply legalMove_sym|done].
  - intros Hnone. destruct ms as [|[p q] ms]; [done|]. exfalso.
    apply (Hnone p q), Hms. left.
Qed.

End Deadlock.

(** X5.  [checkCurrentDeadlock] returns true exactly when letters remain
    and the board has no move; it leaves the grid as it is. *)
Theorem checkCurrentDeadlock_stuck e :
  gridShape (cols e) (rows e) (grid e) →
  ∃ stuck e', checkCurrentDeadlock e = Some (stuck, e')
              ∧ grid e' = grid e
              ∧ (stuck = true ↔
                 0 < remain e ∧ ∀ p q, ¬ legalMove (cols e) (rows e) (grid e) p q).
Proof.
  intros Hshape.
  destruct (getAvailableMatches_run (cols e) (rows e) (board e))
    as (b' & Hrun & Hpics & _).
  pose proof (elem_of_matches (cols e) (rows e) (pictures (board e))) as Hms.
  unfold checkCurrentDeadlock. rewrite get_bind.
  eexists _, (setBoard b' e). split; [|split; [done|]].
  - unfold mbind, M_bind, onBoard. by rewrite Hrun.
  - rewrite andb_true_iff, Nat.eqb_eq, length_zero_iff_nil, Z.gtb_ltb, Z.ltb_lt.
    rewrite (matches_nil (cols e) (rows e) (grid e) _ Hms). tauto.
Qed.

(** X6.  A board that [isSolvable] accepts and that still holds letters
    has a move: [getAvailableMatches] lists at least one pair. *)
Theorem solvable_has_match cols rows b b1 :
  gridShape cols rows (pictures b) →
  isSolvable cols rows b = Some (true, b1) →
  occupiedPositions cols rows (pictures b) ≠ [] →
  ∃ m ms b2, getAvailableMatches cols rows b = Some (m :: ms, b2).
Proof.
  intros Hshape Hsolv Hletters.
  apply isSolvable_solvable in Hsolv as [Hsolv _]. symmetry in Hsolv.
  apply solvable_clearable in Hsolv; [|done].
  inversion Hsolv as [g Hnone|g p q Hmove Hrest]; subst g; [done|].
  destruct (getAvailableMatches_run cols rows b) as (b2 & Hrun & _).
  pose proof (elem_of_matches cols rows (pictures b)) as Hms.
  rewrite Hrun. match goal with |- context [Some (?l, _)] => destruct l as [|m ms] end.
  - exfalso. eapply (matches_nil cols rows (pictures b) []); done.
  - eauto.
Qed.

(** X7.  [showHint] points at a move of the game: it hands the two cells of
    a move, with their letters, to the hint listener, or hands over nothing
    when the board has no move. *)
Theorem showHint_move e :
  gridShape (cols e) (rows e) (grid e) →
  ∃ e', showHint e = Some (tt, e')
        ∧ grid e' = grid e
        ∧ (((∀ p q, ¬ legalMove (cols e) (rows e) (grid e) p q)
            ∧ log (board e') = log (board e))
           ∨ ∃ p q, legalMove (cols e) (rows e) (grid e) p q
                    ∧ log (board e') =
                      log (board e) ++ [Hint [letterCell (grid e) p; letterCell (grid e) q]]).
Proof.
  intros Hshape.
  destruct (getAvailableMatches_run (cols e) (rows e) (board e))
    as (b' & Hrun & Hpics & Hlog).
  pose proof (elem_of_matches (cols e) (rows e) (pictures (board e))) as Hms.
  unfold showHint. rewrite get_bind. unfold mbind at 1, M_bind at 1, onBoard.
  rewrite Hrun.
  match type of Hrun with _ = Some (?l, _) => destruct l as [|[p q] ms] eqn:Hl end.
  - eexists. split; [done|]. split; [done|]. left. split; [|done].
    apply (matches_nil (cols e) (rows e) (grid e) []); [|done].
    intros p q. apply Hms.
  - rewrite notify_run. eexists. split; [done|]. split; [done|]. right.
    exists p, q. split.
    + apply Hms. left.
    + simpl. by rewrite Hlog.
Qed.

(** * A reshuffle keeps the letters *)

Lemma getCell_assignCharacter p ch g r c :
  getCell (assignCharacter p ch g) r c =
  if decide (p = (r, c))
  then (λ cell, {| isEmpty := isEmpty cell; type := chType ch; pic := chPic ch;
                   index := Some (chIndex ch) |}) <$> getCell g r c
  else getCell g r c.
Proof.
  unfold assignCharacter. rewrite getCell_updCell. destruct p as [pr pc]. simpl.
  repeat case_decide; destruct_and?; simplify_eq; try done. exfalso. tauto.
Qed.

Lemma picAt_assignCharacter_ne p ch g q :
  p ≠ q → picAt (assignCharacter p ch g) q = picAt g q.
Proof.
  intros Hne. unfold picAt. rewrite getCell_assignCharacter, decide_False; [done|].
  by destruct q.
Qed.

Lemma picAt_assignCharacter_eq p ch g :
  is_Some (getCell g p.1 p.2) → picAt (assignCharacter p ch g) p = chPic ch.
Proof.
  intros [cell Hcell]. unfold picAt. rewrite getCell_assignCharacter, decide_True, Hcell.
  - done.
  - by destruct p.
Qed.

Lemma is_Some_assignCharacter p ch g r c :
  is_Some (getCell (assignCharacter p ch g) r c) ↔ is_Some (getCell g r c).
Proof.
  rewrite getCell_assignCharacter. case_decide; [|done]. by rewrite fmap_is_Some.
Qed.

Lemma picAt_assignAll_notin positions characters g q :
  q ∉ positions → picAt (assignAll positions characters g) q = picAt g q.
Proof.
  revert characters g. induction positions as [|p positions IH]; intros characters g Hq;
    simpl; [done|].
  destruct characters as [|ch characters]; [done|].
  apply not_elem_of_cons in Hq as [Hne Hq].
  rewrite IH by done. by apply picAt_assignCharacter_ne.
Qed.

Lemma assignAll_pics positions characters g :
  NoDup positions →
  Forall (λ p, is_Some (getCell g p.1 p.2)) positions →
  length characters = length positions →
  map (picAt (assignAll positions characters g)) positions = map chPic characters.
Proof.
  revert characters g. induction positions as [|p positions IH]; intros characters g Hnd Hin Hlen.
  { by destruct characters. }
  destruct characters as [|ch characters]; [done|].
  apply NoDup_cons in Hnd as [Hp Hnd]. apply Forall_cons in Hin as [Hcell Hin].
  simpl. f_equal.
  - rewrite picAt_assignAll_notin by done. by apply picAt_assignCharacter_eq.
  - apply IH; [done| |simpl in Hlen; lia].
    eapply Forall_impl; [done|]. intros q ?. by apply is_Some_assignCharacter.
Qed.

Section Letters.

Variables (cols rows : Z).

Lemma occupiedPositions_sameCells g g' :
  sameCells g g' → occupiedPositions cols rows g' = occupiedPositions cols rows g.
Proof.
  intros Hsame. unfold occupiedPositions. apply list_filter_iff. intros p.
  by rewrite Hsame.
Qed.

Lemma collectCharacters_pics g :
  map chPic (collectCharacters cols rows g) = lettersOf cols rows g.
Proof.
  unfold collectCharacters, lettersOf. rewrite map_map. apply map_ext. intros p.
  unfold characterAt, picAt. by destruct (getCell g p.1 p.2).
Qed.

Lemma occupied_cells g :
  gridShape cols rows g →
  Forall (λ p, is_Some (getCell g p.1 p.2)) (occupiedPositions cols rows g).
Proof.
  intros Hshape. apply Forall_forall. intros p [[??] _]%elem_of_occupiedPositions.
  eapply gridShape_getCell; [done|lia..].
Qed.

(** The letters after the positions [positions], some arrangement of the
    occupied cells, were given the characters [shuffled], some arrangement
    of the collected ones. *)
Lemma assignAll_letters g positions shuffled :
  gridShape cols rows g →
  positions ≡ₚ occupiedPositions cols rows g →
  shuffled ≡ₚ collectCharacters cols rows g →
  lettersOf cols rows (assignAll positions shuffled g) ≡ₚ lettersOf cols rows g.
Proof.
  intros Hshape Hpos Hchars.
  unfold lettersOf at 1.
  rewrite (occupiedPositions_sameCells g) by apply assignAll_cells.
  rewrite <-Hpos, assignAll_pics.
  - by rewrite Hchars, collectCharacters_pics.
  - rewrite Hpos. apply occupiedPositions_NoDup.
  - rewrite Hpos. by apply occupied_cells.
  - rewrite Hpos, Hchars. unfold collectCharacters. by rewrite length_map.
Qed.

End Letters.

Lemma reshuffled cols rows b b' :
  gridShape cols rows (pictures b) →
  smartDisorderEdgeFirst cols rows b = Some (tt, b')
  ∨ randomDisorder cols rows b = Some (tt, b') →
  sameCells (pictures b) (pictures b')
  ∧ lettersOf cols rows (pictures b') ≡ₚ lettersOf cols rows (pictures b).
Proof.
  intros Hshape [Hrun|Hrun].
  - split.
    { by apply (smartDisorderEdgeFirst_cells cols rows (pictures b) b tt b'). }
    unfold smartDisorderEdgeFirst in Hrun. rewrite gets_bind in Hrun.
    apply bind_run in Hrun as (shuffled & b1 & Hshuffle & [= <-]).
    pose proof (shuffle_pictures _ _ _ _ _ Hshuffle) as Hpics.
    apply shuffle_Permutation in Hshuffle.
    cbn [pictures setPictures]. rewrite Hpics.
    apply assignAll_letters; [done| |done]. apply sortByEdge_Permutation.
  - split.
    { by apply (randomDisorder_cells cols rows (pictures b) b tt b'). }
    unfold randomDisorder in Hrun. rewrite gets_bind in Hrun.
    apply bind_run in Hrun as (shuffled & b1 & Hshuffle & [= <-]).
    pose proof (shuffle_pictures _ _ _ _ _ Hshuffle) as Hpics.
    apply shuffle_Permutation in Hshuffle.
    cbn [pictures setPictures]. rewrite Hpics.
    by apply assignAll_letters.
Qed.

(** X8.  The edge-first and the random reshuffle move the letters among the
    occupied cells: the same cells are empty afterwards, and the letters on
    the board are the letters that were there, rearranged. *)
Theorem reshuffle_letters cols rows b b' :
  gridShape cols rows (pictures b) →
  smartDisorderEdgeFirst cols rows b = Some (tt, b')
  ∨ randomDisorder cols rows b = Some (tt, b') →
  sameCells (pictures b) (pictures b')
  ∧ lettersOf cols rows (pictures b') ≡ₚ lettersOf cols rows (pictures b).
Proof. apply reshuffled. Qed.

(** * The alphabet holds twenty-six pairs *)





Section Exhausted.

Variables (cols rows : Z) (t : string).
Hypothesis (Ht : pairable t) (Hpairs : 26 < (rows - 2) * (cols - 2) / 2).




End Exhausted.



(** * Invariants of the fields of the engine *)

Lemma keeps_onBoard_fields (I : Engine → Prop) {A} (m : M Board A) :
  (∀ e b, I e → I (setBoard b e)) → keeps I (onBoard m).
Proof. intros H e a e' He (b' & _ & ->)%onBoard_run. by apply H. Qed.

Lemma keeps_readCell (I : Engine → Prop) y x : keeps I (readCell y x).
Proof.
  intros e cell e' He. unfold readCell. destruct (getCell _ _ _); [|done].
  by intros [= <- <-].
Qed.

Create HintDb keeps discriminated.

(** One step through a method, for an invariant whose side conditions
    [side] settles. *)
Ltac keeps_step side :=
  lazymatch goal with
  | |- keeps _ (mbind _ (gets id)) => apply keeps_get_bind; intros ? ?
  | |- keeps _ (mbind _ _) => apply keeps_bind; [|intros ?]
  | |- keeps _ (mret _) => apply keeps_ret
  | |- keeps _ (gets _) => apply keeps_gets
  | |- keeps _ throw => apply keeps_throw
  | |- keeps _ (when ?c _) => destruct c eqn:?; cbn [when]
  | |- keeps _ (modify _) => apply keeps_modify; intros ? ?; side
  | |- keeps _ (onBoard _) => apply keeps_onBoard_fields; intros ? ? ?; side
  | |- keeps _ (notify _) => apply keeps_onBoard_fields; intros ? ? ?; side
  | |- keeps _ (readCell _ _) => apply keeps_readCell
  | |- keeps _ (if ?c then _ else _) => destruct c eqn:?
  | |- keeps _ (match ?x with _ => _ end) => destruct x
  | |- keeps _ _ =>
      first [ solve [auto with keeps]
            | progress unfold addShakeEffect, clearHint, destroy, setTargetLetter,
                setSelectedCell, updateScore, clearTimer, gameOver,
                checkCurrentDeadlock, showHint, autoDisorder, handleDisorder,
                updateSteps, updateStatus, canCleanupM, drawLine, invoke, checkMatch,
                handleCellClick, tick, updateCountDown ]
  end.

Ltac keeps_auto side := repeat keeps_step side.

(** ** The credits for a reshuffle *)

Ltac credits_side :=
  unfold creditsOK in *; fields;
  repeat match goal with
    | H : (_ >? _) = true |- _ => apply Z.gtb_lt in H
    | H : _ || _ = false |- _ => apply orb_false_iff in H as [? ?]
    | H : (_ <=? _) = false |- _ => apply Z.leb_gt in H
    end;
  first [assumption | lia].

Lemma perform_credits a : keeps creditsOK (perform a).
Proof.
  destruct a; cbn [perform].
  1-4, 7-8: keeps_auto credits_side.
  - unfold startGame. intros e [] e' He (_ & _ & Hc & _)%init_effect.
    unfold creditsOK in *. by rewrite Hc.
  - intros e [] e' He (_ & _ & Hc & _)%restartGame_effect. unfold creditsOK. lia.
Qed.

Lemma performAll_credits actions e e' :
  creditsOK e → performAll actions e = Some e' → creditsOK e'.
Proof.
  revert e. induction actions as [|a actions IH]; intros e He; simpl.
  { by intros [= <-]. }
  destruct (perform a e) as [[[] e1]|] eqn:Hrun; [|done].
  apply IH. by eapply perform_credits.
Qed.

(** X10.  The credits for a reshuffle stay between zero and five through a
    session; [handleDisorder] takes one credit when one is left, and with
    none left it returns false and changes nothing. *)
Theorem reshuffle_credits e :
  0 ≤ leftDisorderTime e ≤ 5 →
  (∀ actions e', performAll actions e = Some e' → 0 ≤ leftDisorderTime e' ≤ 5)
  ∧ (∀ ok e', handleDisorder e = Some (ok, e') →
              if decide (0 < leftDisorderTime e)
              then ok = true ∧ leftDisorderTime e' = leftDisorderTime e - 1
              else ok = false ∧ e' = e).
Proof.
  intros He. split.
  { intros actions e'. by apply performAll_credits. }
  intros ok e'. unfold handleDisorder. rewrite get_bind.
  destruct (Z.gtb_spec (leftDisorderTime e) 0); case_decide; try lia.
  - rewrite modify_bind. intros ([] & e1 & H1 & [= <- <-])%bind_run.
    split; [done|]. frame_in leftDisorderTime H1. by rewrite H1.
  - by intros [= <- <-].
Qed.

(** ** A hundred points for a pair *)

Lemma keeps_modify_twice {S B} (I : S → Prop) (f1 f2 : S → S) (k : unit → M S B) :
  (∀ s, I s → I (f2 (f1 s))) → keeps I (k tt) →
  keeps I (modify f1 ≫= λ _, modify f2 ≫= k).
Proof.
  intros Hf Hk s b s' Hs. rewrite !modify_bind. apply Hk. by apply Hf.
Qed.

Ltac score_side := unfold scoreOK in *; fields; first [assumption | lia].

Ltac score_step :=
  lazymatch goal with
  | |- keeps _ (mbind _ (modify (λ e, setScore (score e + 100) e))) =>
      apply keeps_modify_twice; [intros ? ?; score_side|]
  | |- _ => keeps_step score_side
  end.

Lemma perform_score v a :
  a ≠ Start → a ≠ Restart → keeps (scoreOK v) (perform a).
Proof.
  intros Hstart Hrestart. destruct a; cbn [perform]; try done.
  all: repeat score_step.
Qed.

Lemma performAll_score v actions e e' :
  Start ∉ actions → Restart ∉ actions →
  scoreOK v e → performAll actions e = Some e' → scoreOK v e'.
Proof.
  revert e. induction actions as [|a actions IH]; intros e Hstart Hrestart He; simpl.
  { by intros [= <-]. }
  apply not_elem_of_cons in Hstart as [? ?], Hrestart as [? ?].
  destruct (perform a e) as [[[] e1]|] eqn:Hrun; [|done].
  apply IH; [done..|]. eapply perform_score; [| |done..]; done.
Qed.

(** X11.  Between two starts of the game the score counts a hundred points
    for every pair taken off the count of letters left: the score plus fifty
    times [remain] does not change. *)
Theorem score_accounting actions e e' :
  Start ∉ actions → Restart ∉ actions →
  performAll actions e = Some e' →
  score e' + 50 * remain e' = score e + 50 * remain e.
Proof.
  intros Hstart Hrestart Hrun.
  by apply (performAll_score (score e + 50 * remain e) actions e e').
Qed.

(** ** The countdown *)

Ltac time_side :=
  unfold timeOK in *; fields;
  first [assumption | intuition (first [done | lia | congruence])].

Lemma init_timer e e' : init e = Some (tt, e') → timer e' = true.
Proof.
  rewrite init_unfold. rewrite !modify_bind, onBoard_modify_bind, !modify_bind.
  rewrite onBoard_modify_bind, modify_bind, setSelectedCell_bind.
  intros (? & e1 & H1 & H)%bind_run. rewrite !modify_bind, get_bind in H.
  apply bind_run in H as (? & e2 & H2 & H).
  apply bind_run in H as (? & e3 & H3 & H).
  rewrite gets_bind, modify_bind in H.
  apply onBoard_run in H2 as (b2 & _ & ->). apply onBoard_run in H3 as (b3 & _ & ->).
  unfold updateScore in H. rewrite gets_bind, notify_run in H. by injection H as <-.
Qed.

Lemma tick_run e :
  tick e =
  if timerRunning e then
    let e1 := setBoard (addLog (TimeUpdate (leftTime e - 1)) (board e))
                (setLeftTime (leftTime e - 1) e) in
    if leftTime e - 1 <=? 0 then
      Some (tt, setBoard (addLog (GameOver TimeExceeded (score e)) (board e1))
                  (if timer e then setTimerRunning false e1 else e1))
    else Some (tt, e1)
  else Some (tt, e).
Proof.
  unfold tick. rewrite gets_bind. destruct (timerRunning e); [|done]. cbn [when].
  unfold updateCountDown. rewrite modify_bind, gets_bind, notify_bind. fields.
  destruct (_ <=? _); [|done]. cbn [when]. unfold gameOver.
  unfold mbind at 1, M_bind at 1. rewrite clearTimer_run, gets_bind, notify_run. fields.
  by destruct (timer e).
Qed.

Lemma perform_time a : keeps timeOK (perform a).
Proof.
  destruct a; cbn [perform].
  1-2, 4, 7-8: keeps_auto time_side.
  - intros e [] e' He. rewrite tick_run.
    destruct (timerRunning e) eqn:Hrunning; [|by intros [= <-]].
    destruct He as (Hrange & Hconfig & Htimer). destruct Htimer as [Htimer Hleft]; [done|].
    cbv zeta. destruct (Z.leb_spec (leftTime e - 1) 0); intros [= <-].
    + rewrite Htimer. unfold timeOK. fields. split_and!; (done || lia).
    + unfold timeOK. fields. rewrite Hrunning, Htimer. split_and!; (done || lia).
  - unfold startGame. intros e [] e' He Hrun.
    pose proof (init_timer _ _ Hrun) as Htimer.
    apply init_effect in Hrun as (_ & _ & _ & Hleft & _ & Hconfig & _).
    unfold timeOK in *. rewrite Hleft, Hconfig, Htimer. split_and!; (done || lia).
  - intros e [] e' He. rewrite restartGame_unfold, !modify_bind, setSelectedCell_bind.
    intros ([] & e1 & Hrun & H)%bind_run.
    rewrite gets_bind, notify_bind, gets_bind, notify_run in H. injection H as <-.
    pose proof (init_timer _ _ Hrun) as Htimer.
    apply init_effect in Hrun as (_ & _ & _ & Hleft & _ & Hconfig & _).
    unfold timeOK in *. fields. cbn in Hleft, Hconfig.
    rewrite Hleft, Hconfig, Htimer. split_and!; (done || lia).
Qed.

Lemma performAll_time actions e e' :
  timeOK e → performAll actions e = Some e' → timeOK e'.
Proof.
  revert e. induction actions as [|a actions IH]; intros e He; simpl.
  { by intros [= <-]. }
  destruct (perform a e) as [[[] e1]|] eqn:Hrun; [|done].
  apply IH. by eapply perform_time.
Qed.

(** X12.  In a session of an engine configured with a positive time, the
    time left stays between zero and the configured time, and the countdown
    runs only while time is left: the tick that brings the time to zero
    reports [TimeExceeded] and stops the interval, and later ticks do
    nothing. *)
Theorem countdown_stops c r t tape actions e :
  0 < orDefault t 1000 →
  performAll actions (newEngine c r t tape) = Some e →
  0 ≤ leftTime e ≤ configInitialTime e
  ∧ (timerRunning e = true → 0 < leftTime e)
  ∧ ∃ e', tick e = Some (tt, e')
          ∧ leftTime e' = (if timerRunning e then leftTime e - 1 else leftTime e)
          ∧ timerRunning e' = timerRunning e && (1 <? leftTime e)
          ∧ log (board e') =
            log (board e)
            ++ (if timerRunning e then [TimeUpdate (leftTime e - 1)] else [])
            ++ (if timerRunning e && (leftTime e =? 1)
                then [GameOver TimeExceeded (score e)] else []).
Proof.
  intros Hconfig Hrun.
  assert (timeOK e) as (Hrange & _ & Htimer).
  { eapply performAll_time; [|done]. unfold timeOK. simpl. split_and!; (done || lia). }
  split; [done|]. split; [intros H; by apply Htimer|].
  rewrite tick_run. destruct (timerRunning e) eqn:Hrunning.
  2: { exists e. split; [done|]. split; [done|]. split; [done|]. simpl. by rewrite app_nil_r. }
  destruct Htimer as [Htimer Hleft]; [done|]. cbv zeta. rewrite Htimer.
  destruct (Z.leb_spec (leftTime e - 1) 0).
  - assert (leftTime e = 1) as Hone by lia. eexists. split; [done|]. fields.
    rewrite Hone. split; [done|]. split; [done|]. simpl. by rewrite <-app_assoc.
  - eexists. split; [done|]. fields. rewrite Hrunning.
    destruct (Z.ltb_spec 1 (leftTime e)); [|lia].
    destruct (Z.eqb_spec (leftTime e) 1); [lia|].
    split; [done|]. split; [done|]. simpl. done.
Qed.

(** * Clicks that take no pair *)

Lemma readCell_None {B} y x (k : CellInfo → M Engine B) e :
  getCell (pictures (board e)) y x = None → (readCell y x ≫= k) e = None.
Proof. intros H. unfold mbind, M_bind, readCell. by rewrite H. Qed.

(** X13.  While the game runs and no line is being drawn, a click outside
    the grid raises, and a click on an empty cell does nothing but clear
    the hint. *)
Theorem click_without_letter e r c i :
  0 < remain e → isAnimating e = false →
  (getCell (grid e) r c = None → handleCellClick r c i e = None)
  ∧ (∀ cell, getCell (grid e) r c = Some cell → isEmpty cell = true →
             handleCellClick r c i e = Some (tt, heard [Hint []] e)).
Proof.
  intros Hplay Hidle.
  assert (∀ k : unit → M Engine unit,
            (gets id ≫= λ e0, if remain e0 <=? 0 then mret tt
                              else if isAnimating e0 then mret tt else clearHint ≫= k) e
            = k tt (heard [Hint []] e)) as Hstart.
  { intros k. rewrite get_bind, (proj2 (Z.leb_gt _ _) Hplay), Hidle. done. }
  unfold handleCellClick. rewrite Hstart. unfold checkMatch. cbn [row col clickIndex].
  split.
  - intros Hnone. by apply readCell_None.
  - intros cell Hcell Hempty. erewrite readCell_bind by exact Hcell. by rewrite Hempty.
Qed.

(** X14.  Picking a letter and clicking it again puts the pick back: the
    engine is as before, but for the four events its listeners heard. *)
Theorem select_deselect e r c i j cell :
  0 < remain e → isAnimating e = false →
  preClickInfo e = None → selectedCell e = None →
  getCell (grid e) r c = Some cell → isEmpty cell = false →
  performAll [Click r c i; Click r c j] e
  = Some (heard [Hint []; SelectedCellChange (Some (mkClick r c i));
                 Hint []; SelectedCellChange None] e).
Proof.
  intros Hplay Hidle Hpre Hsel Hcell Hocc.
  cbn [performAll perform].
  assert (handleCellClick r c i e
          = Some (tt, heard [Hint []; SelectedCellChange (Some (mkClick r c i))]
                        (setSelected (Some (mkClick r c i))
                           (setPreClickInfo (Some (mkClick r c i)) e)))) as ->.
  { unfold handleCellClick, clearHint, checkMatch.
    rewrite get_bind, (proj2 (Z.leb_gt _ _) Hplay), Hidle, notify_bind.
    cbn [row col clickIndex]. erewrite readCell_bind by (fields; exact Hcell).
    rewrite Hocc, get_bind. fields. rewrite Hsel, Hpre. cbn [sameCell].
    by rewrite modify_bind, setSelectedCell_run. }
  unfold heard. cbn [foldl]. fields.
  unfold handleCellClick, clearHint, checkMatch.
  rewrite get_bind. fields.
  rewrite (proj2 (Z.leb_gt _ _) Hplay), Hidle, notify_bind.
  cbn [row col clickIndex]. erewrite readCell_bind by (fields; exact Hcell).
  rewrite Hocc, get_bind. fields. cbn [sameCell row col]. rewrite !Z.eqb_refl. cbn [andb].
  rewrite setSelectedCell_bind. cbn [modify]. fields.
  f_equal. clear Hplay Hidle Hcell. destruct e. cbn in Hpre, Hsel. subst. reflexivity.
Qed.

(** * The board a game starts with *)

(** [init] ends with the grid that [disorder] leaves. *)
Lemma init_board e e' :
  init e = Some (tt, e') →
  ∃ b b', disorder (cols e) (rows e) (targetLetter e) b = Some (tt, b')
          ∧ grid e' = pictures b'
          ∧ cols e' = cols e ∧ rows e' = rows e.
Proof.
  rewrite init_unfold. unfold grid. rewrite !modify_bind, onBoard_modify_bind, !modify_bind.
  rewrite onBoard_modify_bind, modify_bind, setSelectedCell_bind.
  intros (? & e1 & H1 & H)%bind_run. rewrite !modify_bind, get_bind in H.
  apply bind_run in H as (? & e2 & H2 & H).
  apply bind_run in H as ([] & e3 & H3 & H).
  rewrite gets_bind, modify_bind in H.
  apply onBoard_run in H2 as (b2 & _ & ->). apply onBoard_run in H3 as (b3 & H3 & ->).
  unfold updateScore in H. rewrite gets_bind, notify_run in H. injection H as <-.
  rewrite clearTimer_run in H1. injection H1 as _ <-. revert H3. fields.
  destruct (timer e); fields; intros H3; eexists _, b3; (split; [exact H3|done]).
Qed.

Lemma init_clearable e e' :
  pairable (targetLetter e) → init e = Some (tt, e') →
  cols e' = cols e ∧ rows e' = rows e
  ∧ gridShape (cols e) (rows e) (grid e')
  ∧ clearable (cols e) (rows e) (grid e')
  ∧ remain e' = Z.of_nat (length (occupiedPositions (cols e) (rows e) (grid e'))).
Proof.
  intros Ht Hrun.
  assert (engineOK (cols e) (rows e) e') as (_ & _ & Hshape & _).
  { by eapply (init_makes (cols e) (rows e)). }
  pose proof (init_effect _ _ Hrun) as (_ & _ & _ & _ & _ & _ & _ & _ & _ & Hremain).
  apply init_board in Hrun as (b & b' & Hdisorder & Hgrid & Hc & Hr).
  split_and!; try done.
  apply solvable_clearable; [done|]. rewrite Hgrid.
  by eapply disorder_solvable.
Qed.

(** X15.  The board a game starts with can be cleared, and [remain] counts
    its letters: after [startGame] or [restartGame] with a target letter
    that has two cases, some sequence of moves empties the play area. *)
Theorem start_clearable e e' :
  pairable (targetLetter e) →
  startGame e = Some (tt, e') ∨ restartGame e = Some (tt, e') →
  cols e' = cols e ∧ rows e' = rows e
  ∧ gridShape (cols e') (rows e') (grid e')
  ∧ clearable (cols e') (rows e') (grid e')
  ∧ remain e' = Z.of_nat (length (occupiedPositions (cols e') (rows e') (grid e'))).
Proof.
  intros Ht [Hrun|Hrun].
  - rewrite startGame_init in Hrun.
    destruct (init_clearable e e' Ht Hrun) as (Hc & Hr & ? & ? & ?).
    rewrite Hc, Hr. repeat (split; [assumption||reflexivity|]). assumption.
  - revert Hrun. rewrite restartGame_unfold, !modify_bind, setSelectedCell_bind.
    intros ([] & e1 & Hinit & H)%bind_run.
    rewrite gets_bind, notify_bind, gets_bind, notify_run in H. injection H as <-.
    pose proof (λ H, init_clearable _ e1 H Hinit) as Hclear. clear Hinit.
    specialize (Hclear Ht).
    revert Hclear. unfold grid. fields.
    intros (Hc & Hr & ? & ? & ?). rewrite Hc, Hr.
    repeat (split; [assumption||reflexivity|]). assumption.
Qed.

(** * Moves and reshuffles keep the letters paired *)

Lemma paired_Permutation l l' : l ≡ₚ l' → paired l → paired l'.
Proof.
  intros Hperm Hl. unfold paired in *. rewrite <-Hperm.
  eapply Forall_impl; [done|]. intros a Ha. simpl in *. by rewrite <-Hperm.
Qed.

Lemma pairConserved_letters cols rows g :
  pairConserved cols rows g ↔ paired (lettersOf cols rows g).
Proof.
  unfold pairConserved, paired, lettersOf, partners. rewrite Forall_fmap.
  apply Forall_iff. intros p. simpl. by rewrite length_partners.
Qed.

Lemma NoDup_singleton_eq {A} (l : list A) a b :
  NoDup l → length l = 1%nat → a ∈ l → b ∈ l → a = b.
Proof.
  destruct l as [|x [|y l]]; try done. intros _ _ Ha Hb.
  apply list_elem_of_singleton in Ha, Hb. congruence.
Qed.

Section Pairing.

Variables (cols rows : Z) (g : Grid).
Hypothesis (Hshape : gridShape cols rows g).
Hypothesis (Hpaired : pairConserved cols rows g).

Lemma partners_NoDup x : NoDup (partners cols rows g x).
Proof. apply NoDup_filter, occupiedPositions_NoDup. Qed.

Lemma elem_of_partners x y :
  y ∈ partners cols rows g x ↔
  y ∈ occupiedPositions cols rows g ∧ isMatch (picAt g x) (picAt g y) = true.
Proof. unfold partners. rewrite list_elem_of_filter. tauto. Qed.

(** The one partner of an occupied cell. *)
Lemma partner_unique x y z :
  x ∈ occupiedPositions cols rows g →
  y ∈ partners cols rows g x → z ∈ partners cols rows g x → y = z.
Proof.
  intros Hx. eapply Forall_forall in Hpaired; [|done]. simpl in Hpaired.
  by apply NoDup_singleton_eq; [apply partners_NoDup|].
Qed.

Lemma clearPair_paired p q :
  legalMove cols rows g p q → pairConserved cols rows (clearPair g p q).
Proof.
  intros (Hp & Hq & Hmatch & _).
  apply elem_of_occupiedPositions in Hp as Hp', Hq as Hq'.
  destruct Hp' as [Hp' _], Hq' as [Hq' _].
  unfold pairConserved. rewrite occupiedPositions_clearPair by done.
  apply Forall_forall. intros x [[Hxp Hxq] Hx]%list_elem_of_filter.
  unfold partners. rewrite occupiedPositions_clearPair by done.
  rewrite list_filter_filter.
  erewrite list_filter_iff.
  2: { intros y. rewrite !picAt_clearPair. apply and_comm. }
  rewrite <-list_filter_filter. fold (partners cols rows g x).
  eapply Forall_forall in Hpaired as Hone; [|exact Hx]. simpl in Hone.
  destruct (partners cols rows g x) as [|y [|]] eqn:Hpartners; try done.
  assert (y ∈ partners cols rows g x) as Hy by (rewrite Hpartners; left).
  apply elem_of_partners in Hy as [Hy Hxy].
  rewrite filter_cons_True; [done|]. split.
  - intros ->. apply Hxq. apply (partner_unique p); [done|..].
    + apply elem_of_partners. split; [done|]. by rewrite isMatch_sym.
    + by apply elem_of_partners.
  - intros ->. apply Hxp. apply (partner_unique q); [done|..].
    + apply elem_of_partners. split; [done|]. by rewrite isMatch_sym.
    + apply elem_of_partners. split; [done|]. by rewrite isMatch_sym.
Qed.

End Pairing.

(** X16.  A board on which every letter has exactly one partner stays so
    when a move clears a pair ([updateStatus]) and when the edge-first or
    the random reshuffle rearranges the letters. *)
Theorem pairing_kept e :
  gridShape (cols e) (rows e) (grid e) →
  pairConserved (cols e) (rows e) (grid e) →
  (∀ pr pc cr cc i j e',
     legalMove (cols e) (rows e) (grid e) (pr, pc) (cr, cc) →
     updateStatus pr pc cr cc i j e = Some (tt, e') →
     pairConserved (cols e) (rows e) (grid e'))
  ∧ (∀ b', smartDisorderEdgeFirst (cols e) (rows e) (board e) = Some (tt, b')
           ∨ randomDisorder (cols e) (rows e) (board e) = Some (tt, b') →
           pairConserved (cols e) (rows e) (pictures b')).
Proof.
  intros Hshape Hpaired. split.
  - intros pr pc cr cc i j e' Hmove (Hgrid & _)%updateStatus_grid. rewrite Hgrid.
    by apply (clearPair_paired (cols e) (rows e) (grid e) Hshape Hpaired (pr, pc) (cr, cc)).
  - intros b' Hrun. apply reshuffled in Hrun as [_ Hletters]; [|done].
    apply pairConserved_letters. eapply paired_Permutation; [by symmetry|].
    by apply pairConserved_letters.
Qed.

(** * The reports of the end of the game *)

Lemma gameOverReports_app l1 l2 :
  gameOverReports (l1 ++ l2) = gameOverReports l1 ++ gameOverReports l2.
Proof. unfold gameOverReports. apply omap_app. Qed.

Lemma emit_quiet R ev : quietEvent ev → keeps (reported R) (emit ev).
Proof.
  intros Hev b [] b' Hb [= <-]. unfold reported in *. cbn [log addLog].
  rewrite gameOverReports_app, Hb. destruct ev; try done; apply app_nil_r.
Qed.

Lemma draw_quiet R : keeps (reported R) draw.
Proof.
  intros b a b' Hb. unfold draw. destruct (random b); [done|]. by intros [= <- <-].
Qed.

Create HintDb quiet discriminated.

Ltac quiet_step :=
  lazymatch goal with
  | |- keeps _ (mbind _ _) => apply keeps_bind; [|intros ?]
  | |- keeps _ (mret _) => apply keeps_ret
  | |- keeps _ (gets _) => apply keeps_gets
  | |- keeps _ throw => apply keeps_throw
  | |- keeps _ (when _ _) => apply keeps_when
  | |- keeps _ (modify _) =>
      apply keeps_modify; let H := fresh in intros ? H; exact H
  | |- keeps _ (emit _) => apply emit_quiet; exact I
  | |- keeps _ draw => apply draw_quiet
  | |- keeps _ (if ?c then _ else _) => destruct c
  | |- keeps _ (match ?x with _ => _ end) => destruct x
  | |- keeps _ _ =>
      first [ solve [auto with quiet]
            | progress unfold placeLetter, initializeEmptyMap,
                generateMapWithEdgePriority, generateMapTraditional,
                generateSolvableTemplate, generateRandomMap, createMap,
                smartDisorderEdgeFirst, smartDisorderSpread, randomDisorder,
                generateLinearLayout, forceGenerateSolvableLayout, renderMap, disorder ]
  end.

Ltac quiet_auto := repeat quiet_step.

Section Quiet.

Variables (cols rows : Z) (t : string) (R : list GameOverType).

Lemma shuffle_quiet {A} fuel (l : list A) : keeps (reported R) (shuffle fuel l).
Proof.
  revert l. induction fuel as [|fuel IH]; intros l; cbn [shuffle]; [quiet_auto|].
  destruct l as [|x l]; [quiet_auto|].
  apply keeps_bind; [apply draw_quiet|]. intros d.
  destruct (_ !! _); [|quiet_auto].
  apply keeps_bind; [apply IH|]. intros rest. quiet_auto.
Qed.

Lemma generateLetterPairs_quiet : keeps (reported R) (generateLetterPairs cols rows t).
Proof.
  intros b letters b' Hb. unfold generateLetterPairs.
  destruct (drawLetters _ _ _ _) as [[]|]; [|done]. by intros [= <- <-].
Qed.

Lemma isSolvable_quiet : keeps (reported R) (isSolvable cols rows).
Proof.
  intros b ok b' Hb. unfold isSolvable.
  destruct (isSolvableHeap _ _ _ _). by intros [= <- <-].
Qed.

Lemma getAvailableMatches_quiet : keeps (reported R) (getAvailableMatches cols rows).
Proof. intros b a b' Hb. unfold getAvailableMatches. by intros [= <- <-]. Qed.

Hint Resolve shuffle_quiet generateLetterPairs_quiet isSolvable_quiet
  getAvailableMatches_quiet : quiet.

Lemma placePairs_quiet positions i letterPairs :
  keeps (reported R) (placePairs positions i letterPairs).
Proof.
  revert i. induction letterPairs as [|pr rest IH]; intros i; cbn [placePairs];
    [quiet_auto|].
  destruct (_ <? _)%nat; [|quiet_auto].
  apply keeps_bind; [quiet_auto|intros _].
  apply keeps_bind; [quiet_auto|intros _]. apply IH.
Qed.

Lemma fillRowMajor_quiet positions letters :
  keeps (reported R) (fillRowMajor positions letters).
Proof.
  revert letters. induction positions as [|p positions IH]; intros [|letter letters];
    cbn [fillRowMajor]; quiet_auto.
Qed.

Lemma placeTemplate_quiet slots letterPairs :
  keeps (reported R) (placeTemplate slots letterPairs).
Proof.
  revert letterPairs. induction slots as [|p slots IH]; intros [|pr rest];
    cbn [placeTemplate]; quiet_auto.
Qed.

Hint Resolve placePairs_quiet fillRowMajor_quiet placeTemplate_quiet : quiet.

Lemma generateRandomMapLoop_quiet budget attempts :
  keeps (reported R) (generateRandomMapLoop cols rows t budget attempts).
Proof.
  revert attempts. induction budget as [|budget IH]; intros attempts;
    cbn [generateRandomMapLoop]; [quiet_auto|].
  apply keeps_bind; [quiet_auto|intros _].
  apply keeps_bind; [quiet_auto|intros _].
  apply keeps_bind; [quiet_auto|intros ok].
  destruct (_ && _); [apply IH|quiet_auto].
Qed.

Hint Resolve generateRandomMapLoop_quiet : quiet.

Lemma createMapLoop_quiet budget attempts :
  keeps (reported R) (createMapLoop cols rows t budget attempts).
Proof.
  revert attempts. induction budget as [|budget IH]; intros attempts;
    cbn [createMapLoop]; [quiet_auto|].
  apply keeps_bind; [quiet_auto|intros _].
  apply keeps_bind; [quiet_auto|intros ok].
  destruct (_ && _); [apply IH|quiet_auto].
Qed.

Lemma spreadGroups_quiet positions groups charIndex :
  keeps (reported R) (spreadGroups positions groups charIndex).
Proof.
  revert charIndex. induction groups as [|group rest IH]; intros charIndex;
    cbn [spreadGroups]; [quiet_auto|].
  destruct (positions !! _); [|quiet_auto]. destruct (positions !! _); [|quiet_auto].
  apply keeps_bind; [quiet_auto|intros _].
  apply keeps_bind; [quiet_auto|intros _]. apply IH.
Qed.

Hint Resolve createMapLoop_quiet spreadGroups_quiet : quiet.

Lemma disorderLoop_quiet budget attempts :
  keeps (reported R) (disorderLoop cols rows budget attempts).
Proof.
  revert attempts. induction budget as [|budget IH]; intros attempts;
    cbn [disorderLoop]; [quiet_auto|].
  apply keeps_bind; [quiet_auto|intros _].
  apply keeps_bind; [quiet_auto|intros ok].
  destruct (_ && _); [apply IH|quiet_auto].
Qed.

Hint Resolve disorderLoop_quiet : quiet.

Lemma createMap_quiet : keeps (reported R) (createMap cols rows t).
Proof. quiet_auto. Qed.

Lemma disorder_quiet : keeps (reported R) (disorder cols rows t).
Proof. quiet_auto. Qed.

Lemma renderMap_quiet : keeps (reported R) (renderMap cols rows).
Proof. quiet_auto. Qed.

End Quiet.

#[export] Hint Resolve createMap_quiet disorder_quiet renderMap_quiet
  getAvailableMatches_quiet : quiet.

Section Tally.

Variables (R : list GameOverType) (n r s : Z).

Lemma tally_onBoard {A} (m : M Board A) :
  keeps (reported R) m → keeps (tally R n r s) (onBoard m).
Proof.
  intros Hm e a e' (HR & ?) (b' & Hrun & ->)%onBoard_run.
  split; [|done]. by eapply Hm.
Qed.

Lemma tally_notify ev : quietEvent ev → keeps (tally R n r s) (notify ev).
Proof. intros Hev. by apply tally_onBoard, emit_quiet. Qed.

End Tally.

Ltac tally_side := unfold tally in *; fields; first [assumption | tauto].

Ltac tally_step :=
  lazymatch goal with
  | |- keeps _ (notify _) => apply tally_notify; exact I
  | |- keeps _ (onBoard _) => apply tally_onBoard; first [solve [auto with quiet] | quiet_auto]
  | |- _ => keeps_step tally_side
  end.

Ltac tally_auto := repeat tally_step.

Lemma hoare_keeps_bind {S A B} (I : S → Prop) (Q : B → S → Prop)
    (m : M S A) (k : A → M S B) :
  keeps I m → (∀ a, hoare I (k a) Q) → hoare I (m ≫= k) Q.
Proof. intros. by eapply hoare_bind. Qed.

Lemma gameOver_tally R n r s kind :
  hoare (tally R n r s) (gameOver kind) (λ _, tally (R ++ [kind]) n r s).
Proof.
  unfold gameOver. apply hoare_keeps_bind; [tally_auto|].
  intros _ e [] e' (HR & Hn & Hr & Hs).
  rewrite gets_bind, notify_run. intros [= <-]. unfold tally, reported in *. fields.
  rewrite gameOverReports_app, HR. done.
Qed.

Lemma updateSteps_tally R n r s :
  hoare (tally R n r s) updateSteps (λ _, tally (R ++ stepReport n r) (n + 1) r s).
Proof.
  unfold updateSteps.
  eapply (hoare_bind _ (λ _, tally R (n + 1) r s)).
  { apply hoare_modify. intros e (? & <- & ? & ?). unfold tally. fields. done. }
  intros _. apply hoare_keeps_bind; [tally_auto|]. intros m.
  apply hoare_keeps_bind; [tally_auto|]. intros _.
  apply hoare_keeps_bind; [tally_auto|]. intros deadlock.
  apply hoare_keeps_bind; [tally_auto|]. intros _.
  apply hoare_get_bind. intros e (HR & Hn & Hr & Hs).
  eapply (hoare_at (tally R (n + 1) r s)); [done|].
  apply hoare_keeps_bind; [tally_auto|]. intros _.
  rewrite Hn, Hr. unfold stepReport.
  destruct (Z.leb_spec 5 n), (Z.geb_spec (n + 1) 6); try lia; cbn [when].
  - destruct (Z.ltb_spec 0 r), (Z.gtb_spec r 0); try lia; apply gameOver_tally.
  - apply hoare_ret. intros ?. by rewrite app_nil_r.
Qed.

Lemma updateStatus_tally R n r s preRow preCol curRow curCol preIndex curIndex :
  hoare (tally R n r s) (updateStatus preRow preCol curRow curCol preIndex curIndex)
    (λ _, tally (R ++ (if r <=? 0 then [Normal] else [])) n r s).
Proof.
  unfold updateStatus.
  apply hoare_keeps_bind; [tally_auto|]. intros pre.
  apply hoare_keeps_bind; [tally_auto|]. intros cur.
  apply hoare_get_bind. intros e (HR & Hn & Hr & Hs).
  eapply (hoare_at (tally R n r s)); [done|].
  apply hoare_keeps_bind; [tally_auto|]. intros _.
  apply hoare_keeps_bind; [tally_auto|]. intros _.
  apply hoare_keeps_bind; [tally_auto|]. intros _.
  rewrite Hr. destruct (r <=? 0); cbn [when].
  - apply gameOver_tally.
  - apply hoare_ret. intros ?. by rewrite app_nil_r.
Qed.

Lemma invoke_tally R n r s cb :
  hoare (tally R n r s) (invoke cb) (λ _, tally (R ++ ackReports cb n r) (n + 1) r s)
  ∨ cb = Noop.
Proof.
  destruct cb; cbn [invoke ackReports]; [left|left|by right].
  - eapply hoare_bind; [apply updateStatus_tally|]. intros ?. cbv beta.
    apply hoare_keeps_bind; [tally_auto|]. intros e.
    apply hoare_keeps_bind; [tally_auto|]. intros _.
    apply hoare_keeps_bind; [tally_auto|]. intros _.
    eapply hoare_bind; [apply updateSteps_tally|]. intros ?. cbv beta.
    rewrite <-app_assoc. apply keeps_modify. intros ? ?. tally_side.
  - apply hoare_keeps_bind; [tally_auto|]. intros _.
    apply hoare_keeps_bind; [tally_auto|]. intros _.
    apply hoare_keeps_bind; [tally_auto|]. intros _.
    eapply hoare_bind; [apply updateSteps_tally|]. intros ?. cbv beta.
    unfold addShakeEffect. apply tally_notify. exact I.
Qed.

(** X17.  An acknowledgement reports the end of the game by its counters:
    [Normal] when the match took the last letters, and from the sixth step
    on [StepsExceeded] while letters are left and [Normal] otherwise, so
    that the last pair taken at the sixth step or later is reported twice. *)
Theorem acknowledged_reports cb e e' :
  invoke cb e = Some (tt, e') →
  gameOverReports (log (board e'))
  = gameOverReports (log (board e)) ++ ackReports cb (steps e) (remain e).
Proof.
  intros Hrun.
  destruct (invoke_tally (gameOverReports (log (board e))) (steps e) (remain e) (score e) cb)
    as [Htally| ->].
  - by destruct (Htally e tt e' ltac:(done) Hrun) as (HR & _).
  - cbn [invoke] in Hrun. injection Hrun as <-. by rewrite app_nil_r.
Qed.

(** * The target letter is on the map *)

Lemma drawLetters_prefix wanted letters used tape letters' tape' :
  drawLetters wanted letters used tape = Some (letters', tape') →
  ∃ more, letters' = letters ++ more.
Proof.
  revert letters used. induction tape as [|d tape IH]; intros letters used; cbn [drawLetters].
  - destruct (_ <? _); [done|]. intros [= <- <-]. exists []. by rewrite app_nil_r.
  - destruct (_ <? _); [|intros [= <- <-]; exists []; by rewrite app_nil_r].
    case_bool_decide; [apply IH|]. intros (more & ->)%IH.
    eexists. by rewrite <-app_assoc.
Qed.

Lemma generateLetterPairs_head cols rows t b letters b' :
  pairable t → t ≠ "" →
  generateLetterPairs cols rows t b = Some (letters, b') →
  ∃ ps, letters = unpair ((toLowerCase t, toUpperCase t) :: ps)
        ∧ inventory ((toLowerCase t, toUpperCase t) :: ps)
        ∧ pictures b' = pictures b
        ∧ (Z.of_nat (length ((toLowerCase t, toUpperCase t) :: ps))
           ≤ Z.max 1 ((rows - 2) * (cols - 2) / 2)).
Proof.
  intros Ht Hne Hrun.
  pose proof (generateLetterPairs_inventory _ _ _ _ _ _ Ht Hrun)
    as (ps0 & -> & Hinv & Hpic & Hmax & _).
  revert Hrun. unfold generateLetterPairs.
  destruct (String.eqb_spec t "") as [|_]; [done|]. simpl.
  destruct (drawLetters _ _ _ _) as [[letters' tape]|] eqn:Hdraw; [|done].
  intros [= Hletters _]. apply drawLetters_prefix in Hdraw as (more & Hmore).
  rewrite Hletters in Hmore. destruct ps0 as [|[a c] ps]; [done|].
  cbn [unpair flat_map app fst snd] in Hmore. injection Hmore as -> -> _.
  by exists ps.
Qed.

Lemma placePairs_some positions i ps b b' :
  placePairs positions i ps b = Some (tt, b') →
  ∃ k ws, pictures b' = writeAll ws (pictures b)
          ∧ map fst ws = take (2 * k) (drop (2 * i) positions)
          ∧ map picOf ws = unpair (take k ps)
          ∧ Forall occupiedCell ws
          ∧ (ps ≠ [] → (i * 2 < length positions)%nat → (1 ≤ k)%nat).
Proof.
  destruct ps as [|pr ps]; cbn [placePairs].
  { intros [= <-]. by exists 0%nat, []. }
  destruct (Nat.ltb_spec (i * 2) (length positions)) as [Hlt|Hge].
  2: { intros [= <-]. exists 0%nat, []. split_and!; try done. lia. }
  destruct (positions !! (i * 2)%nat) as [p1|] eqn:H1.
  2: { apply lookup_ge_None in H1. lia. }
  intros ([] & b1 & (c1 & Hb1 & He1 & Hp1)%placeLetter_writes & H)%bind_run.
  apply bind_run in H as ([] & b2 & H2 & H).
  destruct (positions !! (i * 2 + 1)%nat) as [p2|] eqn:H2'; [|done].
  apply placeLetter_writes in H2 as (c2 & Hb2 & He2 & Hp2).
  apply placePairs_writes in H as (k & ws & Hws & Hpos & Hpics & Hocc).
  exists (S k), ((p1, c1) :: (p2, c2) :: ws). split_and!.
  - rewrite Hws, Hb2, Hb1. done.
  - replace (2 * i)%nat with (i * 2)%nat by lia.
    rewrite (drop_S _ _ _ H1). replace (S (i * 2)) with (i * 2 + 1)%nat by lia.
    rewrite (drop_S _ _ _ H2'). replace (2 * S k)%nat with (S (S (2 * k))) by lia.
    cbn [take map fst]. rewrite Hpos.
    replace (2 * S i)%nat with (S (i * 2 + 1)) by lia. done.
  - cbn [take map unpair flat_map app fst snd]. by rewrite Hpics, Hp1, Hp2.
  - by repeat constructor.
  - lia.
Qed.

Lemma written_letters cols rows (ws : list (Position * CellInfo)) :
  NoDup (map fst ws) → Forall (λ w, inPlay cols rows w.1) ws → Forall occupiedCell ws →
  lettersOf cols rows (writeAll ws (emptyMap cols rows)) ≡ₚ map picOf ws.
Proof.
  intros Hnd Hplay Hocc. unfold lettersOf.
  rewrite <-(pics_written cols rows ws Hnd Hplay).
  apply Permutation_map. by apply occupied_written.
Qed.

Lemma length_everyOtherColumn rows bound :
  2 ≤ bound → 3 ≤ rows → everyOtherColumn rows bound ≠ [].
Proof.
  intros Hb Hr. unfold everyOtherColumn.
  assert (1 ≤ bound / 2) by (apply Z.div_le_lower_bound; lia).
  rewrite (seqZ_cons 1 (rows - 2)) by lia. cbn [flat_map].
  rewrite (seqZ_cons 0 (bound / 2)) by lia. done.
Qed.

Section Target.

Variables (cols rows : Z) (t : string).
Hypothesis (Ht : pairable t) (Hne : t ≠ "").
Hypothesis (Hcols : 5 ≤ cols) (Hrows : 3 ≤ rows).

Local Abbreviation target := (λ b : Board, targetOn cols rows t (pictures b)).

Lemma head_letters (ps : list (string * string)) k letters :
  (1 ≤ k)%nat →
  letters ≡ₚ unpair (take k ((toLowerCase t, toUpperCase t) :: ps)) →
  toLowerCase t ∈ letters ∧ toUpperCase t ∈ letters.
Proof.
  intros Hk Hperm. destruct k as [|k]; [lia|].
  cbn [take unpair flat_map app fst snd] in Hperm. rewrite Hperm.
  split; [left|right; left].
Qed.

Lemma room : (3 ≤ length (getAllValidPositions cols rows))%nat.
Proof. rewrite length_validPositions. nia. Qed.

Lemma generateMapWithEdgePriority_target b b' :
  generateMapWithEdgePriority cols rows t (setPictures (emptyMap cols rows) b)
  = Some (tt, b') →
  target b'.
Proof.
  unfold generateMapWithEdgePriority. intros (letters & b1 & Hletters & H)%bind_run.
  apply generateLetterPairs_head in Hletters as (ps & -> & Hinv & Hpic & _); [|done..].
  rewrite groupIntoLetterPairs_inventory in H by done.
  apply placePairs_some in H as (k & ws & Hws & Hpos & Hpics & Hocc & Hk).
  unfold targetOn. rewrite Hws, Hpic. simpl.
  apply (head_letters ps k).
  - apply Hk; [done|].
    rewrite (Permutation_length (sortByEdge_Permutation _ _ _)). pose proof room. lia.
  - rewrite <-Hpics. apply written_letters; [| |done].
    + rewrite Hpos. apply NoDup_take_drop, sortByEdge_NoDup.
    + apply Forall_fst_inPlay. rewrite Hpos. apply Forall_take_drop, sortByEdge_Forall.
Qed.

Lemma generateMapTraditional_target b b' :
  generateMapTraditional cols rows t (setPictures (emptyMap cols rows) b) = Some (tt, b') →
  target b'.
Proof.
  unfold generateMapTraditional. intros (letters & b1 & Hletters & H)%bind_run.
  apply generateLetterPairs_head in Hletters as (ps & -> & Hinv & Hpic & Hmax); [|done..].
  apply bind_run in H as (shuffled & b2 & Hsh & H).
  pose proof (shuffle_pictures _ _ _ _ _ Hsh) as Hpic2.
  apply shuffle_Permutation in Hsh.
  apply fillRowMajor_writes in H as (ws & Hws & Hpos & Hpics & Hocc).
  unfold targetOn. rewrite Hws, Hpic2, Hpic. simpl.
  apply (head_letters ps (S (length ps))); [lia|].
  rewrite take_ge by (simpl; lia). rewrite <-Hsh.
  assert (map picOf ws = shuffled) as <-.
  { rewrite Hpics, take_ge; [done|]. rewrite Hsh, length_unpair.
    pose proof (length_validPositions cols rows) as Hlen. cbn [length] in *.
    assert (Z.of_nat (Z.to_nat (rows - 2) * Z.to_nat (cols - 2)) = (rows - 2) * (cols - 2))
      as Htotal by nia.
    assert (2 ≤ (rows - 2) * (cols - 2)) by nia.
    pose proof (Z.div_mod ((rows - 2) * (cols - 2)) 2 ltac:(lia)).
    pose proof (Z.mod_pos_bound ((rows - 2) * (cols - 2)) 2 ltac:(lia)). lia. }
  apply written_letters; [| |done].
  - rewrite Hpos. apply (sublist_NoDup _ (getAllValidPositions cols rows));
      [apply validPositions_NoDup|apply sublist_take].
  - apply Forall_fst_inPlay. rewrite Hpos. apply Forall_take, validPositions_Forall.
Qed.

Lemma generateSolvableTemplate_target :
  makes target (generateSolvableTemplate cols rows t).
Proof.
  intros b [] b' _. unfold generateSolvableTemplate. intros ([] & b0 & H0 & H)%bind_run.
  rewrite initializeEmptyMap_run in H0. injection H0 as <-.
  apply bind_run in H as (letters & b1 & Hletters & H).
  apply generateLetterPairs_head in Hletters as (ps & -> & Hinv & Hpic & _); [|done..].
  rewrite groupIntoLetterPairs_inventory in H by done.
  apply placeTemplate_writes in H as (ws & Hws & Hpos & Hpics & Hocc).
  unfold targetOn. rewrite Hws, Hpic. simpl.
  apply (head_letters ps (length (everyOtherColumn rows (cols - 3)))).
  { pose proof (length_everyOtherColumn rows (cols - 3) ltac:(lia) Hrows).
    destruct (everyOtherColumn rows (cols - 3)); [done|simpl; lia]. }
  rewrite <-Hpics.
  set (slots := take (length ((toLowerCase t, toUpperCase t) :: ps))
                  (everyOtherColumn rows (cols - 3))) in *.
  assert (StronglySorted slotLt slots) as Hs
    by apply StronglySorted_take, everyOtherColumn_sorted.
  assert (Forall (λ p, inPlay cols rows p ∧ p.2 < cols - 3) slots) as Hplay
    by apply Forall_take, templateSlots_Forall.
  apply written_letters; [| |done].
  - by apply (written_slots_NoDup ws slots).
  - apply Forall_forall. intros w Hw.
    pose proof (slots_inPlay _ _ _ Hplay) as Hall.
    change (unpair (map slotPair slots)) with
      (unpair (map (λ p : Position, (p, (p.1, p.2 + 1))) slots)) in Hall.
    rewrite <-Hpos in Hall.
    eapply Forall_forall in Hall; [done|]. by apply list_elem_of_In, in_map, list_elem_of_In.
Qed.

Lemma generateRandomMapLoop_target budget attempts b att b' :
  (budget = 0%nat → target b) →
  generateRandomMapLoop cols rows t budget attempts b = Some (att, b') →
  target b'.
Proof.
  revert attempts b. induction budget as [|budget IH]; intros attempts b H0;
    cbn [generateRandomMapLoop].
  { intros [= <- <-]. auto. }
  intros ([] & b0 & Hinit & H)%bind_run.
  rewrite initializeEmptyMap_run in Hinit. injection Hinit as <-.
  apply bind_run in H as ([] & b1 & Hplace & H).
  apply bind_run in H as (ok & b2 & Hsolv & H).
  apply isSolvable_solvable in Hsolv as [-> Hpic].
  assert (target b1) as Hb1.
  { destruct (attempts <? 15).
    - by eapply generateMapWithEdgePriority_target.
    - by eapply generateMapTraditional_target. }
  destruct (negb _ && _).
  - eapply IH; [|done]. intros _. by rewrite Hpic.
  - injection H as <- <-. by rewrite Hpic.
Qed.

Lemma generateRandomMap_target : makes target (generateRandomMap cols rows t).
Proof.
  intros b [] b' _. unfold generateRandomMap. intros (att & b1 & Hloop & H)%bind_run.
  apply generateRandomMapLoop_target in Hloop; [|done].
  destruct (att >=? 30); cbn [when] in H.
  - apply bind_run in H as ([] & b2 & _ & H).
    by eapply generateSolvableTemplate_target.
  - by injection H as <-.
Qed.

Lemma createMapLoop_target budget attempts b att b' :
  (budget = 0%nat → target b) →
  createMapLoop cols rows t budget attempts b = Some (att, b') → target b'.
Proof.
  revert attempts b. induction budget as [|budget IH]; intros attempts b H0;
    cbn [createMapLoop].
  { intros [= <- <-]. auto. }
  intros ([] & b1 & Hmap%generateRandomMap_target & H)%bind_run; [|done].
  apply bind_run in H as (ok & b2 & Hsolv & H).
  apply isSolvable_solvable in Hsolv as [-> Hpic].
  destruct (negb _ && _).
  - eapply IH; [|done]. intros _. by rewrite Hpic.
  - injection H as <- <-. by rewrite Hpic.
Qed.

Lemma createMap_makes_target : makes target (createMap cols rows t).
Proof.
  intros b [] b' _. unfold createMap. intros (att & b1 & Hloop & H)%bind_run.
  apply createMapLoop_target in Hloop; [|done].
  destruct (att >=? 100); cbn [when] in H; by injection H as <-.
Qed.

End Target.

(** X18.  On a board of at least five columns and three rows, the map that
    [createMap] or [generateRandomMap] builds shows the target letter in
    both cases. *)
Theorem createMap_target cols rows t b b' :
  pairable t → t ≠ "" → 5 ≤ cols → 3 ≤ rows →
  createMap cols rows t b = Some (tt, b')
  ∨ generateRandomMap cols rows t b = Some (tt, b') →
  toLowerCase t ∈ lettersOf cols rows (pictures b')
  ∧ toUpperCase t ∈ lettersOf cols rows (pictures b').
Proof.
  intros Ht Hne Hcols Hrows [Hrun|Hrun].
  - by eapply (createMap_makes_target cols rows t).
  - by eapply (generateRandomMap_target cols rows t).
Qed.

(** * Retries that never happen *)

(** X19.  With a target letter that has two cases, [createMap] is one call
    of [generateRandomMap] and one check: the map of that one call passes
    [isSolvable], so the loop never goes round again and the board left is
    the board that the check left. *)
Theorem createMap_once cols rows t b b' :
  pairable t →
  createMap cols rows t b = Some (tt, b') →
  ∃ b1, generateRandomMap cols rows t b = Some (tt, b1)
        ∧ isSolvable cols rows b1 = Some (true, b').
Proof.
  intros Ht. unfold createMap. intros (att & b1 & Hloop & H)%bind_run.
  pose proof (createMapLoop_solvable cols rows t Ht 99 0 b att b1 Hloop) as [-> _].
  change (0 + 1 >=? 100) with false in H. cbn [when] in H. injection H as <-.
  cbn [createMapLoop] in Hloop.
  apply bind_run in Hloop as ([] & b2 & Hmap & H).
  apply bind_run in H as (ok & b3 & Hsolv & H).
  pose proof (generateRandomMap_solvable cols rows t Ht b tt b2 I Hmap) as Hsolved.
  pose proof (isSolvable_solvable _ _ _ _ _ Hsolv) as [-> _].
  simpl in Hsolved. rewrite Hsolved in *. cbn [negb andb] in H. injection H as <-.
  by exists b2.
Qed.

(** * Stopping the clock *)

Ltac ticking_side :=
  unfold ticking in *; fields; first [assumption | done | tauto].

Lemma perform_ticking a : keeps ticking (perform a).
Proof.
  destruct a; cbn [perform].
  1-4, 7-8: keeps_auto ticking_side.
  - unfold startGame. intros e [] e' _ Hrun%init_timer. by intros _.
  - intros e [] e' _. rewrite restartGame_unfold, !modify_bind, setSelectedCell_bind.
    intros ([] & e1 & Hrun%init_timer & H)%bind_run.
    rewrite gets_bind, notify_bind, gets_bind, notify_run in H. injection H as <-.
    by intros _.
Qed.

Lemma performAll_ticking actions e e' :
  ticking e → performAll actions e = Some e' → ticking e'.
Proof.
  revert e. induction actions as [|a actions IH]; intros e He; simpl.
  { by intros [= <-]. }
  destruct (perform a e) as [[[] e1]|] eqn:Hrun; [|done].
  apply IH. by eapply perform_ticking.
Qed.

Lemma ticks_stopped n e :
  timerRunning e = false → performAll (replicate n Tick) e = Some e.
Proof.
  intros Hstopped. induction n as [|n IH]; [done|].
  cbn [replicate performAll perform]. rewrite tick_run, Hstopped. exact IH.
Qed.

(** X20.  [destroy] stops the countdown for good: in a session, after
    [destroy] the interval is cleared, and ticks that still arrive leave the
    engine as it is. *)
Theorem destroy_stops_clock c r t tape actions e n :
  performAll actions (newEngine c r t tape) = Some e →
  ∃ e', performAll [Destroy] e = Some e'
        ∧ timerRunning e' = false
        ∧ leftTime e' = leftTime e
        ∧ performAll (Destroy :: replicate n Tick) e = Some e'.
Proof.
  intros Hrun.
  assert (ticking e) as Hticking by (eapply performAll_ticking; [|done]; done).
  cbn [performAll perform]. unfold destroy. rewrite clearTimer_run.
  eexists. split; [done|].
  assert (timerRunning (if timer e then setTimerRunning false e else e) = false) as Hoff.
  { destruct (timer e) eqn:Htimer; [done|].
    destruct (timerRunning e) eqn:Hrunning; [|done]. by rewrite Hticking in Htimer. }
  split; [done|]. split; [by destruct (timer e)|]. by apply ticks_stopped.
Qed.

(** * The properties on the game page *)

Lemma demoGrid_shape : gridShape 6 5 demoGrid.
Proof. split; [reflexivity|repeat constructor]. Defined.

Lemma demoGenerated_shape : gridShape 6 5 (pictures demoGenerated).
Proof. split; [reflexivity|repeat constructor]. Defined.

Lemma pairable_A : pairable "A".
Proof. right. split; [reflexivity|vm_compute; discriminate]. Defined.

Lemma canCleanup_path_witness :
  canCleanup 6 5 demoGrid 1 3 3 3 = Some [(1, 3); (1, 4); (3, 4); (3, 3)]
  ∧ linkPath demoGrid (1, 3) (3, 3) [(1, 3); (1, 4); (3, 4); (3, 3)].
Proof.
  assert (canCleanup 6 5 demoGrid 1 3 3 3 = Some [(1, 3); (1, 4); (3, 4); (3, 3)]) as Hrun
    by (vm_compute; reflexivity).
  split; [exact Hrun|].
  exact (canCleanup_path 6 5 demoGrid 1 3 3 3 _ Hrun).
Defined.


Lemma isSolvable_clearable_witness :
  gridShape 6 5 (pictures demoGenerated)
  ∧ ∃ ok b', isSolvable 6 5 demoGenerated = Some (ok, b')
             ∧ (ok = true ↔ clearable 6 5 (pictures demoGenerated)).
Proof.
  split; [exact demoGenerated_shape|].
  exact (isSolvable_clearable 6 5 demoGenerated demoGenerated_shape).
Defined.

Lemma getAvailableMatches_moves_witness :
  gridShape 6 5 (pictures (board demoStarted))
  ∧ ∃ ms b', getAvailableMatches 6 5 (board demoStarted) = Some (ms, b')
             ∧ pictures b' = pictures (board demoStarted)
             ∧ ∀ p q, (p, q) ∈ ms
                      ↔ legalMove 6 5 (pictures (board demoStarted)) p q ∧ posLt p q.
Proof.
  split; [exact demoGrid_shape|].
  exact (getAvailableMatches_moves 6 5 (board demoStarted) demoGrid_shape).
Defined.

Lemma checkCurrentDeadlock_stuck_witness :
  gridShape (cols demoStarted) (rows demoStarted) (grid demoStarted)
  ∧ ∃ stuck e', checkCurrentDeadlock demoStarted = Some (stuck, e')
                ∧ grid e' = grid demoStarted
                ∧ (stuck = true
                   ↔ 0 < remain demoStarted
                     ∧ ∀ p q, ¬ legalMove (cols demoStarted) (rows demoStarted)
                                  (grid demoStarted) p q).
Proof.
  split; [exact demoGrid_shape|].
  exact (checkCurrentDeadlock_stuck demoStarted demoGrid_shape).
Defined.

Lemma solvable_has_match_witness :
  gridShape 6 5 (pictures demoGenerated)
  ∧ isSolvable 6 5 demoGenerated = Some (true, demoChecked)
  ∧ occupiedPositions 6 5 (pictures demoGenerated) ≠ []
  ∧ ∃ m ms b2, getAvailableMatches 6 5 demoGenerated = Some (m :: ms, b2).
Proof.
  assert (isSolvable 6 5 demoGenerated = Some (true, demoChecked)) as Hrun
    by (vm_compute; reflexivity).
  assert (occupiedPositions 6 5 (pictures demoGenerated) ≠ []) as Hsome
    by (vm_compute; discriminate).
  split; [exact demoGenerated_shape|]. split; [exact Hrun|]. split; [exact Hsome|].
  exact (solvable_has_match 6 5 demoGenerated demoChecked demoGenerated_shape Hrun Hsome).
Defined.

Lemma showHint_move_witness :
  gridShape (cols demoStarted) (rows demoStarted) (grid demoStarted)
  ∧ ∃ e', showHint demoStarted = Some (tt, e')
          ∧ grid e' = grid demoStarted
          ∧ (((∀ p q, ¬ legalMove (cols demoStarted) (rows demoStarted)
                          (grid demoStarted) p q)
              ∧ log (board e') = log (board demoStarted))
             ∨ ∃ p q, legalMove (cols demoStarted) (rows demoStarted) (grid demoStarted) p q
                      ∧ log (board e')
                        = log (board demoStarted)
                          ++ [Hint [letterCell (grid demoStarted) p;
                                    letterCell (grid demoStarted) q]]).
Proof.
  split; [exact demoGrid_shape|].
  exact (showHint_move demoStarted demoGrid_shape).
Defined.

Lemma reshuffle_letters_witness :
  gridShape 6 5 (pictures (board demoStarted))
  ∧ smartDisorderEdgeFirst 6 5 (board demoStarted) = Some (tt, demoShuffled)
  ∧ sameCells (pictures (board demoStarted)) (pictures demoShuffled)
  ∧ lettersOf 6 5 (pictures demoShuffled) ≡ₚ lettersOf 6 5 (pictures (board demoStarted)).
Proof.
  assert (smartDisorderEdgeFirst 6 5 (board demoStarted) = Some (tt, demoShuffled)) as Hrun
    by (vm_compute; reflexivity).
  split; [exact demoGrid_shape|]. split; [exact Hrun|].
  exact (reshuffle_letters 6 5 (board demoStarted) demoShuffled demoGrid_shape
           (or_introl Hrun)).
Defined.


Lemma reshuffle_credits_witness :
  0 ≤ leftDisorderTime demoCleared ≤ 5
  ∧ (∀ actions e', performAll actions demoCleared = Some e' → 0 ≤ leftDisorderTime e' ≤ 5)
  ∧ (∀ ok e', handleDisorder demoCleared = Some (ok, e') →
       if decide (0 < leftDisorderTime demoCleared)
       then ok = true ∧ leftDisorderTime e' = leftDisorderTime demoCleared - 1
       else ok = false ∧ e' = demoCleared).
Proof.
  assert (0 ≤ leftDisorderTime demoCleared ≤ 5) as Hcredits
    by (change (0 ≤ 5 ≤ 5); lia).
  split; [exact Hcredits|].
  exact (reshuffle_credits demoCleared Hcredits).
Defined.

Lemma score_accounting_witness :
  (Start ∉ [Click 1 2 0; Click 1 3 0; Acknowledge (MatchSuccess 1 2 1 3 0 0)])
  ∧ (Restart ∉ [Click 1 2 0; Click 1 3 0; Acknowledge (MatchSuccess 1 2 1 3 0 0)])
  ∧ performAll [Click 1 2 0; Click 1 3 0; Acknowledge (MatchSuccess 1 2 1 3 0 0)]
      demoStarted = Some demoCleared
  ∧ score demoCleared + 50 * remain demoCleared
    = score demoStarted + 50 * remain demoStarted.
Proof.
  assert (Start ∉ [Click 1 2 0; Click 1 3 0; Acknowledge (MatchSuccess 1 2 1 3 0 0)])
    as Hstart.
  { rewrite !not_elem_of_cons. repeat (split; [discriminate|]). apply not_elem_of_nil. }
  assert (Restart ∉ [Click 1 2 0; Click 1 3 0; Acknowledge (MatchSuccess 1 2 1 3 0 0)])
    as Hrestart.
  { rewrite !not_elem_of_cons. repeat (split; [discriminate|]). apply not_elem_of_nil. }
  assert (performAll [Click 1 2 0; Click 1 3 0; Acknowledge (MatchSuccess 1 2 1 3 0 0)]
            demoStarted = Some demoCleared) as Hrun by (vm_compute; reflexivity).
  split; [exact Hstart|]. split; [exact Hrestart|]. split; [exact Hrun|].
  exact (score_accounting _ demoStarted demoCleared Hstart Hrestart Hrun).
Defined.

Lemma countdown_stops_witness :
  0 < orDefault (Some 1) 1000
  ∧ performAll [Start; Tick] (newEngine (Some 4) (Some 3) (Some 1) demoTape) = Some shortOver
  ∧ 0 ≤ leftTime shortOver ≤ configInitialTime shortOver
  ∧ (timerRunning shortOver = true → 0 < leftTime shortOver)
  ∧ ∃ e', tick shortOver = Some (tt, e')
          ∧ leftTime e' = (if timerRunning shortOver then leftTime shortOver - 1
                           else leftTime shortOver)
          ∧ timerRunning e' = timerRunning shortOver && (1 <? leftTime shortOver)
          ∧ log (board e')
            = log (board shortOver)
              ++ (if timerRunning shortOver then [TimeUpdate (leftTime shortOver - 1)]
                  else [])
              ++ (if timerRunning shortOver && (leftTime shortOver =? 1)
                  then [GameOver TimeExceeded (score shortOver)] else []).
Proof.
  assert (0 < orDefault (Some 1) 1000) as Htime by reflexivity.
  assert (performAll [Start; Tick] (newEngine (Some 4) (Some 3) (Some 1) demoTape)
          = Some shortOver) as Hrun by (vm_compute; reflexivity).
  split; [exact Htime|]. split; [exact Hrun|].
  exact (countdown_stops (Some 4) (Some 3) (Some 1) demoTape [Start; Tick] shortOver
           Htime Hrun).
Defined.

Lemma click_without_letter_witness :
  0 < remain demoStarted ∧ isAnimating demoStarted = false
  ∧ getCell (grid demoStarted) 7 7 = None
  ∧ getCell (grid demoStarted) 0 0 = Some emptyCell
  ∧ handleCellClick 7 7 0 demoStarted = None
  ∧ handleCellClick 0 0 0 demoStarted = Some (tt, heard [Hint []] demoStarted).
Proof.
  assert (0 < remain demoStarted) as Hremain by reflexivity.
  assert (isAnimating demoStarted = false) as Hstill by reflexivity.
  assert (getCell (grid demoStarted) 7 7 = None) as Hout by (vm_compute; reflexivity).
  assert (getCell (grid demoStarted) 0 0 = Some emptyCell) as Hborder
    by (vm_compute; reflexivity).
  repeat (split; [assumption|]). split.
  - exact (proj1 (click_without_letter demoStarted 7 7 0 Hremain Hstill) Hout).
  - exact (proj2 (click_without_letter demoStarted 0 0 0 Hremain Hstill) emptyCell Hborder
             eq_refl).
Defined.

Lemma select_deselect_witness :
  0 < remain demoStarted ∧ isAnimating demoStarted = false
  ∧ preClickInfo demoStarted = None ∧ selectedCell demoStarted = None
  ∧ getCell (grid demoStarted) 1 2 = Some (cellAt demoGrid 1 2)
  ∧ isEmpty (cellAt demoGrid 1 2) = false
  ∧ performAll [Click 1 2 0; Click 1 2 1] demoStarted
    = Some (heard [Hint []; SelectedCellChange (Some (mkClick 1 2 0)); Hint [];
                   SelectedCellChange None] demoStarted).
Proof.
  assert (0 < remain demoStarted) as Hremain by reflexivity.
  assert (isAnimating demoStarted = false) as Hstill by reflexivity.
  assert (preClickInfo demoStarted = None) as Hpre by reflexivity.
  assert (selectedCell demoStarted = None) as Hsel by reflexivity.
  assert (getCell (grid demoStarted) 1 2 = Some (cellAt demoGrid 1 2)) as Hcell
    by (vm_compute; reflexivity).
  assert (isEmpty (cellAt demoGrid 1 2) = false) as Hletter by (vm_compute; reflexivity).
  repeat (split; [assumption|]).
  exact (select_deselect demoStarted 1 2 0 1 _ Hremain Hstill Hpre Hsel Hcell Hletter).
Defined.

Lemma start_clearable_witness :
  pairable (targetLetter demoEngine)
  ∧ startGame demoEngine = Some (tt, demoStarted)
  ∧ cols demoStarted = cols demoEngine ∧ rows demoStarted = rows demoEngine
  ∧ gridShape (cols demoStarted) (rows demoStarted) (grid demoStarted)
  ∧ clearable (cols demoStarted) (rows demoStarted) (grid demoStarted)
  ∧ remain demoStarted
    = Z.of_nat (length (occupiedPositions (cols demoStarted) (rows demoStarted)
                          (grid demoStarted))).
Proof.
  assert (startGame demoEngine = Some (tt, demoStarted)) as Hrun
    by (vm_compute; reflexivity).
  split; [exact pairable_A|]. split; [exact Hrun|].
  exact (start_clearable demoEngine demoStarted pairable_A (or_introl Hrun)).
Defined.

Lemma demoGrid_conserved : pairConserved 6 5 demoGrid.
Proof.
  unfold pairConserved.
  replace (occupiedPositions 6 5 demoGrid)
    with [(1, 1); (1, 2); (1, 3); (1, 4); (2, 1); (2, 2); (2, 3); (2, 4);
          (3, 1); (3, 2); (3, 3); (3, 4)] by (vm_compute; reflexivity).
  repeat (constructor; [vm_compute; reflexivity|]). constructor.
Defined.

Lemma pairing_kept_witness :
  gridShape (cols demoStarted) (rows demoStarted) (grid demoStarted)
  ∧ pairConserved (cols demoStarted) (rows demoStarted) (grid demoStarted)
  ∧ (∀ pr pc cr cc i j e',
       legalMove (cols demoStarted) (rows demoStarted) (grid demoStarted) (pr, pc) (cr, cc) →
       updateStatus pr pc cr cc i j demoStarted = Some (tt, e') →
       pairConserved (cols demoStarted) (rows demoStarted) (grid e'))
  ∧ (∀ b', smartDisorderEdgeFirst (cols demoStarted) (rows demoStarted) (board demoStarted)
           = Some (tt, b')
           ∨ randomDisorder (cols demoStarted) (rows demoStarted) (board demoStarted)
             = Some (tt, b') →
           pairConserved (cols demoStarted) (rows demoStarted) (pictures b')).
Proof.
  split; [exact demoGrid_shape|]. split; [exact demoGrid_conserved|].
  exact (pairing_kept demoStarted demoGrid_shape demoGrid_conserved).
Defined.

Lemma acknowledged_reports_witness :
  invoke (MatchSuccess 1 2 1 3 0 0) demoMatched = Some (tt, demoCleared)
  ∧ gameOverReports (log (board demoCleared))
    = gameOverReports (log (board demoMatched))
      ++ ackReports (MatchSuccess 1 2 1 3 0 0) (steps demoMatched) (remain demoMatched).
Proof.
  assert (invoke (MatchSuccess 1 2 1 3 0 0) demoMatched = Some (tt, demoCleared)) as Hrun
    by (vm_compute; reflexivity).
  split; [exact Hrun|].
  exact (acknowledged_reports _ demoMatched demoCleared Hrun).
Defined.

Lemma createMap_target_witness :
  pairable "A" ∧ "A" ≠ "" ∧ 5 ≤ 6 ∧ 3 ≤ 5
  ∧ createMap 6 5 "A" demoBoard = Some (tt, demoGenerated)
  ∧ toLowerCase "A" ∈ lettersOf 6 5 (pictures demoGenerated)
  ∧ toUpperCase "A" ∈ lettersOf 6 5 (pictures demoGenerated).
Proof.
  assert ("A" ≠ "") as Hletter by discriminate.
  assert (5 ≤ 6) as Hcols by lia. assert (3 ≤ 5) as Hrows by lia.
  assert (createMap 6 5 "A" demoBoard = Some (tt, demoGenerated)) as Hrun
    by (vm_compute; reflexivity).
  split; [exact pairable_A|]. repeat (split; [assumption|]).
  exact (createMap_target 6 5 "A" demoBoard demoGenerated pairable_A Hletter Hcols Hrows
           (or_introl Hrun)).
Defined.

Lemma createMap_once_witness :
  pairable "A"
  ∧ createMap 6 5 "A" demoBoard = Some (tt, demoGenerated)
  ∧ ∃ b1, generateRandomMap 6 5 "A" demoBoard = Some (tt, b1)
          ∧ isSolvable 6 5 b1 = Some (true, demoGenerated).
Proof.
  assert (createMap 6 5 "A" demoBoard = Some (tt, demoGenerated)) as Hrun
    by (vm_compute; reflexivity).
  split; [exact pairable_A|]. split; [exact Hrun|].
  exact (createMap_once 6 5 "A" demoBoard demoGenerated pairable_A Hrun).
Defined.

Lemma destroy_stops_clock_witness :
  performAll [Start] (newEngine (Some 4) (Some 3) (Some 1) demoTape) = Some shortStarted
  ∧ ∃ e', performAll [Destroy] shortStarted = Some e'
          ∧ timerRunning e' = false
          ∧ leftTime e' = leftTime shortStarted
          ∧ performAll (Destroy :: replicate 3 Tick) shortStarted = Some e'.
Proof.
  assert (performAll [Start] (newEngine (Some 4) (Some 3) (Some 1) demoTape)
          = Some shortStarted) as Hrun by (vm_compute; reflexivity).
  split; [exact Hrun|].
  exact (destroy_stops_clock (Some 4) (Some 3) (Some 1) demoTape [Start] shortStarted 3 Hrun).
Defined.
